(** * TmLibrary: online illumination statistics and map-object tiling

    A shallow embedding of

    - [tmlib/workflow/corilla/stats.py] (class [OnlineStatistics]),
    - [tmlib/models/mapobject.py] ([MapobjectOutline.intersection_filter],
      [MapobjectType.calculate_min_poly_zoom],
      [MapobjectType.get_mapobject_outlines_within_tile]), and
    - [tmlib/workflow/corilla/api.py] ([IllumstatsCalculator.create_batches]
      and [IllumstatsCalculator.run_job]),

    followed by the properties proved about them.

    Numeric conventions.  NumPy's [float64] is modelled by the type [float]
    below: a real number, one of the two infinities, or not-a-number, with
    the IEEE 754 rules for the special values and _exact_ arithmetic on the
    finite ones (rounding error and signed zeros are outside the model).
    Python integers are [Z]. *)

From Stdlib Require Import Reals ZArith QArith Qround Qpower Qminmax List Bool
  Lia Psatz.
From Stdlib Require String Permutation.
Import ListNotations.

(** ** Exceptions *)

Inductive exn : Type :=
| ValueError
| IndexError
| ZeroDivisionError
| OverflowError.

Inductive result (A : Type) : Type :=
| Ok (a : A)
| Raise (e : exn).
Arguments Ok {A} a.
Arguments Raise {A} e.

(** ** NumPy: floats, arrays, broadcasting, percentiles *)

Module NumPy.

Local Open Scope R_scope.

(** [Inf false] is +inf and [Inf true] is -inf. *)
Inductive float : Type :=
| Fin (r : R)
| Inf (negative : bool)
| NaN.

Definition Rneg (r : R) : bool := if Rlt_dec r 0 then true else false.
Definition Rzero (r : R) : bool := if Req_dec_T r 0 then true else false.

Definition fneg (x : float) : float :=
  match x with
  | Fin r => Fin (- r)
  | Inf s => Inf (negb s)
  | NaN => NaN
  end.

Definition fadd (x y : float) : float :=
  match x, y with
  | NaN, _ | _, NaN => NaN
  | Fin a, Fin b => Fin (a + b)
  | Fin _, Inf s | Inf s, Fin _ => Inf s
  | Inf s, Inf t => if Bool.eqb s t then Inf s else NaN
  end.

Definition fsub (x y : float) : float := fadd x (fneg y).

Definition fmul (x y : float) : float :=
  match x, y with
  | NaN, _ | _, NaN => NaN
  | Fin a, Fin b => Fin (a * b)
  | Fin a, Inf s | Inf s, Fin a =>
      if Rzero a then NaN else Inf (xorb s (Rneg a))
  | Inf s, Inf t => Inf (xorb s t)
  end.

Definition fdiv (x y : float) : float :=
  match x, y with
  | NaN, _ | _, NaN => NaN
  | Fin a, Fin b =>
      if Rzero b then (if Rzero a then NaN else Inf (Rneg a))
      else Fin (a / b)
  | Fin _, Inf _ => Fin 0
  | Inf s, Fin b => Inf (xorb s (Rneg b))
  | Inf _, Inf _ => NaN
  end.

(** [np.log10]: [-inf] at zero, [nan] on negative input. *)
Definition log10 (x : float) : float :=
  match x with
  | NaN => NaN
  | Inf s => if s then NaN else Inf false
  | Fin a =>
      if Rzero a then Inf true
      else if Rneg a then NaN
      else Fin (ln a / ln 10)
  end.

Definition is_finite (x : float) : Prop :=
  match x with Fin _ => True | _ => False end.

(** The order [np.sort] uses: -inf, the reals, +inf, and nan last. *)
Definition fle (x y : float) : Prop :=
  match x, y with
  | _, NaN => True
  | NaN, _ => False
  | Inf true, _ => True
  | _, Inf false => True
  | Fin a, Fin b => a <= b
  | _, _ => False
  end.

Definition fle_dec (x y : float) : {fle x y} + {~ fle x y}.
Proof.
  destruct x as [a|[|]|], y as [b|[|]|]; simpl;
    try (left; exact I); try (right; exact (fun H => H)).
  apply Rle_dec.
Defined.

(** An n-dimensional array: its shape and its elements in row-major order. *)
Record ndarray : Type := mk_ndarray { shape : list nat; data : list float }.

Definition size_of (s : list nat) : nat := fold_right Nat.mul 1%nat s.

Definition well_formed (a : ndarray) : Prop :=
  length (data a) = size_of (shape a).

(** [np.zeros(shape)] and an array filled with one value. *)
Definition full (s : list nat) (v : float) : ndarray :=
  mk_ndarray s (repeat v (size_of s)).
Definition zeros (s : list nat) : ndarray := full s (Fin 0).

(** *** Broadcasting

    Shapes are compared from the trailing dimension; two dimensions are
    compatible when they are equal or one of them is 1. *)
Fixpoint broadcast_dims (r1 r2 : list nat) : option (list nat) :=
  match r1, r2 with
  | [], r | r, [] => Some r
  | a :: r1', b :: r2' =>
      match broadcast_dims r1' r2' with
      | None => None
      | Some r =>
          if Nat.eqb a b then Some (a :: r)
          else if Nat.eqb a 1 then Some (b :: r)
          else if Nat.eqb b 1 then Some (a :: r)
          else None
      end
  end.

Definition broadcast_shapes (s1 s2 : list nat) : option (list nat) :=
  option_map (@rev nat) (broadcast_dims (rev s1) (rev s2)).

Fixpoint chunks (k n : nat) (d : list float) : list (list float) :=
  match n with
  | O => []
  | S n' => firstn k d :: chunks k n' (skipn k d)
  end.

(** [expand t s d]: the elements [d] of an array of shape [s] read as an
    array of shape [t], where [s] has the length of [t] and each dimension
    of [s] is the one of [t] or 1. *)
Fixpoint expand (t s : list nat) (d : list float) : list float :=
  match t, s with
  | tn :: t', sn :: s' =>
      if Nat.eqb sn tn
      then concat (map (expand t' s') (chunks (size_of s') sn d))
      else concat (repeat (expand t' s' d) tn)
  | _, _ => d
  end.

Definition broadcast_to (t : list nat) (a : ndarray) : list float :=
  expand t (repeat 1%nat (length t - length (shape a)) ++ shape a) (data a).

Fixpoint map2 {A B C : Type} (f : A -> B -> C) (l1 : list A) (l2 : list B)
  : list C :=
  match l1, l2 with
  | a :: l1', b :: l2' => f a b :: map2 f l1' l2'
  | _, _ => []
  end.

(** An elementwise binary operator on two arrays. *)
Definition binop (f : float -> float -> float) (a b : ndarray)
  : result ndarray :=
  match broadcast_shapes (shape a) (shape b) with
  | None => Raise ValueError
  | Some t =>
      Ok (mk_ndarray t (map2 f (broadcast_to t a) (broadcast_to t b)))
  end.

Definition add := binop fadd.
Definition sub := binop fsub.
Definition mul := binop fmul.

(** An array and a Python scalar. *)
Definition scalar_op (f : float -> float -> float) (a : ndarray) (c : float)
  : ndarray :=
  mk_ndarray (shape a) (map (fun x => f x c) (data a)).

Definition map_array (f : float -> float) (a : ndarray) : ndarray :=
  mk_ndarray (shape a) (map f (data a)).

(** *** Sorting and percentiles *)

Fixpoint insert (x : float) (l : list float) : list float :=
  match l with
  | [] => [x]
  | y :: l' => if fle_dec x y then x :: l else y :: insert x l'
  end.

Fixpoint sort (l : list float) : list float :=
  match l with
  | [] => []
  | x :: l' => insert x (sort l')
  end.

(** [int(x)] on a finite float: truncation towards zero. *)
Definition Rtrunc (r : R) : Z :=
  if Rlt_dec r 0 then (- Zfloor (- r))%Z else Zfloor r.

(** One percentile of the sorted data [ap] (linear interpolation between
    the two closest ranks): [q] in percent, the virtual index is
    [q / 100 * (N - 1)]; the rank above is clipped to [N - 1]. *)
Definition percentile1 (ap : list float) (q : R) : float :=
  let Nx := length ap in
  let index := q / 100 * (INR Nx - 1) in
  let below := Zfloor index in
  let above := Z.min (below + 1) (Z.of_nat Nx - 1) in
  let weight_above := index - IZR below in
  let weight_below := 1 - weight_above in
  fadd (fmul (nth (Z.to_nat below) ap NaN) (Fin weight_below))
       (fmul (nth (Z.to_nat above) ap NaN) (Fin weight_above)).

(** [np.percentile(a, q)] over the flattened array; an empty array has no
    ranks to index. *)
Definition percentile (a : ndarray) (q : list R) : result (list float) :=
  match data a with
  | [] => Raise IndexError
  | _ => Ok (map (percentile1 (sort (data a))) q)
  end.

(** [np.linspace(start, stop, num)]. *)
Definition linspace (start stop : R) (num : nat) : list R :=
  map (fun i => start + INR i * ((stop - start) / INR (num - 1)))
      (seq 0 num).

End NumPy.

(** ** [tmlib.workflow.corilla.stats] *)

Module Stats.

Import NumPy.
Local Open Scope R_scope.

(** The attributes of an [OnlineStatistics] object. *)
Record OnlineStatistics : Type := mk_stats {
  n : Z;
  image_dimensions : list nat;
  _mean : ndarray;
  _M2 : ndarray;
  _q : list R;
  _percentiles : list float;
  _keys : list R
}.

Definition set_n (self : OnlineStatistics) (v : Z) :=
  mk_stats v (image_dimensions self) (_mean self) (_M2 self) (_q self)
           (_percentiles self) (_keys self).
Definition set_mean (self : OnlineStatistics) (v : ndarray) :=
  mk_stats (n self) (image_dimensions self) v (_M2 self) (_q self)
           (_percentiles self) (_keys self).
Definition set_M2 (self : OnlineStatistics) (v : ndarray) :=
  mk_stats (n self) (image_dimensions self) (_mean self) v (_q self)
           (_percentiles self) (_keys self).
Definition set_percentiles (self : OnlineStatistics) (v : list float) :=
  mk_stats (n self) (image_dimensions self) (_mean self) (_M2 self) (_q self)
           v (_keys self).

(** Python's [round(x, decimals)] on a non-negative float (no point of the
    grid lies half-way between two keys, so the rule for ties is not
    needed). *)
Definition round_to (decimals : Z) (x : R) : R :=
  IZR (Zfloor (x * IZR (10 ^ decimals) + / 2)) / IZR (10 ^ decimals).

(** [OnlineStatistics.__init__].  [np.empty] hands back memory that is not
    initialised: [heap i] is what happens to be stored in its [i]-th cell. *)
Definition __init__ (heap : nat -> float) (image_dimensions : list nat)
    (decimals : Z) : result OnlineStatistics :=
  if negb ((0 <=? decimals)%Z && (decimals <=? 3)%Z) then Raise ValueError
  else
    let precision := Z.to_nat (10 ^ (decimals + 2)) in
    let q := linspace 0 100 precision in
    Ok (mk_stats 0 image_dimensions (zeros image_dimensions)
                 (zeros image_dimensions) q
                 (map heap (seq 0 precision))
                 (map (round_to decimals) q)).

(** A method body: it reads and writes the object and may raise, leaving
    the object as it is at that point. *)
Definition method (A : Type) : Type :=
  OnlineStatistics -> OnlineStatistics * result A.

Definition ret {A} (a : A) : method A := fun self => (self, Ok a).
Definition bind {A B} (m : method A) (k : A -> method B) : method B :=
  fun self =>
    match m self with
    | (self', Ok a) => k a self'
    | (self', Raise e) => (self', Raise e)
    end.
Definition get {A} (f : OnlineStatistics -> A) : method A :=
  fun self => (self, Ok (f self)).
Definition put (f : OnlineStatistics -> OnlineStatistics) : method unit :=
  fun self => (f self, Ok tt).
Definition lift {A} (r : result A) : method A := fun self => (self, r).

Notation "x <- m ;; k" := (bind m (fun x => k))
  (at level 100, m at next level, right associativity, only parsing).
Notation "m ;;; k" := (bind m (fun _ => k))
  (at level 100, right associativity, only parsing).

(** [OnlineStatistics.update]; [image] is the array [image.pixels], and
    [astype(float)] changes nothing in this model of numbers. *)
Definition update (image : ndarray) (log_transform : bool) : method unit :=
  q <- get _q ;;
  p <- lift (percentile image q) ;;
  put (fun self => set_percentiles self (map2 fadd (_percentiles self) p)) ;;;
  let array := if log_transform then map_array log10 image else image in
  put (fun self => set_n self (n self + 1)) ;;;
  mean0 <- get _mean ;;
  delta_mean <- lift (sub array mean0) ;;
  count <- get n ;;
  mean1 <- lift (add mean0 (scalar_op fdiv delta_mean (Fin (IZR count)))) ;;
  put (fun self => set_mean self mean1) ;;;
  M2 <- get _M2 ;;
  d <- lift (sub array mean1) ;;
  dd <- lift (mul delta_mean d) ;;
  M2' <- lift (add M2 dd) ;;
  put (fun self => set_M2 self M2').

(** The property [var]. *)
Definition var (self : OnlineStatistics) : ndarray :=
  if (n self <? 2)%Z then full (image_dimensions self) NaN
  else scalar_op fdiv (_M2 self) (Fin (IZR (n self - 1))).

(** The property [mean] (the [IllumstatsImage] wrapper holds the array). *)
Definition mean (self : OnlineStatistics) : ndarray := _mean self.

(** [int(x)] on a float. *)
Definition int (x : float) : result Z :=
  match x with
  | Fin r => Ok (Rtrunc r)
  | Inf _ => Raise OverflowError
  | NaN => Raise ValueError
  end.

Fixpoint percentile_items (keys : list R) (ps : list float) (count : Z)
  : result (list (R * Z)) :=
  match keys, ps with
  | k :: keys', x :: ps' =>
      match int (fdiv x (Fin (IZR count))) with
      | Raise e => Raise e
      | Ok v =>
          match percentile_items keys' ps' count with
          | Raise e => Raise e
          | Ok items => Ok ((k, v) :: items)
          end
      end
  | _, _ => Ok []
  end.

(** The property [percentiles]: the items of the dictionary in the order
    the comprehension produces them; a later item with the same key
    replaces an earlier one ([lookup]). *)
Definition percentiles (self : OnlineStatistics) : result (list (R * Z)) :=
  percentile_items (_keys self) (_percentiles self) (n self).

Fixpoint lookup (k : R) (items : list (R * Z)) : option Z :=
  match items with
  | [] => None
  | (k', v) :: items' =>
      match lookup k items' with
      | Some v' => Some v'
      | None => if Req_dec_T k k' then Some v else None
      end
  end.

(** Feeding a series of images, as [IllumstatsCalculator.run_job] does. *)
Fixpoint update_all (images : list ndarray) (log_transform : bool)
  : method unit :=
  match images with
  | [] => ret tt
  | image :: rest =>
      update image log_transform ;;; update_all rest log_transform
  end.

(** *** Reference computations

    The two-pass statistics of a sample, and Welford's recurrence on a
    single pixel, to compare [update] with. *)

Definition Rsum (l : list R) : R := fold_right Rplus 0 l.

Definition Rsumsq (l : list R) : R := Rsum (map (fun x => x * x) l).

Definition arithmetic_mean (l : list R) : R := Rsum l / INR (length l).

(** The sum of the squared deviations from the mean, and the variance with
    Bessel's correction. *)
Definition squared_deviations (l : list R) : R :=
  Rsum (map (fun x => (x - arithmetic_mean l) * (x - arithmetic_mean l)) l).

Definition sample_variance (l : list R) : R :=
  squared_deviations l / (INR (length l) - 1).

(** One step on the state (mean, M2) of one pixel, for the new [count]. *)
Definition welford_step (count : Z) (st : R * R) (x : R) : R * R :=
  let delta := x - fst st in
  let mean' := fst st + delta / IZR count in
  (mean', snd st + delta * (x - mean')).

(** The recurrence along the values of one pixel, [count] values having
    been seen, and along a series of images. *)
Fixpoint welford_seq (count : Z) (st : R * R) (l : list R) : R * R :=
  match l with
  | [] => st
  | x :: l' => welford_seq (count + 1) (welford_step (count + 1) st x) l'
  end.

Fixpoint welford_all (count : Z) (st : list (R * R)) (images : list (list R))
  : list (R * R) :=
  match images with
  | [] => st
  | x :: rest =>
      welford_all (count + 1) (map2 (welford_step (count + 1)) st x) rest
  end.

(** The logarithm to base 10 of a positive real. *)
Definition Rlog10 (x : R) : R := ln x / ln 10.

(** [xs] holds the numbers that [update] feeds to the recurrence for
    [image], all of them finite. *)
Definition feeds (dims : list nat) (log_transform : bool) (image : ndarray)
    (xs : list R) : Prop :=
  data image <> [] /\
  (if log_transform then map_array log10 image else image)
  = mk_ndarray dims (map Fin xs) /\
  length xs = size_of dims.

(** An array of finite numbers, and the values of pixel [i] in a series. *)
Definition finite_array (dims : list nat) (l : list R) : ndarray :=
  mk_ndarray dims (map Fin l).

Definition column (i : nat) (images : list (list R)) : list R :=
  map (fun image => nth i image 0) images.

(** [round(x)] to the nearest integer, as the specification of
    [percentiles] has it. *)
Definition round_nearest (x : R) : Z := Zfloor (x + / 2).

(** *** Test data *)

(** Memory that happens to hold zeros, and memory that holds sevens. *)
Definition heap_zero : nat -> float := fun _ => Fin 0.
Definition heap_seven : nat -> float := fun _ => Fin 7.

(** The accumulator that [__init__] builds with [decimals = 0] in zeroed
    memory. *)
Definition fresh_stats (dims : list nat) : OnlineStatistics :=
  mk_stats 0 dims (zeros dims) (zeros dims) (linspace 0 100 100)
           (map heap_zero (seq 0 100))
           (map (round_to 0) (linspace 0 100 100)).

(** A row of two pixels, and a vector of three. *)
Definition row_image : ndarray := mk_ndarray [1; 2]%nat [Fin 1; Fin 2].
Definition vector_image : ndarray := mk_ndarray [3]%nat [Fin 1; Fin 2; Fin 3].

(** An image of the given shape with the value [v] in every pixel. *)
Definition constant_image (dims : list nat) (v : R) : ndarray :=
  full dims (Fin v).

End Stats.

(** ** [tmlib.models.mapobject] *)

Module Mapobject.

Local Open Scope Q_scope.

(** *** Geometry

    The tiles are written in well-known text; PostGIS reads a geometry as
    a set of points, and [ST_Intersects] holds of two geometries that share
    a point. *)
Definition point : Type := (Q * Q)%type.

Inductive geometry : Type :=
| POLYGON (ring : list point)
| LINESTRING (points : list point).

(** Consecutive vertices. *)
Definition edges (l : list point) : list (point * point) :=
  combine l (tl l).

Definition on_segment (a b p : point) : Prop :=
  exists t : Q, 0 <= t /\ t <= 1 /\
    fst p == fst a + t * (fst b - fst a) /\
    snd p == snd a + t * (snd b - snd a).

(** Which side of the line from [a] to [b] the point [p] lies on. *)
Definition side (a b p : point) : Q :=
  (fst b - fst a) * (snd p - snd a) - (snd b - snd a) * (fst p - fst a).

(** The points of a geometry.  A polygon is read as its convex ring with
    the interior (every tile is one): the points that lie on the same side
    of all edges. *)
Definition covers (g : geometry) (p : point) : Prop :=
  match g with
  | LINESTRING pts => exists e, In e (edges pts) /\ on_segment (fst e) (snd e) p
  | POLYGON ring =>
      (forall e, In e (edges ring) -> 0 <= side (fst e) (snd e) p) \/
      (forall e, In e (edges ring) -> side (fst e) (snd e) p <= 0)
  end.

(** The geometry stored in a column, as a set of points. *)
Definition region : Type := point -> Prop.

Definition intersects (r : region) (g : geometry) : Prop :=
  exists p, r p /\ covers g p.

(** A filter on [MapobjectOutline.geom_poly]. *)
Inductive spatial_filter : Type :=
| ST_Intersects (g : geometry)
| And (f1 f2 : spatial_filter)
| Not (f : spatial_filter).

Fixpoint holds (f : spatial_filter) (geom_poly : region) : Prop :=
  match f with
  | ST_Intersects g => intersects geom_poly g
  | And f1 f2 => holds f1 geom_poly /\ holds f2 geom_poly
  | Not f' => ~ holds f' geom_poly
  end.

(** [2 ** e] on Python integers: a float when the exponent is negative. *)
Definition pow2 (e : Z) : Q := Qpower 2 e.

Definition of_int (z : Z) : Q := inject_Z z.

(** *** [MapobjectOutline.intersection_filter] *)
Definition intersection_filter (x y z : Z) : spatial_filter :=
  let max_zoom := 6%Z in
  let size := 256 * pow2 (max_zoom - z) in
  let x0 := of_int x * size in
  let y0 := of_int y * size in
  let minx := x0 in
  let maxx := x0 + size in
  let miny := - y0 - size in
  let maxy := - y0 in
  let tile :=
    POLYGON [(maxx, maxy); (minx, maxy); (minx, miny); (maxx, miny);
             (maxx, maxy)] in
  let top_border := LINESTRING [(minx, miny); (maxx, miny)] in
  let left_border := LINESTRING [(minx, maxy); (minx, miny)] in
  let spatial_filter := ST_Intersects tile in
  let spatial_filter :=
    if negb (x =? 0)%Z
    then And spatial_filter (Not (ST_Intersects left_border))
    else spatial_filter in
  let spatial_filter :=
    if negb (y =? 0)%Z
    then And spatial_filter (Not (ST_Intersects top_border))
    else spatial_filter in
  spatial_filter.

(** *** The tables *)
Record MapobjectType : Type := mk_type {
  type_id : Z;
  is_static : bool;
  min_poly_zoom : Z
}.

(** A row of [mapobject_outlines] joined with its map object. *)
Record MapobjectOutline : Type := mk_outline {
  id : Z;
  mapobject_id : Z;
  mapobject_type_id : Z;
  tpoint : Z;
  zplane : Z;
  geom_poly : region;
  geom_centroid : point;
  n_points : Z
}.

Inductive geojson : Type :=
| centroid_json (p : point)
| poly_json (r : region).

(** [MapobjectType.get_mapobject_outlines_within_tile]: the condition the
    query puts on a row, and the pair it selects from it. *)
Definition within_tile (self : MapobjectType) (x y z tp zp : Z)
    (o : MapobjectOutline) : Prop :=
  mapobject_type_id o = type_id self /\
  (is_static self = true \/ (tpoint o = tp /\ zplane o = zp)) /\
  holds (intersection_filter x y z) (geom_poly o).

Definition selected (self : MapobjectType) (z : Z) (o : MapobjectOutline)
  : Z * geojson :=
  let do_simplify := (z <? min_poly_zoom self)%Z in
  if do_simplify then (mapobject_id o, centroid_json (geom_centroid o))
  else (mapobject_id o, poly_json (geom_poly o)).

(** *** [MapobjectType.calculate_min_poly_zoom] *)

(** The random module: the [k]-th call [randrange(0, m)] returns
    [rng k m]. *)
Definition random : Type := nat -> Z -> Z.

(** The database, for the estimator: the sum of [ST_NPoints] over the
    outlines with an id in the list that the filter
    [geom_poly.intersects(tile)] selects for the geometry; [None] when no
    row matches. *)
Definition database : Type := list Z -> geometry -> option Z.

(** The boundary of a sampled tile. *)
Definition sample_tile (z x y : Z) : geometry :=
  let tilesize := 256 * pow2 (6 - z) in
  let x0 := of_int x * tilesize in
  let y0 := - of_int y * tilesize in
  let minx := x0 in
  let maxx := x0 + tilesize in
  let miny := y0 - tilesize in
  let maxy := y0 in
  LINESTRING [(maxx, maxy); (minx, maxy); (minx, miny); (maxx, miny);
              (maxx, maxy)].

Definition randrange_list (rng : random) (k : nat) (m : Z) (count : nat)
  : list Z :=
  map (fun i => rng (k + i)%nat m) (seq 0 count).

(** The inner loop: the sums of the sampled tiles that are not [None]. *)
Fixpoint n_points_in_tile_samples (db : database) (ids : list Z) (z : Z)
    (tiles : list (Z * Z)) : list Z :=
  match tiles with
  | [] => []
  | (x, y) :: rest =>
      match db ids (sample_tile z x y) with
      | Some n_points_in_tile =>
          n_points_in_tile :: n_points_in_tile_samples db ids z rest
      | None => n_points_in_tile_samples db ids z rest
      end
  end.

Definition sum (l : list Z) : Z := fold_right Z.add 0%Z l.

(** [int(float(s) / len)]. *)
Definition int_average (samples : list Z) : result Z :=
  match samples with
  | [] => Raise ZeroDivisionError
  | _ => Ok (Z.quot (sum samples) (Z.of_nat (length samples)))
  end.

(** One turn of the loop over the zoom levels, which draws [2 * n_sample]
    random numbers starting with the [k]-th. *)
Definition level_samples (rng : random) (db : database) (ids : list Z)
    (n_sample : nat) (k : nat) (z : Z) : list Z :=
  let rand_xs := randrange_list rng k (2 ^ z) n_sample in
  let rand_ys := randrange_list rng (k + n_sample) (2 ^ z) n_sample in
  n_points_in_tile_samples db ids z (combine rand_xs rand_ys).

(** The loop [for z in range(maxzoom_level, -1, -1)], with [levels] turns
    left and [z] the level of the next one; it fills the dictionary
    [n_points_in_tile_per_z]. *)
Fixpoint zoom_loop (rng : random) (db : database) (ids : list Z)
    (n_sample : nat) (levels : nat) (z : Z) (k : nat)
    (n_points_in_tile_per_z : list (Z * Z)) : result (list (Z * Z)) :=
  match levels with
  | O => Ok n_points_in_tile_per_z
  | S levels' =>
      match int_average (level_samples rng db ids n_sample k z) with
      | Raise e => Raise e
      | Ok avg =>
          zoom_loop rng db ids n_sample levels' (z - 1)
                    (k + 2 * n_sample)%nat
                    ((z, avg) :: n_points_in_tile_per_z)
      end
  end.

(** [min] of a list of integers. *)
Definition py_min (l : list Z) : result Z :=
  match l with
  | [] => Raise ValueError
  | z :: l' => Ok (fold_left Z.min l' z)
  end.

Definition calculate_min_poly_zoom (rng : random) (db : database)
    (maxzoom_level : Z) (mapobject_outline_ids : list Z)
    (n_sample : Z) (n_points_per_tile_limit : Z) : result Z :=
  match zoom_loop rng db mapobject_outline_ids (Z.to_nat n_sample)
                  (Z.to_nat (maxzoom_level + 1)) maxzoom_level 0 [] with
  | Raise e => Raise e
  | Ok n_points_in_tile_per_z =>
      py_min (map fst (filter (fun zn => (snd zn <=? n_points_per_tile_limit)%Z)
                              n_points_in_tile_per_z))
  end.

(** The turn of the loop for level [z] starts with the random draw of this
    number, and computes this average. *)
Definition level_offset (n_sample : nat) (maxzoom_level z : Z) : nat :=
  (Z.to_nat (maxzoom_level - z) * (2 * n_sample))%nat.

Definition level_average (rng : random) (db : database) (ids : list Z)
    (n_sample : Z) (maxzoom_level z : Z) : result Z :=
  int_average
    (level_samples rng db ids (Z.to_nat n_sample)
       (level_offset (Z.to_nat n_sample) maxzoom_level z) z).

(** *** Borders shared by adjacent tiles *)

(** The side of a tile of level [z]. *)
Definition tile_size (z : Z) : Q := 256 * pow2 (6 - z).

Definition vertical_edge (x ylo yhi : Q) : region :=
  fun p => fst p == x /\ ylo <= snd p <= yhi.

Definition horizontal_edge (y xlo xhi : Q) : region :=
  fun p => snd p == y /\ xlo <= fst p <= xhi.

(** The border between the tiles [(c, r)] and [(c + 1, r)]. *)
Definition shared_vertical_edge (c r z : Z) : region :=
  let s := tile_size z in
  vertical_edge (of_int (c + 1) * s) (- (of_int r * s) - s) (- (of_int r * s)).

(** The border between the tiles [(c, r)] and [(c, r + 1)]. *)
Definition shared_horizontal_edge (c r z : Z) : region :=
  let s := tile_size z in
  horizontal_edge (- (of_int (r + 1) * s)) (of_int c * s) (of_int c * s + s).

(** The area of the tile [(x, y)], and two geometries sharing a point. *)
Definition tile_area (x y z : Z) : region :=
  let s := tile_size z in
  fun p => of_int x * s <= fst p <= of_int x * s + s /\
           - (of_int y * s) - s <= snd p <= - (of_int y * s).

Definition meets (g e : region) : Prop := exists p, g p /\ e p.

(** The two borders that [intersection_filter] excludes for the tile
    [(x, y)]: [left_border] from [(minx, maxy)] to [(minx, miny)] and
    [top_border] from [(minx, miny)] to [(maxx, miny)]. *)
Definition left_border (x y z : Z) : region :=
  let s := tile_size z in
  vertical_edge (of_int x * s) (- (of_int y * s) - s) (- (of_int y * s)).

Definition top_border (x y z : Z) : region :=
  let s := tile_size z in
  horizontal_edge (- (of_int y * s) - s) (of_int x * s) (of_int x * s + s).

(** The points of a polygon with four corners and sides along the axes:
    the ring with its interior. *)
Definition rectangle (xlo xhi ylo yhi : Q) : region :=
  fun p => xlo <= fst p <= xhi /\ ylo <= snd p <= yhi.

(** A type of static map objects, and two square outlines of level 6 that
    have their right side on the border between the tiles [(1, 1)] and
    [(2, 1)]: one half-way down the border, one in the lower right corner
    of the tile [(1, 1)]. *)
Definition cells : MapobjectType := mk_type 1 true 0.

Definition square_on_border : MapobjectOutline :=
  mk_outline 1 1 1 0 0 (rectangle 400 512 (- 400) (- 300)) (456, - 350) 5.

Definition square_in_corner : MapobjectOutline :=
  mk_outline 2 2 1 0 0 (rectangle 400 512 (- 512) (- 400)) (456, - 456) 5.

(** The geometry of a single point. *)
Definition single_point (x y : Q) : region :=
  fun p => fst p == x /\ snd p == y.

(** The average of the samples as a rational number, before [int]. *)
Definition exact_average (samples : list Z) : Q :=
  inject_Z (sum samples) / inject_Z (Z.of_nat (length samples)).

(** *** Test doubles: random draws and databases *)

(** Every draw is 0. *)
Definition rng_zero : random := fun _ _ => 0%Z.

(** The draws alternate between 0 and 1 (0 where only 0 is in range). *)
Definition rng_alternating : random :=
  fun k m => if (m =? 1)%Z then 0%Z else (Z.of_nat k mod 2)%Z.

(** A database that answers from a table keyed by the first vertex of the
    queried line string. *)
Fixpoint find_vertex (table : list (point * Z)) (p : point) : option Z :=
  match table with
  | [] => None
  | (v, n) :: rest =>
      if Qeq_bool (fst v) (fst p) && Qeq_bool (snd v) (snd p) then Some n
      else find_vertex rest p
  end.

Definition db_table (table : list (point * Z)) : database :=
  fun ids g =>
    match ids, g with
    | _ :: _, LINESTRING (p :: _) => find_vertex table p
    | _, _ => None
    end.

(** Outlines with 3000 and 3001 vertices on two tiles of level 1, and 5000
    on the tile of level 0. *)
Definition db_density : database :=
  db_table [((8192, 0), 3000%Z); ((16384, - 8192), 3001%Z);
            ((16384, 0), 5000%Z)].

(** Outlines that only the boundary of the tile of level 0 meets. *)
Definition db_sparse : database :=
  db_table [((16384, 0), 100%Z)].

(** A database in which every tile meets outlines whose vertex counts add
    up to the length of the tile's side. *)
Definition db_side : database :=
  fun ids g =>
    match g with
    | LINESTRING ((maxx, _) :: (minx, _) :: _) =>
        Some (Qfloor (maxx - minx))
    | _ => None
    end.

End Mapobject.

(** ** More of [tmlib.workflow.corilla.stats] *)

Module StatsMore.

Import NumPy Stats.
Local Open Scope R_scope.

(** [np.sqrt]: [nan] on negative input. *)
Definition fsqrt (x : float) : float :=
  match x with
  | NaN => NaN
  | Inf s => if s then NaN else Inf false
  | Fin a => if Rneg a then NaN else Fin (sqrt a)
  end.

(** The property [std] (the [IllumstatsImage] wrapper holds the array). *)
Definition std (self : OnlineStatistics) : ndarray :=
  map_array fsqrt (var self).

(** The three assignments at the end of [update] on one pixel, in floats,
    for the new [count]. *)
Definition float_step (count : Z) (st : float * float) (x : float)
  : float * float :=
  let delta_mean := fsub x (fst st) in
  let mean' := fadd (fst st) (fdiv delta_mean (Fin (IZR count))) in
  (mean', fadd (snd st) (fmul delta_mean (fsub x mean'))).

(** The smallest and the largest of a list of reals that starts with [x]. *)
Definition Rmin_list (x : R) (l : list R) : R := fold_right Rmin x l.
Definition Rmax_list (x : R) (l : list R) : R := fold_right Rmax x l.

End StatsMore.

(** ** [tmlib.workflow.corilla.api] *)

Module Corilla.

Import NumPy Stats StatsMore.
Import String.StringSyntax.
Local Open Scope Z_scope.
Local Open Scope string_scope.

(** What [IllumstatsContainer] is given. *)
Record IllumstatsContainer : Type := mk_container {
  container_mean : ndarray;
  container_std : ndarray;
  container_percentiles : list (R * Z)
}.

(** [IllumstatsCalculator.run_job] on the images that the files of the
    batch hold, in the order of [batch['channel_image_files_ids']];
    [img.dimensions] is the shape of the pixel array.  The result is the
    container that is put into the statistics file. *)
Definition run_job (heap : nat -> float) (images : list ndarray)
  : result IllumstatsContainer :=
  match images with
  | [] => Raise IndexError
  | img :: _ =>
      match __init__ heap (shape img) 3 with
      | Raise e => Raise e
      | Ok stats =>
          match update_all images true stats with
          | (_, Raise e) => Raise e
          | (stats', Ok _) =>
              match percentiles stats' with
              | Raise e => Raise e
              | Ok p => Ok (mk_container (mean stats') (std stats') p)
              end
          end
      end
  end.

(** The rows that [create_batches] reads. *)
Record ChannelImageFile : Type := mk_file {
  file_id : Z;
  location : String.string;
  file_channel_id : Z
}.

Record Cycle : Type := mk_cycle {
  cycle_id : Z;
  illumstats_location : String.string;
  channel_image_files : list ChannelImageFile
}.

(** A job description. *)
Record job : Type := mk_job {
  job_id : Z;
  inputs : list String.string;
  outputs : list String.string;
  channel_image_files_ids : list Z;
  job_channel_id : Z;
  job_cycle_id : Z
}.

(** The comprehension [[f for f in cycle.channel_image_files
    if f.channel_id == channel.id]]. *)
Definition files_of (cycle : Cycle) (channel : Z) : list ChannelImageFile :=
  filter (fun f => file_channel_id f =? channel) (channel_image_files cycle).

(** The test [not files] of a pair of a cycle and a channel, negated. *)
Definition has_files (p : Cycle * Z) : bool :=
  match files_of (fst p) (snd p) with
  | [] => false
  | _ => true
  end.

Section CreateBatches.

(** [os.path.join] and [IllumstatsFile.FILENAME_FORMAT.format]. *)
Variable path_join : String.string -> String.string -> String.string.
Variable filename_format : Z -> String.string.

(** The dictionary that is appended for [cycle] and [channel] under the
    number [count]. *)
Definition job_of (cycle : Cycle) (channel : Z) (count : Z) : job :=
  let files := files_of cycle channel in
  mk_job count (map location files)
         [path_join (illumstats_location cycle) (filename_format channel)]
         (map file_id files) channel (cycle_id cycle).

(** The loop over the channels for one cycle; [count] and the list of
    jobs are the state of [create_batches]. *)
Fixpoint channel_loop (cycle : Cycle) (channels : list Z) (count : Z)
    (run : list job) : Z * list job :=
  match channels with
  | [] => (count, run)
  | channel :: rest =>
      match files_of cycle channel with
      | [] => channel_loop cycle rest count run
      | _ =>
          let count := count + 1 in
          channel_loop cycle rest count (run ++ [job_of cycle channel count])
      end
  end.

Fixpoint cycle_loop (cycles : list Cycle) (channels : list Z) (count : Z)
    (run : list job) : Z * list job :=
  match cycles with
  | [] => (count, run)
  | cycle :: rest =>
      let '(count, run) := channel_loop cycle channels count run in
      cycle_loop rest channels count run
  end.

(** [IllumstatsCalculator.create_batches]: the list
    [job_descriptions['run']] for the channels and the cycles of the
    experiment. *)
Definition create_batches (channels : list Z) (cycles : list Cycle)
  : list job :=
  snd (cycle_loop cycles channels 0 []).

End CreateBatches.

(** *** Test data *)

(** Two cycles: the first has two files of channel 1 and one of channel 2,
    the second a single file of channel 2. *)
Definition cycle_one : Cycle :=
  mk_cycle 7 "plate/cycle_7"
    [mk_file 11 "a.tif" 1; mk_file 12 "b.tif" 2; mk_file 13 "c.tif" 1].
Definition cycle_two : Cycle :=
  mk_cycle 8 "plate/cycle_8" [mk_file 21 "d.tif" 2].

Definition join_names (a b : String.string) : String.string :=
  String.append a (String.append "/" b).
Definition channel_name (channel : Z) : String.string :=
  if channel =? 1 then "channel_1.stat.h5" else "channel_2.stat.h5".

(** The first job of the two cycles for the channels 1 and 2. *)
Definition first_job : job :=
  mk_job 1 ["a.tif"; "c.tif"] ["plate/cycle_7/channel_1.stat.h5"]
         [11; 13] 1 7.

(** Memory whose first cell holds nan. *)
Definition heap_nan : nat -> float :=
  fun i => match i with O => NaN | _ => Fin 0 end.

End Corilla.

(** ** More on tiles *)

Module MapobjectMore.

Import Mapobject.
Local Open Scope Q_scope.

(** A geometry that is not empty and lies in the tile away from its
    edges. *)
Definition strictly_inside (g : region) (x y z : Z) : Prop :=
  let s := tile_size z in
  (exists p, g p) /\
  forall p, g p ->
    of_int x * s < fst p /\ fst p < of_int x * s + s /\
    - (of_int y * s) - s < snd p /\ snd p < - (of_int y * s).

(** The four edges of the tile. *)
Definition tile_boundary (x y z : Z) : region :=
  let s := tile_size z in
  fun p =>
    tile_area x y z p /\
    (fst p == of_int x * s \/ fst p == of_int x * s + s \/
     snd p == - (of_int y * s) - s \/ snd p == - (of_int y * s)).

(** A geometry that holds the segment between any two of its points. *)
Definition convex (g : region) : Prop :=
  forall p q r (t : Q),
    g p -> g q -> 0 <= t -> t <= 1 ->
    fst r == fst p + t * (fst q - fst p) ->
    snd r == snd p + t * (snd q - snd p) ->
    g r.

(** A source of random numbers that keeps to the range of [randrange]. *)
Definition valid_random (rng : random) : Prop :=
  forall (k : nat) (m : Z), (0 < m)%Z -> (0 <= rng k m < m)%Z.

(** *** Bounding boxes

    The filter of [calculate_min_poly_zoom] is written
    [geom_poly.intersects(tile)], which is GeoAlchemy2's name for the
    operator [&&] of PostGIS and not [ST_Intersects]: it holds when the
    bounding boxes of the two geometries share a point. *)
Record box : Type := mk_box { xmin : Q; ymin : Q; xmax : Q; ymax : Q }.

Definition in_box (b : box) (p : point) : Prop :=
  xmin b <= fst p <= xmax b /\ ymin b <= snd p <= ymax b.

(** The operator [&&] on two boxes. *)
Definition box_overlaps (a b : box) : Prop :=
  xmin a <= xmax b /\ xmin b <= xmax a /\
  ymin a <= ymax b /\ ymin b <= ymax a.

(** The box of the vertices [p :: l]. *)
Fixpoint box_of (p : point) (l : list point) : box :=
  match l with
  | [] => mk_box (fst p) (snd p) (fst p) (snd p)
  | q :: l' =>
      let b := box_of q l' in
      mk_box (Qmin (fst p) (xmin b)) (Qmin (snd p) (ymin b))
             (Qmax (fst p) (xmax b)) (Qmax (snd p) (ymax b))
  end.

(** The bounding box of a geometry written in well-known text; an empty
    geometry has none. *)
Definition bounding_box (g : geometry) : option box :=
  match g with
  | POLYGON [] | LINESTRING [] => None
  | POLYGON (p :: l) | LINESTRING (p :: l) => Some (box_of p l)
  end.

(** A box that holds every point of the geometry stored in a column, as
    its bounding box does. *)
Definition encloses (b : box) (g : region) : Prop :=
  forall p, g p -> in_box b p.

End MapobjectMore.

(** * Properties *)

(** ** The zoom-threshold estimator *)

Module MapobjectFacts.

Import Mapobject.
Local Open Scope Z_scope.

Section Loop.

Variables (rng : random) (db : database) (ids : list Z) (n_sample : nat).

(** What the dictionary holds when the loop ends. *)
Lemma zoom_loop_items (levels : nat) :
  forall z k acc d,
    zoom_loop rng db ids n_sample levels z k acc = Ok d ->
    forall z' a,
      In (z', a) d <->
      In (z', a) acc \/
      exists i, (i < levels)%nat /\ z' = z - Z.of_nat i /\
                int_average
                  (level_samples rng db ids n_sample
                     (k + i * (2 * n_sample))%nat z') = Ok a.
Proof.
  induction levels as [|levels IH]; intros z k acc d H z' a;
    cbn [zoom_loop] in H.
  - inversion H; subst d. split; [auto|].
    intros [Hin|[i [Hi _]]]; [assumption|lia].
  - destruct (int_average (level_samples rng db ids n_sample k z))
      as [avg|e] eqn:Havg; [|discriminate].
    rewrite (IH _ _ _ _ H z' a). cbn [In]. split.
    + intros [[Heq|Hin]|[i [Hi [Hz Ha]]]].
      * inversion Heq; subst z' a. right. exists 0%nat.
        repeat split; [lia|lia|].
        now replace (k + 0 * (2 * n_sample))%nat with k by lia.
      * now left.
      * right. exists (S i). repeat split; [lia|lia|].
        now replace (k + S i * (2 * n_sample))%nat
          with (k + 2 * n_sample + i * (2 * n_sample))%nat by lia.
    + intros [Hin|[i [Hi [Hz Ha]]]].
      * left. now right.
      * destruct i as [|i].
        -- left. left.
           replace (k + 0 * (2 * n_sample))%nat with k in Ha by lia.
           replace z' with z in * by lia. congruence.
        -- right. exists i. repeat split; [lia|lia|].
           now replace (k + 2 * n_sample + i * (2 * n_sample))%nat
             with (k + S i * (2 * n_sample))%nat by lia.
Qed.

(** The loop ends normally exactly when every level has an average. *)
Lemma zoom_loop_ok (levels : nat) :
  forall z k acc,
    (forall i, (i < levels)%nat ->
       exists a,
         int_average
           (level_samples rng db ids n_sample (k + i * (2 * n_sample))%nat
              (z - Z.of_nat i)) = Ok a) ->
    exists d, zoom_loop rng db ids n_sample levels z k acc = Ok d.
Proof.
  induction levels as [|levels IH]; intros z k acc H; cbn [zoom_loop].
  - now exists acc.
  - destruct (H 0%nat ltac:(lia)) as [a Ha].
    replace (k + 0 * (2 * n_sample))%nat with k in Ha by lia.
    replace (z - Z.of_nat 0) with z in Ha by lia. rewrite Ha.
    apply IH. intros i Hi. destruct (H (S i) ltac:(lia)) as [b Hb].
    exists b.
    replace (k + 2 * n_sample + i * (2 * n_sample))%nat
      with (k + S i * (2 * n_sample))%nat by lia.
    now replace (z - 1 - Z.of_nat i) with (z - Z.of_nat (S i)) by lia.
Qed.

Lemma int_average_raise (samples : list Z) (e : exn) :
  int_average samples = Raise e -> e = ZeroDivisionError.
Proof. destruct samples; simpl; congruence. Qed.

(** A level without samples stops the loop, whatever the other levels. *)
Lemma zoom_loop_raise (levels : nat) :
  forall z k acc i,
    (i < levels)%nat ->
    level_samples rng db ids n_sample (k + i * (2 * n_sample))%nat
                  (z - Z.of_nat i) = [] ->
    zoom_loop rng db ids n_sample levels z k acc = Raise ZeroDivisionError.
Proof.
  induction levels as [|levels IH]; intros z k acc i Hi Hempty; [lia|].
  cbn [zoom_loop]. destruct i as [|i].
  - replace (k + 0 * (2 * n_sample))%nat with k in Hempty by lia.
    replace (z - Z.of_nat 0) with z in Hempty by lia.
    rewrite Hempty. reflexivity.
  - destruct (int_average (level_samples rng db ids n_sample k z)) eqn:Havg;
      [|now rewrite (int_average_raise _ _ Havg)].
    apply IH with (i := i); [lia|].
    replace (k + 2 * n_sample + i * (2 * n_sample))%nat
      with (k + S i * (2 * n_sample))%nat by lia.
    now replace (z - 1 - Z.of_nat i) with (z - Z.of_nat (S i)) by lia.
Qed.

End Loop.

Lemma fold_min_le (l : list Z) : forall z, fold_left Z.min l z <= z.
Proof.
  induction l as [|x l IH]; intros z; simpl; [lia|].
  specialize (IH (Z.min z x)). lia.
Qed.

Lemma fold_min_lower (l : list Z) :
  forall z x, In x l -> fold_left Z.min l z <= x.
Proof.
  induction l as [|y l IH]; intros z x Hin; simpl; [contradiction|].
  destruct Hin as [->|Hin]; [|now apply IH].
  pose proof (fold_min_le l (Z.min z x)). lia.
Qed.

Lemma fold_min_in (l : list Z) :
  forall z, fold_left Z.min l z = z \/ In (fold_left Z.min l z) l.
Proof.
  induction l as [|y l IH]; intros z; simpl; [now left|].
  destruct (IH (Z.min z y)) as [H|H]; [|now right; right].
  rewrite H. destruct (Z.min_spec z y) as [[_ ->]|[_ ->]]; [now left|].
  right. now left.
Qed.

Lemma py_min_spec (l : list Z) (m : Z) :
  py_min l = Ok m -> In m l /\ forall x, In x l -> m <= x.
Proof.
  destruct l as [|z l]; simpl; [discriminate|].
  intros H; inversion H; subst m; clear H. split.
  - destruct (fold_min_in l z) as [->|Hin]; [now left|now right].
  - intros x [<-|Hin]; [apply fold_min_le|now apply fold_min_lower].
Qed.

Lemma py_min_nonempty (l : list Z) :
  l <> [] -> exists m, py_min l = Ok m.
Proof. destruct l; [congruence|intros _; simpl; eauto]. Qed.

(** The dictionary of a whole run, in terms of the levels' averages. *)
Lemma calculate_items rng db ids (n_sample maxzoom_level : Z) d :
  zoom_loop rng db ids (Z.to_nat n_sample) (Z.to_nat (maxzoom_level + 1))
            maxzoom_level 0 [] = Ok d ->
  forall z a,
    In (z, a) d <->
    0 <= z <= maxzoom_level /\
    level_average rng db ids n_sample maxzoom_level z = Ok a.
Proof.
  intros H z a. rewrite (zoom_loop_items _ _ _ _ _ _ _ _ _ H z a).
  unfold level_average, level_offset. cbn [In]. split.
  - intros [[]|[i [Hi [Hz Ha]]]]. split; [lia|].
    now replace (Z.to_nat (maxzoom_level - z)) with i by lia.
  - intros [Hz Ha]. right. exists (Z.to_nat (maxzoom_level - z)).
    repeat split; [lia|lia|exact Ha].
Qed.

Lemma calculate_ok rng db ids (n_sample maxzoom_level : Z) :
  (forall z, 0 <= z <= maxzoom_level ->
     exists a, level_average rng db ids n_sample maxzoom_level z = Ok a) ->
  exists d,
    zoom_loop rng db ids (Z.to_nat n_sample) (Z.to_nat (maxzoom_level + 1))
              maxzoom_level 0 [] = Ok d.
Proof.
  intros H. apply zoom_loop_ok. intros i Hi.
  destruct (H (maxzoom_level - Z.of_nat i) ltac:(lia)) as [a Ha].
  exists a. unfold level_average, level_offset in Ha.
  now replace (Z.to_nat (maxzoom_level - (maxzoom_level - Z.of_nat i)))
    with i in Ha by lia.
Qed.

(** C5 (as amended): when every level has at least one sample that is not
    [None] and some level qualifies, [calculate_min_poly_zoom] returns the
    smallest level of [0 .. maxzoom_level] whose average, truncated to an
    integer, is at most the limit; the average is the one of the samples
    that are not [None]. *)
Theorem C5_min_zoom_truncated_average rng db ids n_sample maxzoom_level limit :
  (forall z, 0 <= z <= maxzoom_level ->
     exists a, level_average rng db ids n_sample maxzoom_level z = Ok a) ->
  (exists z a, 0 <= z <= maxzoom_level /\
    level_average rng db ids n_sample maxzoom_level z = Ok a /\ a <= limit) ->
  exists zmin a,
    calculate_min_poly_zoom rng db maxzoom_level ids n_sample limit = Ok zmin /\
    0 <= zmin <= maxzoom_level /\
    level_average rng db ids n_sample maxzoom_level zmin = Ok a /\
    a <= limit /\
    forall z a', 0 <= z <= maxzoom_level ->
      level_average rng db ids n_sample maxzoom_level z = Ok a' ->
      a' <= limit -> zmin <= z.
Proof.
  intros Hall [zq [aq [Hzq [Haq Hle]]]].
  destruct (calculate_ok _ _ _ _ _ Hall) as [d Hd].
  pose proof (calculate_items _ _ _ _ _ _ Hd) as Hitems.
  unfold calculate_min_poly_zoom. rewrite Hd.
  set (l := map fst (filter (fun zn => snd zn <=? limit) d)).
  assert (Hl : forall z, In z l <->
            exists a, In (z, a) d /\ a <= limit).
  { intros z. unfold l. rewrite in_map_iff. split.
    - intros [[z' a] [Hfst Hin]]. simpl in Hfst. subst z'.
      apply filter_In in Hin. destruct Hin as [Hin Hb]. simpl in Hb.
      exists a. split; [assumption|lia].
    - intros [a [Hin Ha]]. exists (z, a). split; [reflexivity|].
      apply filter_In. split; [assumption|simpl; lia]. }
  assert (Hne : l <> []).
  { assert (Hin : In zq l).
    { apply Hl. exists aq. split; [|assumption]. now apply Hitems. }
    intros E. rewrite E in Hin. contradiction. }
  destruct (py_min_nonempty l Hne) as [m Hm].
  destruct (py_min_spec l m Hm) as [Hin Hmin].
  apply Hl in Hin. destruct Hin as [a [Hin Ha]].
  apply Hitems in Hin. destruct Hin as [Hz Hav].
  exists m, a. repeat split; try assumption; try lia.
  intros z a' Hz' Hav' Ha'. apply Hmin. apply Hl. exists a'.
  split; [|assumption]. now apply Hitems.
Qed.

Lemma C5_min_zoom_truncated_average_witness :
  exists zmin a,
    calculate_min_poly_zoom rng_zero db_side 6 [1] 10 3000 = Ok zmin /\
    0 <= zmin <= 6 /\
    level_average rng_zero db_side [1] 10 6 zmin = Ok a /\
    a <= 3000 /\
    forall z a', 0 <= z <= 6 ->
      level_average rng_zero db_side [1] 10 6 z = Ok a' ->
      a' <= 3000 -> zmin <= z.
Proof.
  apply (C5_min_zoom_truncated_average rng_zero db_side [1] 10 6 3000).
  - intros z Hz.
    assert (Hc : z = 0 \/ z = 1 \/ z = 2 \/ z = 3 \/ z = 4 \/ z = 5 \/ z = 6)
      by lia.
    destruct Hc as [->|[->|[->|[->|[->|[->| ->]]]]]];
      eexists; vm_compute; reflexivity.
  - exists 6, 256. split; [lia|]. split; [vm_compute; reflexivity|lia].
Defined.

(** C5 (as stated) fails: with two samples of 3000 and 3001 vertices at
    level 1 and 5000 vertices at level 0, the limit 3000 selects level 1,
    whose average 3000.5 is above the limit. *)
Lemma C5_counterexample :
  calculate_min_poly_zoom rng_alternating db_density 1 [7] 2 3000 = Ok 1 /\
  level_samples rng_alternating db_density [7] 2 0 1 = [3000; 3001] /\
  ~ Qle (exact_average (level_samples rng_alternating db_density [7] 2 0 1))
        (inject_Z 3000).
Proof.
  split; [|split].
  - vm_compute. reflexivity.
  - vm_compute. reflexivity.
  - vm_compute. intros H. apply H. reflexivity.
Qed.

(** C9: a level at which no sampled tile meets an outline does not merely
    drop out of the averages: the division by the number of samples raises,
    whatever the other levels hold. *)
Theorem C9_level_without_samples_raises rng db ids n_sample maxzoom_level
    limit z :
  0 <= z <= maxzoom_level ->
  level_samples rng db ids (Z.to_nat n_sample)
    (level_offset (Z.to_nat n_sample) maxzoom_level z) z = [] ->
  calculate_min_poly_zoom rng db maxzoom_level ids n_sample limit
  = Raise ZeroDivisionError.
Proof.
  intros Hz Hempty. unfold calculate_min_poly_zoom.
  rewrite (zoom_loop_raise rng db ids (Z.to_nat n_sample)
             (Z.to_nat (maxzoom_level + 1)) maxzoom_level 0 []
             (Z.to_nat (maxzoom_level - z))); [reflexivity|lia|].
  replace (maxzoom_level - Z.of_nat (Z.to_nat (maxzoom_level - z)))
    with z by lia.
  exact Hempty.
Qed.

Lemma C9_level_without_samples_raises_witness :
  level_average rng_zero db_sparse [1] 10 1 0 = Ok 100 /\
  level_samples rng_zero db_sparse [1] 10 0 1 = [] /\
  calculate_min_poly_zoom rng_zero db_sparse 1 [1] 10 3000
  = Raise ZeroDivisionError.
Proof.
  split; [vm_compute; reflexivity|]. split; [vm_compute; reflexivity|].
  apply (C9_level_without_samples_raises rng_zero db_sparse [1] 10 1 3000 1).
  - lia.
  - vm_compute. reflexivity.
Defined.

(** C10 (as amended): when every level has an average and all of them,
    truncated to an integer as [int(float(sum) / len)] does, exceed the
    limit, [calculate_min_poly_zoom] raises the error of [min] on an empty
    list. *)
Theorem C10_no_level_qualifies_raises rng db ids n_sample maxzoom_level limit :
  (forall z, 0 <= z <= maxzoom_level ->
     exists a, level_average rng db ids n_sample maxzoom_level z = Ok a /\
               limit < a) ->
  calculate_min_poly_zoom rng db maxzoom_level ids n_sample limit
  = Raise ValueError.
Proof.
  intros Hall.
  destruct (calculate_ok rng db ids n_sample maxzoom_level) as [d Hd].
  { intros z Hz. destruct (Hall z Hz) as [a [Ha _]]. now exists a. }
  pose proof (calculate_items _ _ _ _ _ _ Hd) as Hitems.
  unfold calculate_min_poly_zoom. rewrite Hd.
  destruct (filter (fun zn => snd zn <=? limit) d) as [|[z a] l] eqn:Hf;
    [reflexivity|exfalso].
  assert (Hin : In (z, a) (filter (fun zn => snd zn <=? limit) d))
    by (rewrite Hf; now left).
  apply filter_In in Hin. destruct Hin as [Hin Hle]. simpl in Hle.
  apply Hitems in Hin. destruct Hin as [Hz Ha].
  destruct (Hall z Hz) as [a' [Ha' Hlt]]. rewrite Ha in Ha'.
  inversion Ha'. lia.
Qed.

Lemma C10_no_level_qualifies_raises_witness :
  calculate_min_poly_zoom rng_zero db_side 1 [1] 10 3000 = Raise ValueError.
Proof.
  apply (C10_no_level_qualifies_raises rng_zero db_side [1] 10 1 3000).
  intros z Hz. assert (Hc : z = 0 \/ z = 1) by lia.
  destruct Hc as [->| ->]; eexists; (split; [vm_compute; reflexivity|lia]).
Defined.

(** C10 (as stated) fails: with the samples 3000 and 3001 at level 1 and
    5000 and 5000 at level 0, the averages 3000.5 and 5000 of the two
    levels both exceed the limit 3000, and the function returns level 1
    instead of raising. *)
Lemma C10_counterexample :
  level_samples rng_alternating db_density [7] 2 (level_offset 2 1 1) 1
  = [3000; 3001] /\
  level_samples rng_alternating db_density [7] 2 (level_offset 2 1 0) 0
  = [5000; 5000] /\
  (forall z, 0 <= z <= 1 ->
     Qlt (inject_Z 3000)
         (exact_average
            (level_samples rng_alternating db_density [7] 2
               (level_offset 2 1 z) z))) /\
  calculate_min_poly_zoom rng_alternating db_density 1 [7] 2 3000 = Ok 1 /\
  calculate_min_poly_zoom rng_alternating db_density 1 [7] 2 3000
  <> Raise ValueError.
Proof.
  split; [vm_compute; reflexivity|]. split; [vm_compute; reflexivity|].
  split; [|split; [vm_compute; reflexivity|vm_compute; discriminate]].
  intros z Hz. assert (Hc : z = 0 \/ z = 1) by lia.
  destruct Hc as [->| ->]; vm_compute; reflexivity.
Qed.

End MapobjectFacts.

(** ** Tiles and their borders *)

Module TileFacts.

Import Mapobject.
Local Open Scope Q_scope.

Lemma tile_size_pos (z : Z) : 0 < tile_size z.
Proof.
  unfold tile_size, pow2.
  assert (H : 0 < 2 ^ (6 - z)) by (apply Qpower_0_lt; reflexivity).
  nra.
Qed.

(** The points of the polygon of a tile. *)
Lemma rectangle_covers (minx maxx miny maxy : Q) (p : point) :
  minx < maxx -> miny < maxy ->
  covers (POLYGON [(maxx, maxy); (minx, maxy); (minx, miny); (maxx, miny);
                   (maxx, maxy)]) p <->
  minx <= fst p <= maxx /\ miny <= snd p <= maxy.
Proof.
  intros Hx Hy. destruct p as [px py]. unfold covers, edges. cbn [tl combine].
  split.
  - intros [H|H].
    + pose proof (H _ (or_introl eq_refl)) as H1.
      pose proof (H _ (or_intror (or_introl eq_refl))) as H2.
      pose proof (H _ (or_intror (or_intror (or_introl eq_refl)))) as H3.
      pose proof (H _ (or_intror (or_intror (or_intror (or_introl eq_refl)))))
        as H4.
      unfold side in *. cbn [fst snd] in *. repeat split; nra.
    + pose proof (H _ (or_introl eq_refl)) as H1.
      pose proof (H _ (or_intror (or_intror (or_introl eq_refl)))) as H3.
      unfold side in *. cbn [fst snd] in *. exfalso. nra.
  - intros [[Ha Hb] [Hc Hd]]. left. intros e He. cbn [fst snd] in *.
    cbn [In] in He.
    destruct He as [<-|[<-|[<-|[<-|[]]]]]; unfold side; cbn [fst snd]; nra.
Qed.

(** The points of a horizontal and of a vertical line string. *)
Lemma horizontal_covers (y x1 x2 : Q) (p : point) :
  x1 < x2 ->
  covers (LINESTRING [(x1, y); (x2, y)]) p <->
  snd p == y /\ x1 <= fst p <= x2.
Proof.
  intros Hx. destruct p as [px py]. unfold covers, edges. cbn [tl combine].
  split.
  - intros [e [[<-|[]] [t [H0 [H1 [Hpx Hpy]]]]]]. cbn [fst snd] in *.
    repeat split; nra.
  - intros [Hpy [Ha Hb]]. cbn [fst snd] in *.
    exists ((x1, y), (x2, y)). split; [now left|].
    exists ((px - x1) / (x2 - x1)). cbn [fst snd].
    assert (Hd : 0 < x2 - x1) by lra.
    assert (Hne : ~ x2 - x1 == 0) by lra.
    repeat split.
    + apply Qle_shift_div_l; [assumption|]. lra.
    + apply Qle_shift_div_r; [assumption|]. lra.
    + field. assumption.
    + rewrite Hpy. ring.
Qed.

Lemma vertical_covers (x y1 y2 : Q) (p : point) :
  y2 < y1 ->
  covers (LINESTRING [(x, y1); (x, y2)]) p <->
  fst p == x /\ y2 <= snd p <= y1.
Proof.
  intros Hy. destruct p as [px py]. unfold covers, edges. cbn [tl combine].
  split.
  - intros [e [[<-|[]] [t [H0 [H1 [Hpx Hpy]]]]]]. cbn [fst snd] in *.
    repeat split; nra.
  - intros [Hpx [Ha Hb]]. cbn [fst snd] in *.
    exists ((x, y1), (x, y2)). split; [now left|].
    exists ((y1 - py) / (y1 - y2)). cbn [fst snd].
    assert (Hd : 0 < y1 - y2) by lra.
    assert (Hne : ~ y1 - y2 == 0) by lra.
    repeat split.
    + apply Qle_shift_div_l; [assumption|]. lra.
    + apply Qle_shift_div_r; [assumption|]. lra.
    + rewrite Hpx. ring.
    + field. assumption.
Qed.

(** What [intersection_filter] asks of a geometry. *)
Lemma intersection_filter_holds (x y z : Z) (g : region) :
  holds (intersection_filter x y z) g <->
  meets g (tile_area x y z) /\
  (x <> 0%Z ->
   ~ meets g (vertical_edge (of_int x * tile_size z)
                (- (of_int y * tile_size z) - tile_size z)
                (- (of_int y * tile_size z)))) /\
  (y <> 0%Z ->
   ~ meets g (horizontal_edge (- (of_int y * tile_size z) - tile_size z)
                (of_int x * tile_size z)
                (of_int x * tile_size z + tile_size z))).
Proof.
  pose proof (tile_size_pos z) as Hs.
  set (s := tile_size z) in *.
  assert (Hrect : intersects g
            (POLYGON [(of_int x * s + s, - (of_int y * s));
                      (of_int x * s, - (of_int y * s));
                      (of_int x * s, - (of_int y * s) - s);
                      (of_int x * s + s, - (of_int y * s) - s);
                      (of_int x * s + s, - (of_int y * s))]) <->
          meets g (tile_area x y z)).
  { unfold intersects, meets, tile_area. fold s.
    split; intros [p [Hg Hp]]; exists p; (split; [assumption|]);
      apply rectangle_covers in Hp || apply rectangle_covers;
      try assumption; lra. }
  assert (Hleft : intersects g
            (LINESTRING [(of_int x * s, - (of_int y * s));
                         (of_int x * s, - (of_int y * s) - s)]) <->
          meets g (vertical_edge (of_int x * s) (- (of_int y * s) - s)
                     (- (of_int y * s)))).
  { unfold intersects, meets, vertical_edge.
    split; intros [p [Hg Hp]]; exists p; (split; [assumption|]);
      apply vertical_covers in Hp || apply vertical_covers;
      try assumption; lra. }
  assert (Htop : intersects g
            (LINESTRING [(of_int x * s, - (of_int y * s) - s);
                         (of_int x * s + s, - (of_int y * s) - s)]) <->
          meets g (horizontal_edge (- (of_int y * s) - s) (of_int x * s)
                     (of_int x * s + s))).
  { unfold intersects, meets, horizontal_edge.
    split; intros [p [Hg Hp]]; exists p; (split; [assumption|]);
      apply horizontal_covers in Hp || apply horizontal_covers;
      try assumption; lra. }
  unfold intersection_filter. fold (tile_size z). fold s.
  destruct (Z.eqb_spec x 0) as [Hx|Hx], (Z.eqb_spec y 0) as [Hy|Hy];
    cbn [negb holds]; rewrite ?Hrect, ?Hleft, ?Htop; tauto.
Qed.

Lemma of_int_succ (c : Z) (s : Q) : of_int (c + 1) * s == of_int c * s + s.
Proof. unfold of_int. rewrite inject_Z_plus. ring. Qed.

(** C2 (as amended): an outline with a point on the border between two
    horizontally adjacent tiles is never returned for the right tile, and
    is returned for the left tile exactly when it touches neither the left
    border of that tile (in a column other than 0) nor its border at
    [miny] (in a row other than 0); an outline with a point on the border
    between the tiles [(c, r)] and [(c, r + 1)], [r] not 0, is never
    returned for [(c, r)], whose excluded border at [miny] it is, and is
    returned for [(c, r + 1)] exactly when it touches neither the left
    border nor the border at [miny] of that tile.  So the outline is
    returned for at most one of the two tiles. *)
Theorem C2_shared_border_at_most_one (self : MapobjectType)
    (c r z tp zp : Z) (o : MapobjectOutline) :
  (0 <= c)%Z ->
  mapobject_type_id o = type_id self ->
  (is_static self = true \/ (tpoint o = tp /\ zplane o = zp)) ->
  (meets (geom_poly o) (shared_vertical_edge c r z) ->
   ~ within_tile self (c + 1) r z tp zp o /\
   (within_tile self c r z tp zp o <->
    (c <> 0%Z -> ~ meets (geom_poly o) (left_border c r z)) /\
    (r <> 0%Z -> ~ meets (geom_poly o) (top_border c r z)))) /\
  (r <> 0%Z ->
   meets (geom_poly o) (shared_horizontal_edge c r z) ->
   ~ within_tile self c r z tp zp o /\
   (within_tile self c (r + 1) z tp zp o <->
    (c <> 0%Z -> ~ meets (geom_poly o) (left_border c (r + 1) z)) /\
    ((r + 1)%Z <> 0%Z -> ~ meets (geom_poly o) (top_border c (r + 1) z)))).
Proof.
  intros Hc Htype Hstatic.
  pose proof (tile_size_pos z) as Hs.
  pose proof (of_int_succ c (tile_size z)) as HX.
  pose proof (of_int_succ r (tile_size z)) as HY.
  unfold within_tile, left_border, top_border. cbv zeta. split.
  - intros [p0 [Hp0 Hon]].
    unfold shared_vertical_edge, vertical_edge in Hon. cbv zeta in Hon.
    split.
    + intros [_ [_ Hf]]. apply intersection_filter_holds in Hf.
      destruct Hf as [_ [Hleft _]]. apply Hleft; [lia|].
      exists p0. split; assumption.
    + rewrite intersection_filter_holds. split.
      * intros [_ [_ [_ H]]]. exact H.
      * intros H. split; [assumption|]. split; [assumption|].
        split; [|exact H].
        exists p0. split; [assumption|]. unfold tile_area. cbv zeta. lra.
  - intros Hr [p0 [Hp0 Hon]].
    unfold shared_horizontal_edge, horizontal_edge in Hon. cbv zeta in Hon.
    split.
    + intros [_ [_ Hf]]. apply intersection_filter_holds in Hf.
      destruct Hf as [_ [_ Htop]]. apply (Htop Hr).
      exists p0. split; [assumption|]. unfold horizontal_edge. split; lra.
    + rewrite intersection_filter_holds. split.
      * intros [_ [_ [_ H]]]. exact H.
      * intros H. split; [assumption|]. split; [assumption|].
        split; [|exact H].
        exists p0. split; [assumption|]. unfold tile_area. cbv zeta. lra.
Qed.

Lemma tile_size_6 : tile_size 6 == 256.
Proof. vm_compute. reflexivity. Qed.

(** Both squares have the point (512, -400) of the border. *)
Lemma square_on_border_meets :
  meets (geom_poly square_on_border) (shared_vertical_edge 1 1 6).
Proof.
  pose proof tile_size_6 as Hs. exists (512, - 400).
  unfold shared_vertical_edge, square_on_border, vertical_edge, rectangle.
  cbn [geom_poly fst snd]. cbv zeta. unfold of_int. cbn [Z.add Pos.add].
  unfold inject_Z. rewrite Hs. repeat split; lra.
Qed.

Lemma square_in_corner_meets :
  meets (geom_poly square_in_corner) (shared_vertical_edge 1 1 6).
Proof.
  pose proof tile_size_6 as Hs. exists (512, - 400).
  unfold shared_vertical_edge, square_in_corner, vertical_edge, rectangle.
  cbn [geom_poly fst snd]. cbv zeta. unfold of_int. cbn [Z.add Pos.add].
  unfold inject_Z. rewrite Hs. repeat split; lra.
Qed.

Lemma C2_shared_border_at_most_one_witness :
  meets (geom_poly square_on_border) (shared_vertical_edge 1 1 6) /\
  ~ within_tile cells 2 1 6 0 0 square_on_border /\
  (within_tile cells 1 1 6 0 0 square_on_border <->
   (1%Z <> 0%Z ->
    ~ meets (geom_poly square_on_border) (left_border 1 1 6)) /\
   (1%Z <> 0%Z ->
    ~ meets (geom_poly square_on_border) (top_border 1 1 6))).
Proof.
  split; [exact square_on_border_meets|].
  apply (proj1 (C2_shared_border_at_most_one cells 1 1 6 0 0 square_on_border
                  ltac:(lia) eq_refl (or_introl eq_refl))).
  exact square_on_border_meets.
Defined.

(** C2 (as stated) fails: the square in the lower right corner of the tile
    [(1, 1)] of level 6, a polygon with the corners (400, -512) and
    (512, -400) that has its right side on the border between the tiles
    [(1, 1)] and [(2, 1)], is returned for neither of them; the square
    half-way down the border is returned for the left tile only. *)
Lemma C2_counterexample :
  meets (geom_poly square_in_corner) (shared_vertical_edge 1 1 6) /\
  geom_poly square_in_corner (450, - 450) /\
  ~ within_tile cells 1 1 6 0 0 square_in_corner /\
  ~ within_tile cells 2 1 6 0 0 square_in_corner /\
  within_tile cells 1 1 6 0 0 square_on_border /\
  ~ within_tile cells 2 1 6 0 0 square_on_border.
Proof.
  pose proof tile_size_6 as Hs.
  split; [exact square_in_corner_meets|]. split.
  { unfold square_in_corner, rectangle. cbn [geom_poly fst snd].
    repeat split; lra. }
  split; [|split; [|split]].
  - intros [_ [_ Hf]]. apply intersection_filter_holds in Hf.
    destruct Hf as [_ [_ Htop]]. apply Htop; [lia|].
    exists (512, - 512). unfold square_in_corner, rectangle,
      horizontal_edge, of_int, inject_Z. cbn [geom_poly fst snd].
    rewrite Hs. repeat split; lra.
  - intros [_ [_ Hf]]. apply intersection_filter_holds in Hf.
    destruct Hf as [_ [Hleft _]]. apply Hleft; [lia|].
    exists (512, - 400).
    unfold square_in_corner, rectangle, vertical_edge, of_int, inject_Z.
    cbn [geom_poly fst snd].
    rewrite Hs. repeat split; lra.
  - split; [reflexivity|]. split; [now left|].
    apply intersection_filter_holds. split; [|split].
    + exists (512, - 400).
      unfold square_on_border, rectangle, tile_area, of_int, inject_Z.
      cbn [geom_poly fst snd]. cbv zeta. rewrite Hs. repeat split; lra.
    + intros _ [p [[[Hx _] _] [Hpx _]]].
      unfold of_int, inject_Z in Hpx. rewrite Hs in Hpx. lra.
    + intros _ [p [[_ [Hy _]] [Hpy _]]].
      unfold of_int, inject_Z in Hpy. rewrite Hs in Hpy. lra.
  - intros [_ [_ Hf]]. apply intersection_filter_holds in Hf.
    destruct Hf as [_ [Hleft _]]. apply Hleft; [lia|].
    exists (512, - 400).
    unfold square_on_border, rectangle, vertical_edge, of_int, inject_Z.
    cbn [geom_poly fst snd].
    rewrite Hs. repeat split; lra.
Qed.

(** C6: the side of a sampled tile is [256 * 2 ** (6 - z)] whatever
    [maxzoom_level] is.  With [maxzoom_level = 0] the tile of level 0 has
    side 16384, not 256, so that a database in which the vertex count is
    the side of the tile passes the limit 16384 and not the limit 256; and
    [intersection_filter], which has no parameter for it either, gives the
    tile [(0, 0)] of level 7 the side 128, which leaves out the point
    (200, -200). *)
Theorem C6_tile_side_fixed_to_zoom_6 :
  sample_tile 0 0 0
  = LINESTRING [(16384, 0); (0, 0); (0, - 16384); (16384, - 16384);
                (16384, 0)]%Q /\
  (calculate_min_poly_zoom rng_zero db_side 0 [1] 10 256 = Raise ValueError /\
   calculate_min_poly_zoom rng_zero db_side 0 [1] 10 16384 = Ok 0)%Z /\
  ~ holds (intersection_filter 0 0 7) (single_point 200 (- 200)).
Proof.
  split; [vm_compute; reflexivity|].
  split; [split; vm_compute; reflexivity|].
  intros Hf. apply intersection_filter_holds in Hf.
  destruct Hf as [[p [[Hx Hy] [[_ Hmax] _]]] _].
  assert (Hs : tile_size 7 == 128) by (vm_compute; reflexivity).
  unfold of_int, inject_Z in Hmax. rewrite Hs in Hmax. lra.
Qed.

End TileFacts.

(** ** Arrays *)

Module NumPyFacts.

Import NumPy.
Local Open Scope nat_scope.

Lemma size_of_cons (n : nat) (s : list nat) :
  size_of (n :: s) = n * size_of s.
Proof. reflexivity. Qed.

Lemma map2_length {A B C} (f : A -> B -> C) (l1 : list A) :
  forall l2, length l1 = length l2 -> length (map2 f l1 l2) = length l1.
Proof.
  induction l1 as [|a l1 IH]; intros [|b l2] H; simpl in *; try congruence.
  f_equal. apply IH. congruence.
Qed.

Lemma map2_map {A B C A' B'} (f : A -> B -> C) (g : A' -> A) (h : B' -> B)
    (l1 : list A') :
  forall l2, map2 f (map g l1) (map h l2)
             = map2 (fun a b => f (g a) (h b)) l1 l2.
Proof.
  induction l1 as [|a l1 IH]; intros [|b l2]; simpl; try reflexivity.
  now rewrite IH.
Qed.

Lemma map_map2 {A B C D} (g : C -> D) (f : A -> B -> C) (l1 : list A) :
  forall l2, map g (map2 f l1 l2) = map2 (fun a b => g (f a b)) l1 l2.
Proof.
  induction l1 as [|a l1 IH]; intros [|b l2]; simpl; try reflexivity.
  now rewrite IH.
Qed.

Lemma map2_ext {A B C} (f g : A -> B -> C) (l1 : list A) :
  forall l2, (forall a b, f a b = g a b) -> map2 f l1 l2 = map2 g l1 l2.
Proof.
  induction l1 as [|a l1 IH]; intros [|b l2] H; simpl; try reflexivity.
  now rewrite H, IH.
Qed.

(** Two lists of the length [n], combined index by index. *)
Lemma map2_nth {A B C} (f : A -> B -> C) (da : A) (db : B) (l1 : list A) :
  forall l2, length l1 = length l2 ->
    map2 f l1 l2
    = map (fun i => f (nth i l1 da) (nth i l2 db)) (seq 0 (length l1)).
Proof.
  induction l1 as [|a l1 IH]; intros [|b l2] H; simpl in *; try congruence.
  f_equal. rewrite <- seq_shift, map_map. apply IH. congruence.
Qed.

Lemma map_nth_seq {A} (d : A) (l : list A) :
  l = map (fun i => nth i l d) (seq 0 (length l)).
Proof.
  induction l as [|a l IH]; simpl; [reflexivity|].
  f_equal. rewrite <- seq_shift, map_map. exact IH.
Qed.

(** *** Equal shapes need no broadcasting *)

Lemma broadcast_dims_same (r : list nat) : broadcast_dims r r = Some r.
Proof.
  induction r as [|a r IH]; simpl; [reflexivity|].
  now rewrite IH, Nat.eqb_refl.
Qed.

Lemma broadcast_shapes_same (s : list nat) : broadcast_shapes s s = Some s.
Proof.
  unfold broadcast_shapes. rewrite broadcast_dims_same. simpl.
  now rewrite rev_involutive.
Qed.

Lemma concat_chunks (k n : nat) :
  forall d, length d = n * k -> concat (chunks k n d) = d.
Proof.
  induction n as [|n IH]; intros d H; simpl in *.
  - now destruct d.
  - rewrite IH; [apply firstn_skipn|]. rewrite length_skipn. lia.
Qed.

Lemma chunks_lengths (k n : nat) :
  forall d c, length d = n * k -> In c (chunks k n d) -> length c = k.
Proof.
  induction n as [|n IH]; intros d c H Hin; simpl in *; [contradiction|].
  destruct Hin as [<-|Hin].
  - rewrite length_firstn. lia.
  - apply (IH (skipn k d)); [|assumption]. rewrite length_skipn. lia.
Qed.

Lemma expand_same (s : list nat) :
  forall d, length d = size_of s -> expand s s d = d.
Proof.
  induction s as [|n s IH]; intros d H; simpl; [reflexivity|].
  rewrite Nat.eqb_refl. rewrite size_of_cons in H.
  rewrite (map_ext_in _ (fun c => c)).
  - rewrite map_id. now apply concat_chunks.
  - intros c Hc. apply IH. now apply (chunks_lengths _ _ _ _ H).
Qed.

Lemma broadcast_to_same (a : ndarray) :
  well_formed a -> broadcast_to (shape a) a = data a.
Proof.
  intros H. unfold broadcast_to. rewrite Nat.sub_diag. simpl.
  now apply expand_same.
Qed.

Lemma binop_same_shape (f : float -> float -> float) (s : list nat)
    (d1 d2 : list float) :
  length d1 = size_of s -> length d2 = size_of s ->
  binop f (mk_ndarray s d1) (mk_ndarray s d2)
  = Ok (mk_ndarray s (map2 f d1 d2)).
Proof.
  intros H1 H2. unfold binop. cbn [shape]. rewrite broadcast_shapes_same.
  pose proof (broadcast_to_same (mk_ndarray s d1) H1) as E1.
  pose proof (broadcast_to_same (mk_ndarray s d2) H2) as E2.
  cbn [shape data] in E1, E2. now rewrite E1, E2.
Qed.

(** *** Shapes that broadcast, once and again *)

Lemma broadcast_dims_idem (r1 : list nat) :
  forall r2 t, broadcast_dims r1 r2 = Some t ->
    broadcast_dims r1 t = Some t /\ broadcast_dims r2 t = Some t.
Proof.
  induction r1 as [|a r1 IH]; intros r2 t H.
  - simpl in H. inversion H; subst t. split; [now destruct r2|].
    apply broadcast_dims_same.
  - destruct r2 as [|b r2].
    + simpl in H. inversion H; subst t. split; [apply broadcast_dims_same|].
      reflexivity.
    + simpl in H. destruct (broadcast_dims r1 r2) as [r|] eqn:Hr;
        [|discriminate].
      destruct (IH _ _ Hr) as [H1 H2].
      destruct (Nat.eqb_spec a b) as [->|Hab].
      * inversion H; subst t. simpl. now rewrite H1, H2, Nat.eqb_refl.
      * destruct (Nat.eqb_spec a 1) as [->|Ha].
        -- inversion H; subst t. cbn [broadcast_dims].
           rewrite H1, H2, !Nat.eqb_refl.
           destruct (Nat.eqb_spec 1 b); [congruence|]. now split.
        -- destruct (Nat.eqb_spec b 1) as [->|Hb]; [|discriminate].
           inversion H; subst t. cbn [broadcast_dims].
           rewrite H1, H2, !Nat.eqb_refl.
           destruct (Nat.eqb_spec 1 a); [congruence|]. now split.
Qed.

Lemma broadcast_shapes_idem (s1 s2 t : list nat) :
  broadcast_shapes s1 s2 = Some t ->
  broadcast_shapes s1 t = Some t /\ broadcast_shapes s2 t = Some t /\
  broadcast_shapes t t = Some t.
Proof.
  unfold broadcast_shapes. intros H.
  destruct (broadcast_dims (rev s1) (rev s2)) as [r|] eqn:Hr; [|discriminate].
  simpl in H. inversion H; subst t.
  destruct (broadcast_dims_idem _ _ _ Hr) as [H1 H2].
  rewrite rev_involutive, H1, H2, broadcast_dims_same. simpl. auto.
Qed.

End NumPyFacts.

(** ** Percentiles *)

Module PercentileFacts.

Import NumPy.
Local Open Scope R_scope.

Lemma fle_refl (x : float) : fle x x.
Proof. destruct x as [a|[|]|]; simpl; auto. lra. Qed.

Lemma insert_repeat (x : float) (n : nat) :
  insert x (repeat x n) = x :: repeat x n.
Proof.
  destruct n as [|n]; simpl; [reflexivity|].
  destruct (fle_dec x x) as [_|H]; [reflexivity|].
  exfalso. apply H, fle_refl.
Qed.

Lemma sort_repeat (x : float) (n : nat) : sort (repeat x n) = repeat x n.
Proof.
  induction n as [|n IH]; simpl; [reflexivity|].
  rewrite IH. apply insert_repeat.
Qed.

Lemma nth_repeat_lt {A} (x d : A) (n i : nat) :
  (i < n)%nat -> nth i (repeat x n) d = x.
Proof.
  revert i. induction n as [|n IH]; intros i H; [lia|].
  destruct i as [|i]; simpl; [reflexivity|]. apply IH. lia.
Qed.

(** Every percentile of a constant sample is the constant. *)
Lemma percentile1_constant (v q : R) (n : nat) :
  (0 < n)%nat -> 0 <= q <= 100 ->
  percentile1 (repeat (Fin v) n) q = Fin v.
Proof.
  intros Hn Hq. unfold percentile1. rewrite repeat_length.
  set (index := q / 100 * (INR n - 1)).
  assert (Hn1 : 1 <= INR n) by (change 1 with (INR 1); apply le_INR; lia).
  assert (Hi : 0 <= index <= INR n - 1).
  { unfold index. split; [apply Rmult_le_pos; lra|].
    rewrite <- (Rmult_1_l (INR n - 1)) at 2.
    apply Rmult_le_compat_r; lra. }
  pose proof (Zfloor_bound index) as Hb.
  assert (H0 : (0 <= Zfloor index)%Z) by (apply Zfloor_lub; simpl; lra).
  assert (H1 : (Zfloor index <= Z.of_nat n - 1)%Z).
  { apply le_IZR. rewrite minus_IZR, <- INR_IZR_INZ. lra. }
  rewrite !nth_repeat_lt by lia.
  simpl. f_equal. ring.
Qed.

Lemma percentile_constant (s : list nat) (v : R) (n : nat) (q : list R) :
  (0 < n)%nat -> (forall x, In x q -> 0 <= x <= 100) ->
  percentile (mk_ndarray s (repeat (Fin v) n)) q
  = Ok (map (fun _ => Fin v) q).
Proof.
  intros Hn Hq. unfold percentile. cbn [data].
  destruct n as [|n]; [lia|]. cbn [repeat].
  change (Fin v :: repeat (Fin v) n) with (repeat (Fin v) (S n)).
  rewrite sort_repeat. f_equal. apply map_ext_in.
  intros x Hx. apply percentile1_constant; [lia|auto].
Qed.

Lemma linspace_range (num : nat) (x : R) :
  (2 <= num)%nat -> In x (linspace 0 100 num) -> 0 <= x <= 100.
Proof.
  intros Hn Hin. unfold linspace in Hin. apply in_map_iff in Hin.
  destruct Hin as [i [<- Hi]]. apply in_seq in Hi.
  assert (Hd : 0 < INR (num - 1)) by (apply lt_0_INR; lia).
  assert (Hle : INR i <= INR (num - 1)) by (apply le_INR; lia).
  assert (Hpos : 0 <= INR i) by apply pos_INR.
  replace (0 + INR i * ((100 - 0) / INR (num - 1)))
    with (100 * (INR i / INR (num - 1))) by (field; lra).
  assert (Hr : 0 <= INR i / INR (num - 1) <= 1).
  { split.
    - apply Rmult_le_pos; [assumption|].
      apply Rlt_le, Rinv_0_lt_compat. assumption.
    - apply (Rmult_le_reg_r (INR (num - 1))); [assumption|].
      unfold Rdiv. rewrite Rmult_assoc, Rinv_l by lra. lra. }
  lra.
Qed.

Lemma linspace_length (a b : R) (num : nat) : length (linspace a b num) = num.
Proof. unfold linspace. now rewrite length_map, length_seq. Qed.

Lemma precision_ge_2 (decimals : Z) :
  (0 <= decimals <= 3)%Z -> (2 <= Z.to_nat (10 ^ (decimals + 2)))%nat.
Proof.
  intros H.
  assert (H' : (10 ^ 2 <= 10 ^ (decimals + 2))%Z)
    by (apply Z.pow_le_mono_r; lia).
  change (10 ^ 2)%Z with 100%Z in H'. lia.
Qed.

End PercentileFacts.

(** ** The online statistics *)

Module StatsFacts.

Import NumPy Stats NumPyFacts PercentileFacts.
Local Open Scope R_scope.

(** [update], step by step. *)
Lemma update_eq (image : ndarray) (log_transform : bool)
    (self : OnlineStatistics) :
  update image log_transform self =
  match percentile image (_q self) with
  | Raise e => (self, Raise e)
  | Ok p =>
      let self1 :=
        mk_stats (n self + 1) (image_dimensions self) (_mean self) (_M2 self)
                 (_q self) (map2 fadd (_percentiles self) p) (_keys self) in
      let array :=
        if log_transform then map_array log10 image else image in
      match sub array (_mean self) with
      | Raise e => (self1, Raise e)
      | Ok delta_mean =>
          match add (_mean self)
                    (scalar_op fdiv delta_mean (Fin (IZR (n self + 1)))) with
          | Raise e => (self1, Raise e)
          | Ok mean1 =>
              match sub array mean1 with
              | Raise e => (set_mean self1 mean1, Raise e)
              | Ok d =>
                  match mul delta_mean d with
                  | Raise e => (set_mean self1 mean1, Raise e)
                  | Ok dd =>
                      match add (_M2 self) dd with
                      | Raise e => (set_mean self1 mean1, Raise e)
                      | Ok M2' =>
                          (mk_stats (n self + 1) (image_dimensions self)
                             mean1 M2' (_q self)
                             (map2 fadd (_percentiles self) p) (_keys self),
                           Ok tt)
                      end
                  end
              end
          end
      end
  end.
Proof.
  unfold update, bind, get, put, lift.
  destruct (percentile image (_q self)) as [p|e]; [|reflexivity].
  cbn [n _mean _M2 _q _percentiles _keys image_dimensions
       set_n set_mean set_M2 set_percentiles].
  destruct (sub _ (_mean self)) as [delta|e]; [|reflexivity].
  destruct (add (_mean self) _) as [mean1|e]; [|reflexivity].
  destruct (sub _ mean1) as [d|e]; [|reflexivity].
  destruct (mul delta d) as [dd|e]; [|reflexivity].
  destruct (add (_M2 self) dd) as [M2'|e]; reflexivity.
Qed.

Lemma percentile_nonempty (image : ndarray) (q : list R) :
  data image <> [] -> exists p, percentile image q = Ok p.
Proof.
  unfold percentile. destruct (data image); [congruence|]. eauto.
Qed.

Lemma array_shape (image : ndarray) (log_transform : bool) :
  shape (if log_transform then map_array log10 image else image)
  = shape image.
Proof. now destruct log_transform. Qed.

(** An image that cannot be broadcast: the subtraction raises when the
    percentile sums and the count are already updated. *)
Lemma update_incompatible (image : ndarray) (log_transform : bool)
    (self : OnlineStatistics) (p : list float) :
  percentile image (_q self) = Ok p ->
  broadcast_shapes (shape image) (shape (_mean self)) = None ->
  update image log_transform self
  = (mk_stats (n self + 1) (image_dimensions self) (_mean self) (_M2 self)
       (_q self) (map2 fadd (_percentiles self) p) (_keys self),
     Raise ValueError).
Proof.
  intros Hp Hb. rewrite update_eq, Hp. cbv zeta.
  unfold sub at 1, binop. now rewrite array_shape, Hb.
Qed.

(** An image that can be broadcast is accepted, whatever its shape. *)
Lemma update_compatible (image : ndarray) (log_transform : bool)
    (self : OnlineStatistics) (t : list nat) :
  data image <> [] ->
  shape (_M2 self) = shape (_mean self) ->
  broadcast_shapes (shape image) (shape (_mean self)) = Some t ->
  exists self',
    update image log_transform self = (self', Ok tt) /\
    n self' = (n self + 1)%Z /\
    shape (_mean self') = t /\ shape (_M2 self') = t.
Proof.
  intros Hd HM Hb. destruct (percentile_nonempty image (_q self) Hd) as [p Hp].
  destruct (broadcast_shapes_idem _ _ _ Hb) as [H1 [H2 H3]].
  rewrite update_eq, Hp. cbv zeta.
  unfold sub, add, mul, binop. rewrite array_shape.
  cbn [shape scalar_op]. rewrite Hb. cbn [shape]. rewrite H2.
  cbn [shape]. rewrite H1. cbn [shape]. rewrite H3. cbn [shape].
  rewrite HM, H2. eexists. split; [reflexivity|]. cbn. auto.
Qed.

Lemma fresh_stats_init (dims : list nat) :
  __init__ heap_zero dims 0 = Ok (fresh_stats dims).
Proof. reflexivity. Qed.

(** C3 (as amended): [update] does not compare the shape of the image with
    [image_dimensions].  An image whose shape cannot be broadcast against
    the mean makes the subtraction raise [ValueError], after the percentile
    sums and the count are updated, and with the mean and M2 as they were;
    an image whose shape can be broadcast is accepted, and the mean and M2
    take the broadcast shape. *)
Theorem C3_update_has_no_shape_check (image : ndarray) (log_transform : bool)
    (self : OnlineStatistics) :
  data image <> [] ->
  shape (_M2 self) = shape (_mean self) ->
  match broadcast_shapes (shape image) (shape (_mean self)) with
  | None =>
      exists p,
        percentile image (_q self) = Ok p /\
        update image log_transform self
        = (mk_stats (n self + 1) (image_dimensions self) (_mean self)
             (_M2 self) (_q self) (map2 fadd (_percentiles self) p)
             (_keys self),
           Raise ValueError)
  | Some t =>
      exists self',
        update image log_transform self = (self', Ok tt) /\
        n self' = (n self + 1)%Z /\
        shape (_mean self') = t /\ shape (_M2 self') = t
  end.
Proof.
  intros Hd HM.
  destruct (broadcast_shapes (shape image) (shape (_mean self))) as [t|] eqn:Hb.
  - now apply update_compatible.
  - destruct (percentile_nonempty image (_q self) Hd) as [p Hp].
    exists p. split; [assumption|]. now apply update_incompatible.
Qed.

Lemma C3_update_has_no_shape_check_witness :
  exists p,
    percentile vector_image (_q (fresh_stats [2; 2]%nat)) = Ok p /\
    update vector_image true (fresh_stats [2; 2]%nat)
    = (mk_stats 1 [2; 2]%nat (zeros [2; 2]%nat) (zeros [2; 2]%nat)
         (linspace 0 100 100) (map2 fadd (map heap_zero (seq 0 100)) p)
         (map (round_to 0) (linspace 0 100 100)),
       Raise ValueError).
Proof.
  apply (C3_update_has_no_shape_check vector_image true
           (fresh_stats [2; 2]%nat)).
  - discriminate.
  - reflexivity.
Defined.

(** C3 (as stated) fails: a row of two pixels is accepted by an accumulator
    for images of two rows, and a vector of three pixels is refused only
    after the count has gone from 0 to 1. *)
Lemma C3_counterexample :
  __init__ heap_zero [2; 2]%nat 0 = Ok (fresh_stats [2; 2]%nat) /\
  shape row_image <> [2; 2]%nat /\
  snd (update row_image true (fresh_stats [2; 2]%nat)) = Ok tt /\
  shape vector_image <> [2; 2]%nat /\
  snd (update vector_image true (fresh_stats [2; 2]%nat)) = Raise ValueError /\
  n (fresh_stats [2; 2]%nat) = 0%Z /\
  n (fst (update vector_image true (fresh_stats [2; 2]%nat))) = 1%Z.
Proof.
  split; [reflexivity|]. split; [discriminate|]. split.
  - destruct (update_compatible row_image true (fresh_stats [2; 2]%nat)
                [2; 2]%nat) as [self' [H _]];
      [discriminate|reflexivity|reflexivity|].
    now rewrite H.
  - split; [discriminate|].
    destruct (percentile_nonempty vector_image
                (_q (fresh_stats [2; 2]%nat))) as [p Hp]; [discriminate|].
    rewrite (update_incompatible vector_image true _ p Hp eq_refl).
    cbn [fst snd n]. auto.
Qed.

(** *** Welford's recurrence on one pixel *)

Lemma Rsum_app (l1 l2 : list R) : Rsum (l1 ++ l2) = Rsum l1 + Rsum l2.
Proof.
  induction l1 as [|x l1 IH]; simpl; [ring|]. rewrite IH. ring.
Qed.

Lemma Rsumsq_app (l1 l2 : list R) :
  Rsumsq (l1 ++ l2) = Rsumsq l1 + Rsumsq l2.
Proof. unfold Rsumsq. now rewrite map_app, Rsum_app. Qed.

(** The sum of the squared deviations from any centre [c]. *)
Lemma deviations_from (c : R) (l : list R) :
  Rsum (map (fun x => (x - c) * (x - c)) l)
  = Rsumsq l - 2 * c * Rsum l + INR (length l) * c * c.
Proof.
  induction l as [|x l IH].
  - simpl. unfold Rsumsq. simpl. ring.
  - change (Rsum (map (fun x => (x - c) * (x - c)) (x :: l)))
      with ((x - c) * (x - c) + Rsum (map (fun x => (x - c) * (x - c)) l)).
    change (Rsumsq (x :: l)) with (x * x + Rsumsq l).
    change (Rsum (x :: l)) with (x + Rsum l).
    change (length (x :: l)) with (S (length l)).
    rewrite IH, S_INR. ring.
Qed.

Lemma squared_deviations_eq (l : list R) :
  l <> [] ->
  squared_deviations l
  = Rsumsq l - INR (length l) * arithmetic_mean l * arithmetic_mean l.
Proof.
  intros Hl. unfold squared_deviations. rewrite deviations_from.
  assert (Hk : INR (length l) <> 0).
  { apply not_0_INR. destruct l; [congruence|simpl; lia]. }
  unfold arithmetic_mean. field. exact Hk.
Qed.

(** The recurrence keeps [count * mean] the sum and [M2 + count * mean^2]
    the sum of the squares of the values seen, so that it ends with the
    mean and the squared deviations of all of them. *)
Lemma welford_seq_correct (l : list R) :
  forall (seen : list R) (st : R * R),
    INR (length seen) * fst st = Rsum seen ->
    snd st = Rsumsq seen - INR (length seen) * fst st * fst st ->
    seen ++ l <> [] ->
    welford_seq (Z.of_nat (length seen)) st l
    = (arithmetic_mean (seen ++ l), squared_deviations (seen ++ l)).
Proof.
  induction l as [|x l IH]; intros seen [m M2] Hm HM Hne; cbn [fst snd] in *.
  - rewrite app_nil_r in *. cbn [welford_seq].
    assert (Hk : INR (length seen) <> 0).
    { apply not_0_INR. destruct seen; [congruence|simpl; lia]. }
    rewrite squared_deviations_eq by assumption.
    assert (Em : arithmetic_mean seen = m).
    { unfold arithmetic_mean. rewrite <- Hm. field. exact Hk. }
    rewrite Em. now rewrite HM.
  - cbn [welford_seq].
    replace (seen ++ x :: l) with ((seen ++ [x]) ++ l)
      by (now rewrite <- app_assoc).
    replace (Z.of_nat (length seen) + 1)%Z
      with (Z.of_nat (length (seen ++ [x])))
      by (rewrite length_app; simpl; lia).
    assert (Hk : INR (length (seen ++ [x])) <> 0).
    { apply not_0_INR. rewrite length_app. simpl. lia. }
    assert (Ek : INR (length (seen ++ [x])) = INR (length seen) + 1).
    { rewrite length_app. simpl. rewrite plus_INR. simpl. ring. }
    apply IH.
    + unfold welford_step. cbn [fst snd]. rewrite <- INR_IZR_INZ.
      rewrite Rsum_app. simpl. rewrite <- Hm. rewrite Ek in *. field.
      exact Hk.
    + unfold welford_step. cbn [fst snd]. rewrite <- INR_IZR_INZ.
      rewrite Rsumsq_app. unfold Rsumsq at 2. simpl. rewrite HM.
      rewrite Ek in *. field. exact Hk.
    + destruct seen; discriminate.
Qed.

Lemma welford_seq_from_zero (l : list R) :
  l <> [] ->
  welford_seq 0 (0, 0) l = (arithmetic_mean l, squared_deviations l).
Proof.
  intros Hl. apply (welford_seq_correct l [] (0, 0)); simpl.
  - ring.
  - unfold Rsumsq. simpl. ring.
  - exact Hl.
Qed.

(** *** From the arrays to the pixels *)

Lemma Rzero_false (c : R) : c <> 0 -> Rzero c = false.
Proof. intros H. unfold Rzero. now destruct (Req_dec_T c 0). Qed.

Lemma IZR_succ_neq_0 (k : Z) : (0 <= k)%Z -> IZR (k + 1) <> 0.
Proof. intros H. apply not_0_IZR. lia. Qed.

(** The array expressions of [update] on finite arrays of one length are
    Welford's step on every pixel. *)
Lemma welford_mean_list (c : R) (st : list (R * R)) :
  c <> 0 ->
  forall xs,
    map2 fadd (map Fin (map fst st))
      (map (fun x => fdiv x (Fin c))
           (map2 fsub (map Fin xs) (map Fin (map fst st))))
    = map2 (fun s x => Fin (fst s + (x - fst s) / c)) st xs.
Proof.
  intros Hc. induction st as [|[m M2] st IH]; intros [|x xs];
    try reflexivity.
  cbn [map map2 fst]. rewrite IH. f_equal.
  unfold fsub, fneg, fadd, fdiv. now rewrite (Rzero_false c Hc).
Qed.

Lemma welford_M2_list (c : R) (st : list (R * R)) :
  forall xs,
    map2 fadd (map Fin (map snd st))
      (map2 fmul (map2 fsub (map Fin xs) (map Fin (map fst st)))
         (map2 fsub (map Fin xs)
            (map2 (fun s x => Fin (fst s + (x - fst s) / c)) st xs)))
    = map2 (fun s x =>
              Fin (snd s + (x - fst s) * (x - (fst s + (x - fst s) / c))))
           st xs.
Proof.
  induction st as [|[m M2] st IH]; intros [|x xs]; try reflexivity.
  cbn [map map2 fst snd]. rewrite IH. reflexivity.
Qed.

Lemma welford_step_fst (c : Z) (st : list (R * R)) :
  forall xs,
    map Fin (map fst (map2 (welford_step c) st xs))
    = map2 (fun s x => Fin (fst s + (x - fst s) / IZR c)) st xs.
Proof.
  induction st as [|s st IH]; intros [|x xs]; try reflexivity.
  cbn [map map2]. now rewrite IH.
Qed.

Lemma welford_step_snd (c : Z) (st : list (R * R)) :
  forall xs,
    map Fin (map snd (map2 (welford_step c) st xs))
    = map2 (fun s x =>
              Fin (snd s
                   + (x - fst s) * (x - (fst s + (x - fst s) / IZR c))))
           st xs.
Proof.
  induction st as [|s st IH]; intros [|x xs]; try reflexivity.
  cbn [map map2]. now rewrite IH.
Qed.

(** One [update] of an accumulator that holds finite numbers with an array
    of finite numbers of the same shape. *)
Lemma update_finite (image : ndarray) (log_transform : bool)
    (self : OnlineStatistics) (p : list float) (dims : list nat)
    (xs : list R) (st : list (R * R)) :
  percentile image (_q self) = Ok p ->
  (if log_transform then map_array log10 image else image)
  = finite_array dims xs ->
  _mean self = finite_array dims (map fst st) ->
  _M2 self = finite_array dims (map snd st) ->
  length xs = size_of dims -> length st = size_of dims ->
  (0 <= n self)%Z ->
  update image log_transform self
  = (mk_stats (n self + 1) (image_dimensions self)
       (finite_array dims
          (map fst (map2 (welford_step (n self + 1)) st xs)))
       (finite_array dims
          (map snd (map2 (welford_step (n self + 1)) st xs)))
       (_q self) (map2 fadd (_percentiles self) p) (_keys self),
     Ok tt).
Proof.
  intros Hp Harr Hmean HM2 Hxs Hst Hn.
  pose proof (IZR_succ_neq_0 _ Hn) as Hc.
  rewrite update_eq, Hp. cbv zeta. rewrite Harr, Hmean, HM2.
  unfold finite_array, sub, add, mul.
  rewrite binop_same_shape by (now rewrite ?length_map).
  unfold scalar_op. cbn [shape data].
  rewrite binop_same_shape
    by (rewrite ?length_map, ?map2_length; rewrite ?length_map; congruence).
  rewrite (welford_mean_list _ st Hc).
  rewrite binop_same_shape
    by (rewrite ?length_map, ?map2_length; rewrite ?length_map; congruence).
  rewrite binop_same_shape
    by (rewrite ?map2_length; rewrite ?length_map, ?map2_length;
        rewrite ?length_map; congruence).
  rewrite binop_same_shape
    by (rewrite ?length_map, ?map2_length; rewrite ?map2_length;
        rewrite ?length_map, ?map2_length; rewrite ?length_map; congruence).
  rewrite welford_M2_list.
  now rewrite welford_step_fst, welford_step_snd.
Qed.

(** A series of updates with finite arrays of the shape of the
    accumulator. *)
Lemma update_all_finite (dims : list nat) (log_transform : bool)
    (images : list ndarray) (xss : list (list R)) :
  Forall2 (feeds dims log_transform) images xss ->
  forall (self : OnlineStatistics) (st : list (R * R)),
    _mean self = finite_array dims (map fst st) ->
    _M2 self = finite_array dims (map snd st) ->
    length st = size_of dims ->
    (0 <= n self)%Z ->
    exists ps,
      update_all images log_transform self
      = (mk_stats (n self + Z.of_nat (length xss)) (image_dimensions self)
           (finite_array dims (map fst (welford_all (n self) st xss)))
           (finite_array dims (map snd (welford_all (n self) st xss)))
           (_q self) ps (_keys self),
         Ok tt).
Proof.
  induction 1 as [|image xs images xss [Hd [Harr Hxs]] _ IH];
    intros self st Hmean HM2 Hst Hn.
  - exists (_percentiles self). cbn [update_all welford_all length].
    unfold ret. rewrite Z.add_0_r, <- Hmean, <- HM2. now destruct self.
  - destruct (percentile_nonempty image (_q self) Hd) as [p Hp].
    cbn [update_all]. unfold bind.
    rewrite (update_finite image log_transform self p dims xs st)
      by assumption.
    edestruct (IH (mk_stats (n self + 1) (image_dimensions self)
                     (finite_array dims
                        (map fst (map2 (welford_step (n self + 1)) st xs)))
                     (finite_array dims
                        (map snd (map2 (welford_step (n self + 1)) st xs)))
                     (_q self) (map2 fadd (_percentiles self) p) (_keys self))
                  (map2 (welford_step (n self + 1)) st xs))
      as [ps Hps]; try reflexivity.
    + rewrite map2_length; congruence.
    + cbn [n]. lia.
    + exists ps. rewrite Hps. cbn [n image_dimensions _q _keys welford_all length].
      now replace (n self + 1 + Z.of_nat (length xss))%Z
        with (n self + Z.of_nat (S (length xss)))%Z by lia.
Qed.

Lemma nth_map2 {A B C} (f : A -> B -> C) (da : A) (db : B) (dc : C)
    (l1 : list A) :
  forall l2 i, (i < length l1)%nat -> length l1 = length l2 ->
    nth i (map2 f l1 l2) dc = f (nth i l1 da) (nth i l2 db).
Proof.
  induction l1 as [|a l1 IH]; intros [|b l2] i Hi Hl; simpl in *;
    try lia.
  destruct i as [|i]; [reflexivity|]. apply IH; lia.
Qed.

(** The recurrence on a series of images is the recurrence on the series
    of values of every pixel. *)
Lemma welford_all_columns (N : nat) (xss : list (list R)) :
  Forall (fun xs => length xs = N) xss ->
  forall (c : Z) (st : list (R * R)),
    length st = N ->
    welford_all c st xss
    = map (fun i => welford_seq c (nth i st (0, 0)) (column i xss))
          (seq 0 N).
Proof.
  induction 1 as [|xs xss Hxs _ IH]; intros c st Hst.
  - cbn [welford_all column map welford_seq]. subst N.
    apply map_nth_seq.
  - cbn [welford_all]. rewrite IH by (rewrite map2_length; congruence).
    apply map_ext_in. intros i Hi. apply in_seq in Hi.
    cbn [column map welford_seq]. f_equal.
    apply nth_map2; lia.
Qed.

Lemma init_ok (heap : nat -> float) (dims : list nat) (decimals : Z) :
  (0 <= decimals <= 3)%Z ->
  __init__ heap dims decimals
  = Ok (mk_stats 0 dims (zeros dims) (zeros dims)
          (linspace 0 100 (Z.to_nat (10 ^ (decimals + 2))))
          (map heap (seq 0 (Z.to_nat (10 ^ (decimals + 2)))))
          (map (round_to decimals)
               (linspace 0 100 (Z.to_nat (10 ^ (decimals + 2)))))).
Proof.
  intros H. unfold __init__.
  destruct (Z.leb_spec 0 decimals); [|lia].
  destruct (Z.leb_spec decimals 3); [|lia]. reflexivity.
Qed.

Lemma zeros_finite (dims : list nat) :
  zeros dims
  = finite_array dims (map fst (repeat (0, 0) (size_of dims))).
Proof.
  unfold zeros, full, finite_array. now rewrite !map_repeat.
Qed.

Lemma zeros_finite_snd (dims : list nat) :
  zeros dims
  = finite_array dims (map snd (repeat (0, 0) (size_of dims))).
Proof.
  unfold zeros, full, finite_array. now rewrite !map_repeat.
Qed.

Lemma feeds_length (dims : list nat) (log_transform : bool)
    (images : list ndarray) (xss : list (list R)) :
  Forall2 (feeds dims log_transform) images xss ->
  Forall (fun xs => length xs = size_of dims) xss.
Proof.
  induction 1 as [|image xs images xss [_ [_ H]] _ IH]; constructor; auto.
Qed.

Lemma column_length (i : nat) (xss : list (list R)) :
  length (column i xss) = length xss.
Proof. unfold column. apply length_map. Qed.

(** A fresh accumulator fed a series of finite arrays of its shape ends
    with the count, the means and the squared deviations of the series. *)
Lemma fresh_run (heap : nat -> float) (dims : list nat) (decimals : Z)
    (log_transform : bool) (images : list ndarray) (xss : list (list R)) :
  (0 <= decimals <= 3)%Z ->
  xss <> [] ->
  Forall2 (feeds dims log_transform) images xss ->
  exists self0 ps,
    __init__ heap dims decimals = Ok self0 /\
    update_all images log_transform self0
    = (mk_stats (Z.of_nat (length xss)) dims
         (finite_array dims
            (map (fun i => arithmetic_mean (column i xss))
                 (seq 0 (size_of dims))))
         (finite_array dims
            (map (fun i => squared_deviations (column i xss))
                 (seq 0 (size_of dims))))
         (_q self0) ps (_keys self0),
       Ok tt).
Proof.
  intros Hdec Hne Hfeeds.
  eexists. rewrite (init_ok heap dims decimals Hdec).
  destruct (update_all_finite dims log_transform images xss Hfeeds
              (mk_stats 0 dims (zeros dims) (zeros dims)
                 (linspace 0 100 (Z.to_nat (10 ^ (decimals + 2))))
                 (map heap (seq 0 (Z.to_nat (10 ^ (decimals + 2)))))
                 (map (round_to decimals)
                      (linspace 0 100 (Z.to_nat (10 ^ (decimals + 2))))))
              (repeat (0, 0) (size_of dims)))
    as [ps Hps].
  - apply zeros_finite.
  - apply zeros_finite_snd.
  - apply repeat_length.
  - cbn [n]. lia.
  - exists ps. split; [reflexivity|]. rewrite Hps.
    cbn [n image_dimensions _q _keys]. rewrite Z.add_0_l.
    rewrite (welford_all_columns (size_of dims) xss
               (feeds_length _ _ _ _ Hfeeds))
      by apply repeat_length.
    rewrite !map_map.
    assert (E : forall i,
              welford_seq 0 (nth i (repeat (0, 0) (size_of dims)) (0, 0))
                          (column i xss)
              = (arithmetic_mean (column i xss),
                 squared_deviations (column i xss))).
    { intros i. rewrite nth_repeat. apply welford_seq_from_zero.
      intros E. apply (f_equal (@length R)) in E.
      rewrite column_length in E. destruct xss; [congruence|discriminate]. }
    rewrite (map_ext _ (fun i => arithmetic_mean (column i xss)))
      by (intros i; now rewrite E).
    rewrite (map_ext (fun i => snd _)
                     (fun i => squared_deviations (column i xss)))
      by (intros i; now rewrite E).
    reflexivity.
Qed.

Lemma var_finite (self : OnlineStatistics) (dims : list nat)
    (M2 : list R) :
  (2 <= n self)%Z ->
  _M2 self = finite_array dims M2 ->
  var self
  = finite_array dims (map (fun m => m / (IZR (n self) - 1)) M2).
Proof.
  intros Hn HM2. unfold var. destruct (Z.ltb_spec (n self) 2); [lia|].
  rewrite HM2. unfold scalar_op, finite_array. cbn [shape data].
  f_equal. rewrite !map_map. apply map_ext. intros m.
  unfold fdiv. rewrite Rzero_false by (apply not_0_IZR; lia).
  now rewrite minus_IZR.
Qed.

Lemma var_undefined (self : OnlineStatistics) :
  (n self < 2)%Z -> var self = full (image_dimensions self) NaN.
Proof.
  intros Hn. unfold var. now destruct (Z.ltb_spec (n self) 2); [|lia].
Qed.

Lemma feeds_raw (dims : list nat) (images : list (list R)) :
  size_of dims <> 0%nat ->
  Forall (fun image => length image = size_of dims) images ->
  Forall2 (feeds dims false) (map (finite_array dims) images) images.
Proof.
  intros HN. induction 1 as [|x images Hx _ IH]; constructor; auto.
  unfold feeds, finite_array. cbn [data]. repeat split; [|assumption].
  intros E. apply (f_equal (@length float)) in E.
  rewrite length_map in E. simpl in E. congruence.
Qed.

(** C1: a fresh accumulator fed a series of arrays of its shape, without
    the logarithm, ends with the arithmetic mean of every pixel and, from
    two arrays on, with its sample variance (the squared deviations from
    the mean divided by the count less one), as the two-pass computation
    gives them; and every [update] is Welford's step: with
    [delta = pixels - mean], the mean becomes [mean + delta / count] and M2
    becomes [M2 + delta * (pixels - mean)] for the new mean. *)
Theorem C1_welford_mean_and_variance (heap : nat -> float)
    (dims : list nat) (decimals : Z) (images : list (list R)) :
  (0 <= decimals <= 3)%Z ->
  size_of dims <> 0%nat ->
  images <> [] ->
  Forall (fun image => length image = size_of dims) images ->
  (forall (self : OnlineStatistics) (st : list (R * R)) (x : list R),
     _mean self = finite_array dims (map fst st) ->
     _M2 self = finite_array dims (map snd st) ->
     length st = size_of dims -> length x = size_of dims ->
     (0 <= n self)%Z ->
     exists self',
       update (finite_array dims x) false self = (self', Ok tt) /\
       n self' = (n self + 1)%Z /\
       _mean self'
       = finite_array dims
           (map fst (map2 (welford_step (n self + 1)) st x)) /\
       _M2 self'
       = finite_array dims
           (map snd (map2 (welford_step (n self + 1)) st x))) /\
  exists self0 self,
    __init__ heap dims decimals = Ok self0 /\
    update_all (map (finite_array dims) images) false self0 = (self, Ok tt) /\
    n self = Z.of_nat (length images) /\
    mean self
    = finite_array dims
        (map (fun i => arithmetic_mean (column i images))
             (seq 0 (size_of dims))) /\
    ((2 <= length images)%nat ->
     var self
     = finite_array dims
         (map (fun i => sample_variance (column i images))
              (seq 0 (size_of dims)))).
Proof.
  intros Hdec HN Hne Hlen. split.
  - intros self st x Hmean HM2 Hst Hx Hn.
    assert (Hd : data (finite_array dims x) <> []).
    { unfold finite_array. cbn [data]. intros E.
      apply (f_equal (@length float)) in E. rewrite length_map in E.
      simpl in E. congruence. }
    destruct (percentile_nonempty _ (_q self) Hd) as [p Hp].
    eexists. split.
    + apply (update_finite _ false self p dims x st); auto.
    + cbn [n _mean _M2]. auto.
  - destruct (fresh_run heap dims decimals false _ images Hdec Hne
                (feeds_raw dims images HN Hlen)) as [self0 [ps [H0 Hrun]]].
    eexists. eexists. split; [exact H0|]. split; [exact Hrun|].
    split; [reflexivity|]. split; [reflexivity|].
    intros H2. erewrite var_finite; [|cbn [n]; lia|reflexivity].
    cbn [n]. rewrite map_map. f_equal. apply map_ext. intros i.
    unfold sample_variance. now rewrite column_length, <- INR_IZR_INZ.
Qed.

Lemma C1_welford_mean_and_variance_witness :
  exists self0 self,
    __init__ heap_zero [1]%nat 0 = Ok self0 /\
    update_all (map (finite_array [1]%nat) [[1]; [3]]) false self0
    = (self, Ok tt) /\
    n self = 2%Z /\
    mean self = finite_array [1]%nat [2] /\
    var self = finite_array [1]%nat [2].
Proof.
  destruct (C1_welford_mean_and_variance heap_zero [1]%nat 0 [[1]; [3]])
    as [_ [self0 [self [H0 [Hrun [Hn [Hmean Hvar]]]]]]].
  - lia.
  - discriminate.
  - discriminate.
  - repeat constructor.
  - exists self0, self. split; [exact H0|]. split; [exact Hrun|].
    split; [exact Hn|]. split.
    + rewrite Hmean. unfold finite_array. do 2 f_equal.
      cbn [size_of fold_right Nat.mul seq map column nth].
      unfold arithmetic_mean, Rsum. simpl. f_equal. lra.
    + rewrite Hvar by (simpl; lia). unfold finite_array. do 2 f_equal.
      cbn [size_of fold_right Nat.mul seq map column nth].
      unfold sample_variance, squared_deviations, arithmetic_mean, Rsum.
      simpl. f_equal. lra.
Defined.

Lemma log10_positive (l : list R) :
  Forall (fun x => 0 < x) l ->
  map log10 (map Fin l) = map Fin (map Rlog10 l).
Proof.
  induction 1 as [|x l Hx _ IH]; [reflexivity|].
  cbn [map]. rewrite IH. f_equal. unfold log10, Rlog10.
  rewrite Rzero_false by lra. unfold Rneg.
  destruct (Rlt_dec x 0); [lra|reflexivity].
Qed.

Lemma feeds_log (dims : list nat) (images : list (list R)) :
  size_of dims <> 0%nat ->
  Forall (fun image => length image = size_of dims /\
                       Forall (fun x => 0 < x) image) images ->
  Forall2 (feeds dims true) (map (finite_array dims) images)
          (map (map Rlog10) images).
Proof.
  intros HN. induction 1 as [|x images [Hx Hpos] _ IH]; constructor; auto.
  unfold feeds, finite_array, map_array. cbn [data shape]. repeat split.
  - intros E. apply (f_equal (@length float)) in E.
    rewrite length_map in E. simpl in E. congruence.
  - now rewrite log10_positive.
  - now rewrite length_map.
Qed.

Lemma update_counts (image : ndarray) (log_transform : bool)
    (self self' : OnlineStatistics) :
  update image log_transform self = (self', Ok tt) ->
  n self' = (n self + 1)%Z /\ image_dimensions self' = image_dimensions self.
Proof.
  rewrite update_eq. cbv zeta.
  destruct (percentile image (_q self)); [|discriminate].
  destruct (sub _ (_mean self)); [|discriminate].
  destruct (add (_mean self) _); [|discriminate].
  destruct (sub _ _); [|discriminate].
  destruct (mul _ _); [|discriminate].
  destruct (add (_M2 self) _); [|discriminate].
  intros H. inversion H. cbn. auto.
Qed.

(** C8: [var] is a total function.  With a count below 2, in particular
    after exactly one update of a fresh accumulator, every element is nan;
    after two or more updates with the logarithm of positive pixels, every
    element is finite and is M2 divided by the count less one. *)
Theorem C8_variance_defined_from_two_samples :
  (forall self : OnlineStatistics,
     (n self < 2)%Z ->
     var self
     = mk_ndarray (image_dimensions self)
         (repeat NaN (size_of (image_dimensions self)))) /\
  (forall heap dims decimals image log_transform self0 self,
     __init__ heap dims decimals = Ok self0 ->
     update image log_transform self0 = (self, Ok tt) ->
     n self = 1%Z /\
     var self = mk_ndarray dims (repeat NaN (size_of dims))) /\
  (forall heap dims decimals (images : list (list R)),
     (0 <= decimals <= 3)%Z ->
     size_of dims <> 0%nat ->
     (2 <= length images)%nat ->
     Forall (fun image => length image = size_of dims /\
                          Forall (fun x => 0 < x) image) images ->
     exists self0 self M2,
       __init__ heap dims decimals = Ok self0 /\
       update_all (map (finite_array dims) images) true self0
       = (self, Ok tt) /\
       n self = Z.of_nat (length images) /\
       _M2 self = mk_ndarray dims (map Fin M2) /\
       var self
       = mk_ndarray dims (map Fin (map (fun m => m / (IZR (n self) - 1)) M2))).
Proof.
  split; [|split].
  - intros self Hn. now apply var_undefined.
  - intros heap dims decimals image log_transform self0 self Hinit Hup.
    destruct (update_counts _ _ _ _ Hup) as [Hn Hdims].
    unfold __init__ in Hinit.
    destruct (negb _); [discriminate|]. inversion Hinit; subst self0.
    cbn [n image_dimensions] in *. split; [lia|].
    rewrite var_undefined by lia. now rewrite Hdims.
  - intros heap dims decimals images Hdec HN H2 Himgs.
    destruct (fresh_run heap dims decimals true
                (map (finite_array dims) images) (map (map Rlog10) images)
                Hdec) as [self0 [ps [H0 Hrun]]].
    + destruct images; [simpl in H2; lia|discriminate].
    + now apply feeds_log.
    + rewrite length_map in Hrun.
      eexists. eexists. eexists. split; [exact H0|]. split; [exact Hrun|].
      split; [reflexivity|]. split; [reflexivity|].
      apply var_finite; [cbn [n]; lia|reflexivity].
Qed.

Lemma C8_variance_defined_from_two_samples_witness :
  exists self0 self M2,
    __init__ heap_zero [1]%nat 0 = Ok self0 /\
    update_all (map (finite_array [1]%nat) [[10]; [1000]]) true self0
    = (self, Ok tt) /\
    n self = 2%Z /\
    _M2 self = mk_ndarray [1]%nat (map Fin M2) /\
    var self
    = mk_ndarray [1]%nat (map Fin (map (fun m => m / (IZR (n self) - 1)) M2)).
Proof.
  apply (proj2 (proj2 C8_variance_defined_from_two_samples)
           heap_zero [1]%nat 0%Z [[10]; [1000]]).
  - lia.
  - discriminate.
  - simpl. lia.
  - repeat constructor; lra.
Defined.

(** *** The percentile sums *)

(** However [update] ends, once the percentiles of the image are there the
    sums hold them, and the grid and the keys are as before. *)
Lemma update_percentiles (image : ndarray) (log_transform : bool)
    (self : OnlineStatistics) (p : list float) :
  percentile image (_q self) = Ok p ->
  _percentiles (fst (update image log_transform self))
  = map2 fadd (_percentiles self) p /\
  _q (fst (update image log_transform self)) = _q self /\
  _keys (fst (update image log_transform self)) = _keys self.
Proof.
  intros Hp. rewrite update_eq, Hp. cbv zeta.
  destruct (sub _ (_mean self)); [|cbn; auto].
  destruct (add (_mean self) _); [|cbn; auto].
  destruct (sub _ _); [|cbn; auto].
  destruct (mul _ _); [|cbn; auto].
  destruct (add (_M2 self) _); cbn; auto.
Qed.

Lemma percentile_map_array (f : float -> float) (image : ndarray)
    (q : list R) :
  (percentile image q = Raise IndexError /\
   percentile (map_array f image) q = Raise IndexError) \/
  (exists p p', percentile image q = Ok p /\
                percentile (map_array f image) q = Ok p').
Proof.
  unfold percentile, map_array. cbn [data].
  destruct (data image); [now left|right]. cbn [map]. eauto.
Qed.

Ltac walk_percentiles := try congruence.

(** C7 (as amended): [update] with [log_transform = True] and [update]
    without it on the image transformed beforehand end in the same way
    with the same count, mean and M2 (and shape, grid and keys); the
    percentile sums are those of the raw pixels in the first and those of
    the logarithms in the second. *)
Theorem C7_log_transform_inside_or_before (image : ndarray)
    (self : OnlineStatistics) :
  let inside := update image true self in
  let before := update (map_array log10 image) false self in
  snd inside = snd before /\
  n (fst inside) = n (fst before) /\
  _mean (fst inside) = _mean (fst before) /\
  _M2 (fst inside) = _M2 (fst before) /\
  image_dimensions (fst inside) = image_dimensions (fst before) /\
  _q (fst inside) = _q (fst before) /\
  _keys (fst inside) = _keys (fst before) /\
  (forall p p',
     percentile image (_q self) = Ok p ->
     percentile (map_array log10 image) (_q self) = Ok p' ->
     _percentiles (fst inside) = map2 fadd (_percentiles self) p /\
     _percentiles (fst before) = map2 fadd (_percentiles self) p').
Proof.
  cbv zeta.
  destruct (percentile_map_array log10 image (_q self))
    as [[E1 E2]|[p [p' [E1 E2]]]].
  - rewrite !update_eq, E1, E2. cbn [fst snd]. repeat split; discriminate.
  - rewrite !update_eq, E1, E2. cbv zeta.
    destruct (sub _ (_mean self)); [|cbn; repeat split; walk_percentiles].
    destruct (add (_mean self) _); [|cbn; repeat split; walk_percentiles].
    destruct (sub _ _); [|cbn; repeat split; walk_percentiles].
    destruct (mul _ _); [|cbn; repeat split; walk_percentiles].
    destruct (add (_M2 self) _); cbn; repeat split; walk_percentiles.
Qed.

Lemma C7_log_transform_inside_or_before_witness :
  snd (update (constant_image [1]%nat 10) true (fresh_stats [1]%nat))
  = snd (update (map_array log10 (constant_image [1]%nat 10)) false
                (fresh_stats [1]%nat)) /\
  _mean (fst (update (constant_image [1]%nat 10) true (fresh_stats [1]%nat)))
  = _mean (fst (update (map_array log10 (constant_image [1]%nat 10)) false
                       (fresh_stats [1]%nat))).
Proof.
  pose proof (C7_log_transform_inside_or_before
                (constant_image [1]%nat 10) (fresh_stats [1]%nat)) as H.
  cbv zeta in H. split; [apply H|apply H].
Defined.

Lemma Rlog10_10 : Rlog10 10 = 1.
Proof.
  unfold Rlog10. assert (H : 0 < ln 10).
  { rewrite <- ln_1. apply ln_increasing; lra. }
  field. lra.
Qed.

Lemma log10_10 : log10 (Fin 10) = Fin 1.
Proof.
  change (log10 (Fin 10)) with (nth 0 (map log10 (map Fin [10])) NaN).
  rewrite log10_positive by (repeat constructor; lra).
  cbn [map nth]. now rewrite Rlog10_10.
Qed.

Lemma fresh_q_range (x : R) :
  In x (linspace 0 100 100) -> 0 <= x <= 100.
Proof. apply linspace_range. lia. Qed.

(** C7 (as stated) fails: on one pixel of value 10 the first percentile sum
    is 10 with [log_transform = True] and 1 when the image is transformed
    beforehand. *)
Lemma C7_counterexample :
  nth 0 (_percentiles
           (fst (update (constant_image [1]%nat 10) true
                        (fresh_stats [1]%nat)))) NaN = Fin (0 + 10) /\
  nth 0 (_percentiles
           (fst (update (map_array log10 (constant_image [1]%nat 10)) false
                        (fresh_stats [1]%nat)))) NaN = Fin (0 + 1) /\
  fst (update (constant_image [1]%nat 10) true (fresh_stats [1]%nat))
  <> fst (update (map_array log10 (constant_image [1]%nat 10)) false
                 (fresh_stats [1]%nat)).
Proof.
  assert (H1 : nth 0 (_percentiles
             (fst (update (constant_image [1]%nat 10) true
                          (fresh_stats [1]%nat)))) NaN = Fin (0 + 10)).
  { destruct (update_percentiles (constant_image [1]%nat 10) true
                (fresh_stats [1]%nat) (map (fun _ => Fin 10) (linspace 0 100 100)))
      as [E _].
    - apply (percentile_constant [1]%nat 10 1); [lia|apply fresh_q_range].
    - rewrite E. reflexivity. }
  assert (H2 : nth 0 (_percentiles
             (fst (update (map_array log10 (constant_image [1]%nat 10)) false
                          (fresh_stats [1]%nat)))) NaN = Fin (0 + 1)).
  { assert (Ei : map_array log10 (constant_image [1]%nat 10)
                 = mk_ndarray [1]%nat (repeat (Fin 1) 1)).
    { unfold map_array, constant_image, full. cbn [shape data].
      change (size_of [1%nat]) with 1%nat. cbn [repeat map].
      now rewrite log10_10. }
    rewrite Ei.
    destruct (update_percentiles (mk_ndarray [1]%nat (repeat (Fin 1) 1)) false
                (fresh_stats [1]%nat) (map (fun _ => Fin 1) (linspace 0 100 100)))
      as [E _].
    - apply (percentile_constant [1]%nat 1 1); [lia|apply fresh_q_range].
    - rewrite E. reflexivity. }
  split; [exact H1|]. split; [exact H2|].
  intros E. rewrite E, H2 in H1. inversion H1. lra.
Qed.

Lemma map_constant {A B} (c : B) (l : list A) :
  map (fun _ => c) l = repeat c (length l).
Proof. induction l; simpl; congruence. Qed.

Lemma map2_fadd_repeat (a v : R) (k : nat) :
  map2 fadd (repeat (Fin a) k) (repeat (Fin v) k) = repeat (Fin (a + v)) k.
Proof. induction k; simpl; congruence. Qed.

Lemma constant_image_data (dims : list nat) (v : R) :
  size_of dims <> 0%nat -> data (constant_image dims v) <> [].
Proof.
  intros HN. unfold constant_image, full. cbn [data].
  destruct (size_of dims); [congruence|discriminate].
Qed.

(** A series of constant images adds their values to every percentile
    sum. *)
Lemma update_all_constant (dims : list nat) (log_transform : bool)
    (vs : list R) :
  size_of dims <> 0%nat ->
  forall (self : OnlineStatistics) (a : R),
    shape (_mean self) = dims -> shape (_M2 self) = dims ->
    (forall x, In x (_q self) -> 0 <= x <= 100) ->
    _percentiles self = repeat (Fin a) (length (_q self)) ->
    exists self',
      update_all (map (constant_image dims) vs) log_transform self
      = (self', Ok tt) /\
      n self' = (n self + Z.of_nat (length vs))%Z /\
      _percentiles self'
      = repeat (Fin (fold_left Rplus vs a)) (length (_q self)) /\
      _keys self' = _keys self.
Proof.
  intros HN. induction vs as [|v vs IH]; intros self a Hm HM Hq Hp.
  - exists self. cbn. rewrite Z.add_0_r. auto.
  - cbn [map update_all]. unfold bind.
    destruct (update_compatible (constant_image dims v) log_transform self
                dims) as [self1 [Hup [Hn [Hm1 HM1]]]].
    { now apply constant_image_data. }
    { congruence. }
    { rewrite Hm. apply broadcast_shapes_same. }
    destruct (update_percentiles (constant_image dims v) log_transform self
                (map (fun _ => Fin v) (_q self))) as [Ep [Eq Ek]].
    { apply percentile_constant; [lia|assumption]. }
    rewrite Hup in *. cbn [fst] in Ep, Eq, Ek.
    destruct (IH self1 (a + v)) as [self' [Hup' [Hn' [Hp' Hk']]]];
      try assumption.
    + intros x Hx. apply Hq. now rewrite <- Eq.
    + rewrite Ep, Hp, Eq, map_constant. apply map2_fadd_repeat.
    + exists self'. rewrite Hup'. rewrite Hn', Hn, Hp', Hk', Eq, Ek.
      cbn [fold_left length]. repeat split. lia.
Qed.

Lemma percentile_items_constant (x : R) (count : Z) (keys : list R) :
  count <> 0%Z ->
  percentile_items keys (repeat (Fin x) (length keys)) count
  = Ok (map (fun k => (k, Rtrunc (x / IZR count))) keys).
Proof.
  intros Hc. induction keys as [|k keys IH]; [reflexivity|].
  cbn [length repeat percentile_items map]. rewrite IH.
  unfold fdiv. rewrite Rzero_false by (now apply not_0_IZR). reflexivity.
Qed.

Lemma Rtrunc_eq (r : R) (z : Z) :
  0 <= r -> IZR z <= r < IZR z + 1 -> Rtrunc r = z.
Proof.
  intros H0 H. unfold Rtrunc. destruct (Rlt_dec r 0); [lra|].
  now apply Zfloor_eq.
Qed.

Lemma Rtrunc_IZR (z : Z) : Rtrunc (IZR z) = z.
Proof.
  unfold Rtrunc. destruct (Rlt_dec (IZR z) 0).
  - rewrite ZfloorNZ. lia.
  - apply ZfloorZ.
Qed.

Lemma fold_left_Rplus_repeat (v : R) (k : nat) :
  forall a, fold_left Rplus (repeat v k) a = a + INR k * v.
Proof.
  induction k as [|k IH]; intros a.
  - simpl. ring.
  - cbn [repeat fold_left]. rewrite IH, S_INR. ring.
Qed.

(** A fresh accumulator and a series of constant images. *)
Lemma fresh_constant_run (h : R) (dims : list nat) (decimals : Z)
    (vs : list R) :
  (0 <= decimals <= 3)%Z -> size_of dims <> 0%nat -> vs <> [] ->
  exists self0 self,
    __init__ (fun _ => Fin h) dims decimals = Ok self0 /\
    update_all (map (constant_image dims) vs) false self0 = (self, Ok tt) /\
    n self = Z.of_nat (length vs) /\
    percentiles self
    = Ok (map (fun k => (k, Rtrunc (fold_left Rplus vs h
                                    / IZR (Z.of_nat (length vs)))))
              (_keys self0)).
Proof.
  intros Hdec HN Hvs. eexists.
  rewrite (init_ok _ dims decimals Hdec).
  set (P := Z.to_nat (10 ^ (decimals + 2))).
  destruct (update_all_constant dims false vs HN
              (mk_stats 0 dims (zeros dims) (zeros dims) (linspace 0 100 P)
                 (map (fun _ => Fin h) (seq 0 P))
                 (map (round_to decimals) (linspace 0 100 P))) h)
    as [self [Hup [Hn [Hp Hk]]]]; try reflexivity.
  - intros x. cbn [_q]. apply linspace_range. now apply precision_ge_2.
  - cbn [_percentiles _q]. now rewrite map_constant, length_seq, linspace_length.
  - exists self. split; [reflexivity|]. split; [exact Hup|].
    cbn [n _q _keys] in *. split; [lia|].
    unfold percentiles. rewrite Hp, Hk, Hn, Z.add_0_l.
    replace (length (linspace 0 100 P))
      with (length (map (round_to decimals) (linspace 0 100 P)))
      by apply length_map.
    apply percentile_items_constant. destruct vs; [congruence|simpl; lia].
Qed.

(** C4: what [percentiles] returns for constant images.  Three images of
    the values 1, 2 and 2 give every key the value 1, the sum 5 divided by
    the count 3 and truncated by [int], where rounding gives 2; in memory
    that [np.empty] leaves holding 7, one image of the value 5 gives every
    key the value 12; in memory that happens to hold zeros, [count] images
    of the integer value [v] give every key the value [v]. *)
Theorem C4_percentiles_of_constant_images :
  (exists self0 self,
     __init__ heap_zero [1]%nat 0 = Ok self0 /\
     update_all (map (constant_image [1]%nat) [1; 2; 2]) false self0
     = (self, Ok tt) /\
     n self = 3%Z /\
     percentiles self = Ok (map (fun k => (k, 1%Z)) (_keys self0)) /\
     round_nearest ((1 + 2 + 2) / IZR (n self)) = 2%Z) /\
  (exists self0 self,
     __init__ heap_seven [1]%nat 0 = Ok self0 /\
     update_all (map (constant_image [1]%nat) [5]) false self0
     = (self, Ok tt) /\
     n self = 1%Z /\
     percentiles self = Ok (map (fun k => (k, 12%Z)) (_keys self0))) /\
  (forall (v : Z) (count : nat) (dims : list nat) (decimals : Z),
     (0 <= decimals <= 3)%Z -> size_of dims <> 0%nat -> (1 <= count)%nat ->
     exists self0 self,
       __init__ heap_zero dims decimals = Ok self0 /\
       update_all (map (constant_image dims) (repeat (IZR v) count)) false
                  self0 = (self, Ok tt) /\
       n self = Z.of_nat count /\
       percentiles self = Ok (map (fun k => (k, v)) (_keys self0))).
Proof.
  split; [|split].
  - destruct (fresh_constant_run 0 [1]%nat 0 [1; 2; 2])
      as [self0 [self [H0 [Hup [Hn Hp]]]]];
      [lia|discriminate|discriminate|].
    exists self0, self. split; [exact H0|]. split; [exact Hup|].
    split; [exact Hn|]. split.
    + rewrite Hp. f_equal. apply map_ext. intros k. f_equal.
      cbn [fold_left length]. apply Rtrunc_eq; simpl; lra.
    + rewrite Hn. cbn [length]. unfold round_nearest.
      apply Zfloor_eq. simpl. lra.
  - destruct (fresh_constant_run 7 [1]%nat 0 [5])
      as [self0 [self [H0 [Hup [Hn Hp]]]]];
      [lia|discriminate|discriminate|].
    exists self0, self. split; [exact H0|]. split; [exact Hup|].
    split; [exact Hn|].
    rewrite Hp. f_equal. apply map_ext. intros k. f_equal.
    cbn [fold_left length]. apply Rtrunc_eq; simpl; lra.
  - intros v count dims decimals Hdec HN Hc.
    destruct (fresh_constant_run 0 dims decimals (repeat (IZR v) count))
      as [self0 [self [H0 [Hup [Hn Hp]]]]];
      [assumption|assumption|destruct count; [lia|discriminate]|].
    rewrite repeat_length in *.
    exists self0, self. split; [exact H0|]. split; [exact Hup|].
    split; [exact Hn|].
    rewrite Hp. f_equal. apply map_ext. intros k. f_equal.
    rewrite fold_left_Rplus_repeat, <- INR_IZR_INZ.
    replace ((0 + INR count * IZR v) / INR count) with (IZR v).
    + apply Rtrunc_IZR.
    + field. apply not_0_INR. lia.
Qed.

Lemma C4_percentiles_of_constant_images_witness :
  exists self0 self,
    __init__ heap_zero [1]%nat 0 = Ok self0 /\
    update_all (map (constant_image [1]%nat) (repeat (IZR 7) 2)) false self0
    = (self, Ok tt) /\
    n self = Z.of_nat 2 /\
    percentiles self = Ok (map (fun k => (k, 7%Z)) (_keys self0)).
Proof.
  apply (proj2 (proj2 C4_percentiles_of_constant_images) 7%Z 2%nat [1]%nat 0%Z).
  - lia.
  - discriminate.
  - lia.
Defined.

End StatsFacts.

(** ** More on the zoom-threshold estimator *)

Module EstimatorMore.

Import Mapobject MapobjectMore MapobjectFacts.
Local Open Scope Z_scope.

Lemma int_average_ok (samples : list Z) :
  samples <> [] -> exists a, int_average samples = Ok a.
Proof. destruct samples; [congruence|intros _; simpl; eauto]. Qed.

Lemma int_average_empty (samples : list Z) (e : exn) :
  int_average samples = Raise e -> samples = [].
Proof. destruct samples; [reflexivity|discriminate]. Qed.

(** The loop stops only at a level without samples. *)
Lemma zoom_loop_raise_inv rng db ids n_sample (levels : nat) :
  forall z k acc e,
    zoom_loop rng db ids n_sample levels z k acc = Raise e ->
    e = ZeroDivisionError /\
    exists i, (i < levels)%nat /\
      level_samples rng db ids n_sample (k + i * (2 * n_sample))%nat
                    (z - Z.of_nat i) = [].
Proof.
  induction levels as [|levels IH]; intros z k acc e H;
    cbn [zoom_loop] in H; [discriminate|].
  destruct (int_average (level_samples rng db ids n_sample k z))
    as [avg|e'] eqn:Havg.
  - destruct (IH _ _ _ _ H) as [He [i [Hi Hs]]]. split; [assumption|].
    exists (S i). split; [lia|].
    replace (k + S i * (2 * n_sample))%nat
      with (k + 2 * n_sample + i * (2 * n_sample))%nat by lia.
    now replace (z - Z.of_nat (S i)) with (z - 1 - Z.of_nat i) by lia.
  - inversion H; subst e'. split; [now apply int_average_raise in Havg|].
    exists 0%nat. split; [lia|].
    replace (k + 0 * (2 * n_sample))%nat with k by lia.
    replace (z - Z.of_nat 0) with z by lia.
    now apply int_average_empty in Havg.
Qed.

Lemma calculate_loop_ok rng db ids (n_sample maxzoom_level : Z) d :
  zoom_loop rng db ids (Z.to_nat n_sample) (Z.to_nat (maxzoom_level + 1))
            maxzoom_level 0 [] = Ok d ->
  forall z, 0 <= z <= maxzoom_level ->
    exists a, level_average rng db ids n_sample maxzoom_level z = Ok a.
Proof.
  intros Hd z Hz. unfold level_average.
  apply int_average_ok. intros Hempty.
  rewrite (zoom_loop_raise rng db ids (Z.to_nat n_sample)
             (Z.to_nat (maxzoom_level + 1)) maxzoom_level 0 []
             (Z.to_nat (maxzoom_level - z))) in Hd; [discriminate|lia|].
  replace (maxzoom_level - Z.of_nat (Z.to_nat (maxzoom_level - z)))
    with z by lia.
  exact Hempty.
Qed.

Lemma qualifying_levels (limit : Z) (d : list (Z * Z)) (z : Z) :
  In z (map fst (filter (fun zn => snd zn <=? limit) d)) <->
  exists a, In (z, a) d /\ a <= limit.
Proof.
  rewrite in_map_iff. split.
  - intros [[z' a] [Hfst Hin]]. simpl in Hfst. subst z'.
    apply filter_In in Hin. destruct Hin as [Hin Hb]. simpl in Hb.
    exists a. split; [assumption|lia].
  - intros [a [Hin Ha]]. exists (z, a). split; [reflexivity|].
    apply filter_In. split; [assumption|simpl; lia].
Qed.

(** X1: a zoom level that [calculate_min_poly_zoom] returns lies in
    [0 .. maxzoom_level], every level had a sample, the truncated average
    of the returned level is within the limit, and no lower level has such
    an average. *)
Theorem calculate_min_poly_zoom_sound rng db ids n_sample maxzoom_level
    limit z :
  calculate_min_poly_zoom rng db maxzoom_level ids n_sample limit = Ok z ->
  0 <= z <= maxzoom_level /\
  (forall z', 0 <= z' <= maxzoom_level ->
     exists a, level_average rng db ids n_sample maxzoom_level z' = Ok a) /\
  (exists a, level_average rng db ids n_sample maxzoom_level z = Ok a /\
             a <= limit) /\
  (forall z' a', 0 <= z' <= maxzoom_level ->
     level_average rng db ids n_sample maxzoom_level z' = Ok a' ->
     a' <= limit -> z <= z').
Proof.
  unfold calculate_min_poly_zoom.
  destruct (zoom_loop rng db ids (Z.to_nat n_sample)
              (Z.to_nat (maxzoom_level + 1)) maxzoom_level 0 [])
    as [d|e] eqn:Hd; [|discriminate].
  intros Hmin. pose proof (calculate_items _ _ _ _ _ _ Hd) as Hitems.
  destruct (py_min_spec _ _ Hmin) as [Hin Hlow].
  apply qualifying_levels in Hin. destruct Hin as [a [Hin Ha]].
  apply Hitems in Hin. destruct Hin as [Hz Hav].
  split; [assumption|]. split; [now apply (calculate_loop_ok _ _ _ _ _ d)|].
  split; [now exists a|].
  intros z' a' Hz' Hav' Ha'. apply Hlow. apply qualifying_levels.
  exists a'. split; [|assumption]. now apply Hitems.
Qed.

Lemma calculate_min_poly_zoom_sound_witness :
  0 <= 3 <= 6 /\
  (forall z', 0 <= z' <= 6 ->
     exists a, level_average rng_zero db_side [1] 10 6 z' = Ok a) /\
  (exists a, level_average rng_zero db_side [1] 10 6 3 = Ok a /\ a <= 3000) /\
  (forall z' a', 0 <= z' <= 6 ->
     level_average rng_zero db_side [1] 10 6 z' = Ok a' ->
     a' <= 3000 -> 3 <= z').
Proof.
  apply (calculate_min_poly_zoom_sound rng_zero db_side [1] 10 6 3000 3).
  vm_compute. reflexivity.
Defined.

(** X2: [calculate_min_poly_zoom] fails in two ways only: with
    [ZeroDivisionError] exactly when some level of [0 .. maxzoom_level]
    has no sample that is not [None], and with [ValueError] exactly when
    every level has samples and the average of every level, truncated to
    an integer as [int(float(sum) / len)] does ([level_average]), exceeds
    the limit; an average such as 3000.5 does not exceed the limit 3000 in
    this sense. *)
Theorem calculate_min_poly_zoom_failures rng db ids n_sample maxzoom_level
    limit :
  (calculate_min_poly_zoom rng db maxzoom_level ids n_sample limit
   = Raise ZeroDivisionError <->
   exists z, 0 <= z <= maxzoom_level /\
     level_samples rng db ids (Z.to_nat n_sample)
       (level_offset (Z.to_nat n_sample) maxzoom_level z) z = []) /\
  (calculate_min_poly_zoom rng db maxzoom_level ids n_sample limit
   = Raise ValueError <->
   forall z, 0 <= z <= maxzoom_level ->
     exists a, level_average rng db ids n_sample maxzoom_level z = Ok a /\
               limit < a) /\
  calculate_min_poly_zoom rng db maxzoom_level ids n_sample limit
  <> Raise IndexError /\
  calculate_min_poly_zoom rng db maxzoom_level ids n_sample limit
  <> Raise OverflowError.
Proof.
  unfold calculate_min_poly_zoom.
  destruct (zoom_loop rng db ids (Z.to_nat n_sample)
              (Z.to_nat (maxzoom_level + 1)) maxzoom_level 0 [])
    as [d|e] eqn:Hd.
  - pose proof (calculate_items _ _ _ _ _ _ Hd) as Hitems.
    pose proof (calculate_loop_ok _ _ _ _ _ d Hd) as Hall.
    pose proof (qualifying_levels limit d) as Hq.
    destruct (map fst (filter (fun zn => snd zn <=? limit) d))
      as [|z0 l]; cbn [py_min].
    + split; [|split; [|split; discriminate]].
      * split; [discriminate|]. intros [z [Hz Hempty]].
        destruct (Hall z Hz) as [a Ha]. unfold level_average in Ha.
        rewrite Hempty in Ha. discriminate.
      * split; [|reflexivity]. intros _ z Hz.
        destruct (Hall z Hz) as [a Ha]. exists a. split; [assumption|].
        destruct (Z.le_gt_cases a limit) as [Hle|Hgt]; [|lia].
        exfalso. apply (proj2 (Hq z)). exists a. split; [|assumption].
        now apply Hitems.
    + split; [|split; [|split; discriminate]].
      * split; [discriminate|]. intros [z [Hz Hempty]].
        destruct (Hall z Hz) as [a Ha]. unfold level_average in Ha.
        rewrite Hempty in Ha. discriminate.
      * split; [discriminate|]. intros Hgt. exfalso.
        destruct (proj1 (Hq z0) (or_introl eq_refl)) as [a [Hin Ha]].
        apply Hitems in Hin. destruct Hin as [Hz Hav].
        destruct (Hgt z0 Hz) as [a' [Hav' Hlt]]. rewrite Hav in Hav'.
        inversion Hav'. lia.
  - destruct (zoom_loop_raise_inv _ _ _ _ _ _ _ _ _ Hd) as [-> [i [Hi Hs]]].
    split; [|split; [|split; discriminate]].
    + split; [|reflexivity]. intros _. exists (maxzoom_level - Z.of_nat i).
      split; [lia|]. unfold level_offset.
      replace (Z.to_nat (maxzoom_level - (maxzoom_level - Z.of_nat i)))
        with i by lia.
      exact Hs.
    + split; [discriminate|]. intros Hgt. exfalso.
      destruct (Hgt (maxzoom_level - Z.of_nat i) ltac:(lia)) as [a [Ha _]].
      unfold level_average, level_offset in Ha.
      replace (Z.to_nat (maxzoom_level - (maxzoom_level - Z.of_nat i)))
        with i in Ha by lia.
      cbn [Nat.add] in Hs. rewrite Hs in Ha. discriminate.
Qed.

(** X3: without a level to loop over ([maxzoom_level < 0]) the minimum of
    an empty list raises [ValueError]; with a level but no tile to sample
    ([n_sample <= 0]) the average of the first level raises
    [ZeroDivisionError]. *)
Theorem calculate_min_poly_zoom_degenerate rng db ids n_sample maxzoom_level
    limit :
  (maxzoom_level < 0 ->
   calculate_min_poly_zoom rng db maxzoom_level ids n_sample limit
   = Raise ValueError) /\
  (0 <= maxzoom_level -> n_sample <= 0 ->
   calculate_min_poly_zoom rng db maxzoom_level ids n_sample limit
   = Raise ZeroDivisionError).
Proof.
  split.
  - intros H. unfold calculate_min_poly_zoom.
    replace (Z.to_nat (maxzoom_level + 1)) with 0%nat by lia. reflexivity.
  - intros H Hn. unfold calculate_min_poly_zoom.
    replace (Z.to_nat n_sample) with 0%nat by lia.
    rewrite (zoom_loop_raise rng db ids 0 (Z.to_nat (maxzoom_level + 1))
               maxzoom_level 0 [] 0); [reflexivity|lia|reflexivity].
Qed.

Lemma calculate_min_poly_zoom_degenerate_witness :
  calculate_min_poly_zoom rng_zero db_side (-1) [1] 10 3000 = Raise ValueError /\
  calculate_min_poly_zoom rng_zero db_side 6 [1] 0 3000
  = Raise ZeroDivisionError.
Proof.
  split.
  - apply (proj1 (calculate_min_poly_zoom_degenerate
                    rng_zero db_side [1] 10 (-1) 3000)). lia.
  - apply (proj2 (calculate_min_poly_zoom_degenerate
                    rng_zero db_side [1] 0 6 3000)); lia.
Defined.

(** X4: a higher limit never raises the threshold: when the function
    returns [z] for a limit, it returns a level that is at most [z] for
    every higher limit, the random draws and the database being the
    same. *)
Theorem calculate_min_poly_zoom_limit_monotone rng db ids n_sample
    maxzoom_level limit limit' z :
  limit <= limit' ->
  calculate_min_poly_zoom rng db maxzoom_level ids n_sample limit = Ok z ->
  exists z',
    calculate_min_poly_zoom rng db maxzoom_level ids n_sample limit' = Ok z' /\
    z' <= z.
Proof.
  intros Hl. unfold calculate_min_poly_zoom.
  destruct (zoom_loop rng db ids (Z.to_nat n_sample)
              (Z.to_nat (maxzoom_level + 1)) maxzoom_level 0 [])
    as [d|e]; [|discriminate].
  intros Hmin. destruct (py_min_spec _ _ Hmin) as [Hin _].
  assert (Hin' : In z (map fst (filter (fun zn => snd zn <=? limit') d))).
  { apply qualifying_levels in Hin. destruct Hin as [a [Hin Ha]].
    apply qualifying_levels. exists a. split; [assumption|lia]. }
  destruct (py_min_nonempty
              (map fst (filter (fun zn => snd zn <=? limit') d)))
    as [z' Hz'].
  { intros E. rewrite E in Hin'. contradiction. }
  exists z'. split; [assumption|].
  now apply (proj2 (py_min_spec _ _ Hz')).
Qed.

Lemma calculate_min_poly_zoom_limit_monotone_witness :
  exists z',
    calculate_min_poly_zoom rng_zero db_side 6 [1] 10 5000 = Ok z' /\ z' <= 3.
Proof.
  apply (calculate_min_poly_zoom_limit_monotone rng_zero db_side [1] 10 6
           3000 5000 3).
  - lia.
  - vm_compute. reflexivity.
Defined.

End EstimatorMore.

(** ** More on tiles and their borders *)

Module TileMore.

Import Mapobject MapobjectMore MapobjectFacts TileFacts.
Local Open Scope Q_scope.

Lemma randrange_level_0 (rng : random) (k n : nat) :
  valid_random rng -> randrange_list rng k (2 ^ 0) n = repeat 0%Z n.
Proof.
  intros Hv. unfold randrange_list. change (2 ^ 0)%Z with 1%Z.
  generalize 0%nat. induction n as [|n IH]; intros start; [reflexivity|].
  cbn [seq map repeat]. rewrite IH. f_equal.
  pose proof (Hv (k + start)%nat 1%Z ltac:(lia)). lia.
Qed.

Lemma combine_repeat {A B} (a : A) (b : B) (n : nat) :
  combine (repeat a n) (repeat b n) = repeat (a, b) n.
Proof. induction n; simpl; congruence. Qed.

Lemma samples_of_one_tile (db : database) (ids : list Z) (z x y : Z)
    (n : nat) :
  n_points_in_tile_samples db ids z (repeat (x, y) n)
  = match db ids (sample_tile z x y) with
    | Some v => repeat v n
    | None => []
    end.
Proof.
  induction n as [|n IH]; cbn [repeat n_points_in_tile_samples].
  - now destruct (db ids (sample_tile z x y)).
  - rewrite IH. now destruct (db ids (sample_tile z x y)).
Qed.

Lemma sum_repeat (v : Z) (n : nat) : sum (repeat v n) = (v * Z.of_nat n)%Z.
Proof.
  induction n as [|n IH]; [simpl; lia|].
  cbn [repeat sum fold_right]. unfold sum in IH. rewrite IH. lia.
Qed.

(** X5: at level 0 there is one tile, so that with a random source that
    keeps to its range and at least one sample the average of level 0 is
    the vertex count of the tile (0, 0), and the level has no average when
    the database selects no outline for that tile. *)
Theorem level_0_average rng db ids n_sample maxzoom_level :
  valid_random rng -> (1 <= n_sample)%Z ->
  level_average rng db ids n_sample maxzoom_level 0
  = match db ids (sample_tile 0 0 0) with
    | Some v => Ok v
    | None => Raise ZeroDivisionError
    end.
Proof.
  intros Hv Hn. unfold level_average, level_samples.
  rewrite !randrange_level_0 by assumption.
  rewrite combine_repeat, samples_of_one_tile.
  destruct (db ids (sample_tile 0 0 0)) as [v|]; [|reflexivity].
  destruct (Z.to_nat n_sample) as [|n] eqn:E; [lia|].
  cbn [repeat int_average].
  change (v :: repeat v n) with (repeat v (S n)).
  rewrite sum_repeat, repeat_length. f_equal.
  apply Z.quot_mul. lia.
Qed.

Lemma level_0_average_witness :
  level_average rng_zero db_side [1%Z] 10 6 0
  = match db_side [1%Z] (sample_tile 0 0 0) with
    | Some v => Ok v
    | None => Raise ZeroDivisionError
    end.
Proof.
  apply (level_0_average rng_zero db_side [1%Z] 10 6).
  - intros k m Hm. unfold rng_zero. lia.
  - lia.
Defined.

(** Segments along the axes, in either direction. *)
Lemma on_segment_sym (a b p : point) : on_segment a b p -> on_segment b a p.
Proof.
  intros [t [H0 [H1 [Hx Hy]]]]. exists (1 - t).
  split; [lra|]. split; [lra|].
  split; [rewrite Hx; ring|rewrite Hy; ring].
Qed.

Lemma on_segment_horizontal (y x1 x2 : Q) (p : point) :
  x1 < x2 ->
  on_segment (x1, y) (x2, y) p <-> snd p == y /\ x1 <= fst p <= x2.
Proof.
  intros Hx. rewrite <- (horizontal_covers y x1 x2 p Hx).
  unfold covers, edges. cbn [tl combine]. split.
  - intros H. exists ((x1, y), (x2, y)). split; [now left|exact H].
  - intros [e [[<-|[]] H]]. exact H.
Qed.

Lemma on_segment_vertical (x y1 y2 : Q) (p : point) :
  y2 < y1 ->
  on_segment (x, y1) (x, y2) p <-> fst p == x /\ y2 <= snd p <= y1.
Proof.
  intros Hy. rewrite <- (vertical_covers x y1 y2 p Hy).
  unfold covers, edges. cbn [tl combine]. split.
  - intros H. exists ((x, y1), (x, y2)). split; [now left|exact H].
  - intros [e [[<-|[]] H]]. exact H.
Qed.

(** The line string of a sampled tile holds exactly the points on the four
    edges of the tile. *)
Lemma sample_tile_covers (x y z : Z) :
  (forall p, covers (sample_tile z x y) p <-> tile_boundary x y z p) /\
  (forall g, strictly_inside g x y z -> ~ intersects g (sample_tile z x y)).
Proof.
  pose proof (tile_size_pos z) as Hs.
  assert (Hb : forall p, covers (sample_tile z x y) p <->
                         tile_boundary x y z p).
  { intros p. unfold sample_tile, tile_boundary, tile_area.
    fold (tile_size z). cbv zeta. set (s := tile_size z) in *.
    unfold covers, edges. cbn [tl combine]. split.
    - intros [e [He Hon]]. cbn [In] in He.
      destruct He as [<-|[<-|[<-|[<-|[]]]]]; cbn [fst snd] in Hon.
      + apply on_segment_sym in Hon.
        apply on_segment_horizontal in Hon; [|lra]. lra.
      + apply on_segment_vertical in Hon; [|lra]. lra.
      + apply on_segment_horizontal in Hon; [|lra]. lra.
      + apply on_segment_sym in Hon.
        apply on_segment_vertical in Hon; [|lra]. lra.
    - intros [[[Hx1 Hx2] [Hy1 Hy2]] [H|[H|[H|H]]]].
      + exists ((of_int x * s, - of_int y * s),
                (of_int x * s, - of_int y * s - s)).
        split; [right; left; reflexivity|]. cbn [fst snd].
        apply on_segment_vertical; lra.
      + exists ((of_int x * s + s, - of_int y * s - s),
                (of_int x * s + s, - of_int y * s)).
        split; [do 3 right; left; reflexivity|]. cbn [fst snd].
        apply on_segment_sym. apply on_segment_vertical; lra.
      + exists ((of_int x * s, - of_int y * s - s),
                (of_int x * s + s, - of_int y * s - s)).
        split; [do 2 right; left; reflexivity|]. cbn [fst snd].
        apply on_segment_horizontal; lra.
      + exists ((of_int x * s + s, - of_int y * s),
                (of_int x * s, - of_int y * s)).
        split; [left; reflexivity|]. cbn [fst snd].
        apply on_segment_sym. apply on_segment_horizontal; lra. }
  split; [exact Hb|].
  intros g [_ Hin] [p [Hg Hp]]. apply Hb in Hp.
  destruct Hp as [_ Hedge]. specialize (Hin p Hg). cbv zeta in Hin.
  destruct Hedge as [H|[H|[H|H]]]; lra.
Qed.

Lemma point_strictly_inside :
  strictly_inside (single_point 100 (- 100)) 0 0 6.
Proof.
  pose proof tile_size_6 as Hs. unfold strictly_inside, single_point.
  cbv zeta. unfold of_int, inject_Z. split.
  - exists (100, - 100). split; reflexivity.
  - intros p [Hx Hy]. rewrite Hs. lra.
Qed.

(** X6: the geometry that [calculate_min_poly_zoom] filters with is a
    line string: as a set of points it is the four edges of the sampled
    tile and nothing else, but its bounding box is the whole tile.  The
    filter compares bounding boxes ([&&]), so that an outline that lies
    strictly inside the tile, which shares no point with the line string,
    passes it all the same: every box that holds the outline overlaps the
    box of the line string. *)
Theorem sample_tile_bounding_box (x y z : Z) :
  (forall p, covers (sample_tile z x y) p <-> tile_boundary x y z p) /\
  exists b,
    bounding_box (sample_tile z x y) = Some b /\
    (forall p, in_box b p <-> tile_area x y z p) /\
    (forall g bg,
       meets g (tile_area x y z) -> encloses bg g -> box_overlaps bg b) /\
    (forall g bg,
       strictly_inside g x y z -> encloses bg g ->
       ~ intersects g (sample_tile z x y) /\ box_overlaps bg b).
Proof.
  pose proof (tile_size_pos z) as Hs.
  split; [exact (proj1 (sample_tile_covers x y z))|].
  pose proof (proj2 (sample_tile_covers x y z)) as Hline.
  unfold sample_tile, bounding_box in *. fold (tile_size z) in *.
  cbv zeta in *. set (s := tile_size z) in *.
  eexists. split; [reflexivity|]. set (b := box_of _ _).
  assert (Hbox : forall p, in_box b p <-> tile_area x y z p).
  { intros p. unfold in_box, tile_area, b. fold s. cbv zeta.
    cbn [box_of xmin ymin xmax ymax fst snd].
    rewrite !Q.min_le_iff, !Q.max_le_iff. lra. }
  assert (Hmeet : forall (g : region) bg,
            meets g (tile_area x y z) -> encloses bg g ->
            box_overlaps bg b).
  { intros g bg [p [Hg Hp]] Hbg. apply Hbox in Hp.
    specialize (Hbg p Hg). unfold in_box in Hbg, Hp. unfold box_overlaps.
    repeat split; eapply Qle_trans; try apply Hbg; try apply Hp. }
  split; [exact Hbox|]. split; [exact Hmeet|].
  intros g bg Hin Hbg. split; [exact (Hline g Hin)|].
  apply (Hmeet g bg); [|assumption].
  destruct Hin as [[p Hg] Hin]. exists p. split; [assumption|].
  specialize (Hin p Hg). cbv zeta in Hin. fold s in Hin.
  unfold tile_area. fold s. cbv zeta. lra.
Qed.

Lemma rectangle_strictly_inside :
  strictly_inside (rectangle 50 100 (- 100) (- 50)) 0 0 6.
Proof.
  pose proof tile_size_6 as Hs. unfold strictly_inside, rectangle.
  cbv zeta. unfold of_int, inject_Z. split.
  - exists (50, - 50). cbn [fst snd]. repeat split; lra.
  - intros p [[Hx1 Hx2] [Hy1 Hy2]]. rewrite Hs. lra.
Qed.

Lemma sample_tile_bounding_box_witness :
  exists b,
    bounding_box (sample_tile 6 0 0) = Some b /\
    ~ intersects (rectangle 50 100 (- 100) (- 50)) (sample_tile 6 0 0) /\
    box_overlaps (mk_box 50 (- 100) 100 (- 50)) b.
Proof.
  destruct (proj2 (sample_tile_bounding_box 0 0 6)) as [b [Hb [_ [_ H]]]].
  exists b. split; [exact Hb|].
  apply (H (rectangle 50 100 (- 100) (- 50)) (mk_box 50 (- 100) 100 (- 50))).
  - exact rectangle_strictly_inside.
  - intros p Hp. exact Hp.
Defined.

Lemma of_int_lt (a b : Z) : of_int a < of_int b + 1 -> (a <= b)%Z.
Proof.
  unfold of_int. intros H.
  assert (H' : inject_Z a < inject_Z (b + 1)).
  { rewrite inject_Z_plus. exact H. }
  rewrite <- Zlt_Qlt in H'. lia.
Qed.

(** X7: an outline that lies in a tile away from its edges is returned for
    that tile, and for no other tile of the level. *)
Theorem interior_outline_in_one_tile (g : region) (x y z : Z) :
  strictly_inside g x y z ->
  holds (intersection_filter x y z) g /\
  forall x' y', holds (intersection_filter x' y' z) g -> x' = x /\ y' = y.
Proof.
  intros [[p0 Hp0] Hin]. pose proof (tile_size_pos z) as Hs.
  cbv zeta in Hin. split.
  - apply intersection_filter_holds. split; [|split].
    + exists p0. split; [assumption|]. specialize (Hin p0 Hp0).
      unfold tile_area. cbv zeta. lra.
    + intros _ [p [Hg [Hx _]]]. specialize (Hin p Hg). lra.
    + intros _ [p [Hg [Hy _]]]. specialize (Hin p Hg). lra.
  - intros x' y' Hf. apply intersection_filter_holds in Hf.
    destruct Hf as [[p [Hg Ha]] _]. specialize (Hin p Hg).
    unfold tile_area in Ha. cbv zeta in Ha.
    set (s := tile_size z) in *.
    assert (H1 : of_int x < of_int x' + 1) by nra.
    assert (H2 : of_int x' < of_int x + 1) by nra.
    assert (H3 : of_int y < of_int y' + 1) by nra.
    assert (H4 : of_int y' < of_int y + 1) by nra.
    apply of_int_lt in H1, H2, H3, H4. lia.
Qed.

Lemma interior_outline_in_one_tile_witness :
  holds (intersection_filter 0 0 6) (single_point 100 (- 100)) /\
  forall x' y',
    holds (intersection_filter x' y' 6) (single_point 100 (- 100)) ->
    x' = 0%Z /\ y' = 0%Z.
Proof.
  apply (interior_outline_in_one_tile (single_point 100 (- 100)) 0 0 6).
  exact point_strictly_inside.
Defined.

Lemma tile_size_halves (z : Z) : tile_size z == 2 * tile_size (z + 1).
Proof.
  unfold tile_size, pow2.
  replace (6 - z)%Z with (1 + (6 - (z + 1)))%Z by lia.
  rewrite Qpower_plus by (intros H; discriminate H).
  change (2 ^ 1) with 2. ring.
Qed.

Lemma of_int_double (x a : Z) (s : Q) :
  of_int (2 * x + a) * s == 2 * (of_int x * s) + of_int a * s.
Proof.
  unfold of_int. rewrite inject_Z_plus, inject_Z_mult.
  change (inject_Z 2) with 2. ring.
Qed.

(** X8: the tiles form a pyramid: the area of the tile [(x, y)] of level
    [z] is the union of the areas of the four tiles [(2x + a, 2y + b)],
    [a] and [b] in 0 .. 1, of level [z + 1]. *)
Theorem tile_area_of_children (x y z : Z) (p : point) :
  tile_area x y z p <->
  exists a b, (0 <= a <= 1)%Z /\ (0 <= b <= 1)%Z /\
    tile_area (2 * x + a) (2 * y + b) (z + 1) p.
Proof.
  pose proof (tile_size_pos (z + 1)) as Hs.
  pose proof (tile_size_halves z) as Hh.
  unfold tile_area. cbv zeta.
  set (s := tile_size z) in *. set (h := tile_size (z + 1)) in *.
  assert (Ex : of_int x * s == 2 * (of_int x * h)) by (rewrite Hh; ring).
  assert (Ey : of_int y * s == 2 * (of_int y * h)) by (rewrite Hh; ring).
  split.
  - intros [[Hx1 Hx2] [Hy1 Hy2]].
    destruct (Qlt_le_dec (fst p) (of_int x * s + h)) as [Hx|Hx];
      destruct (Qlt_le_dec (snd p) (- (of_int y * s) - h)) as [Hy|Hy].
    + exists 0%Z, 1%Z. split; [lia|]. split; [lia|].
      rewrite !of_int_double.
      change (of_int 0) with 0. change (of_int 1) with 1. lra.
    + exists 0%Z, 0%Z. split; [lia|]. split; [lia|].
      rewrite !of_int_double.
      change (of_int 0) with 0. lra.
    + exists 1%Z, 1%Z. split; [lia|]. split; [lia|].
      rewrite !of_int_double.
      change (of_int 1) with 1. lra.
    + exists 1%Z, 0%Z. split; [lia|]. split; [lia|].
      rewrite !of_int_double.
      change (of_int 0) with 0. change (of_int 1) with 1. lra.
  - intros [a [b [Ha [Hb H]]]]. rewrite !of_int_double in H.
    assert (Ea : a = 0%Z \/ a = 1%Z) by lia.
    assert (Eb : b = 0%Z \/ b = 1%Z) by lia.
    destruct Ea as [-> | ->], Eb as [-> | ->];
      change (of_int 0) with 0 in H; change (of_int 1) with 1 in H; lra.
Qed.

(** X9: the same outline is never returned for two tiles that lie side by
    side, nor for two tiles that lie one above the other when the upper
    one is not in row 0, as long as the outline is convex. *)
Theorem convex_outline_not_in_both (g : region) (c r z : Z) :
  convex g ->
  ((0 <= c)%Z ->
   ~ (holds (intersection_filter c r z) g /\
      holds (intersection_filter (c + 1) r z) g)) /\
  (r <> 0%Z ->
   ~ (holds (intersection_filter c r z) g /\
      holds (intersection_filter c (r + 1) z) g)).
Proof.
  intros Hconv. pose proof (tile_size_pos z) as Hs.
  pose proof (of_int_succ c (tile_size z)) as HX.
  pose proof (of_int_succ r (tile_size z)) as HY.
  split.
  - intros Hc [HA HB].
    apply intersection_filter_holds in HA, HB.
    destruct HA as [[p [Hp Ha]] _].
    destruct HB as [[q [Hq Hb]] [Hleft _]].
    apply Hleft; [lia|]. unfold tile_area in Ha, Hb. cbv zeta in Ha, Hb.
    set (s := tile_size z) in *. unfold vertical_edge.
    destruct (Qlt_le_dec (fst p) (of_int (c + 1) * s)) as [Hlt|Hge];
      [|exists p; split; [assumption|]; lra].
    destruct (Qlt_le_dec (of_int (c + 1) * s) (fst q)) as [Hlt'|Hge'];
      [|exists q; split; [assumption|]; lra].
    set (t := (of_int (c + 1) * s - fst p) / (fst q - fst p)).
    assert (Hd : 0 < fst q - fst p) by lra.
    assert (Ht0 : 0 <= t) by (apply Qle_shift_div_l; lra).
    assert (Ht1 : t <= 1) by (apply Qle_shift_div_r; lra).
    exists (of_int (c + 1) * s, snd p + t * (snd q - snd p)).
    split.
    + apply (Hconv p q _ t Hp Hq Ht0 Ht1); cbn [fst snd]; [|reflexivity].
      unfold t. field. lra.
    + cbn [fst snd]. split; [reflexivity|]. nra.
  - intros Hr [HA HB].
    apply intersection_filter_holds in HA, HB.
    destruct HA as [[p [Hp Ha]] [_ Htop]].
    destruct HB as [[q [Hq Hb]] _].
    apply Htop; [assumption|]. unfold tile_area in Ha, Hb.
    cbv zeta in Ha, Hb. set (s := tile_size z) in *.
    unfold horizontal_edge.
    destruct (Qlt_le_dec (- (of_int r * s) - s) (snd p)) as [Hlt|Hge];
      [|exists p; split; [assumption|]; lra].
    destruct (Qlt_le_dec (snd q) (- (of_int r * s) - s)) as [Hlt'|Hge'];
      [|exists q; split; [assumption|]; lra].
    set (t := (snd p - (- (of_int r * s) - s)) / (snd p - snd q)).
    assert (Hd : 0 < snd p - snd q) by lra.
    assert (Ht0 : 0 <= t) by (apply Qle_shift_div_l; lra).
    assert (Ht1 : t <= 1) by (apply Qle_shift_div_r; lra).
    exists (fst p + t * (fst q - fst p), - (of_int r * s) - s).
    split.
    + apply (Hconv p q _ t Hp Hq Ht0 Ht1); cbn [fst snd]; [reflexivity|].
      unfold t. field. lra.
    + cbn [fst snd]. split; [reflexivity|]. nra.
Qed.

Lemma horizontal_edge_convex (y a b : Q) : convex (horizontal_edge y a b).
Proof.
  intros p q r t [Hpy [Hp1 Hp2]] [Hqy [Hq1 Hq2]] Ht0 Ht1 Hx Hy.
  unfold horizontal_edge. split; [rewrite Hy, Hpy, Hqy; ring|]. nra.
Qed.

Lemma convex_outline_not_in_both_witness :
  ~ (holds (intersection_filter 0 0 6) (horizontal_edge (- 100) 200 300) /\
     holds (intersection_filter (0 + 1) 0 6)
           (horizontal_edge (- 100) 200 300)).
Proof.
  apply (proj1 (convex_outline_not_in_both
                  (horizontal_edge (- 100) 200 300) 0 0 6
                  (horizontal_edge_convex (- 100) 200 300))).
  lia.
Defined.

(** X10: between the rows 0 and 1 the exclusion does not work.  The border
    that a tile excludes is the one it shares with the row below, and row
    0 excludes none; so an outline with a point on the border between the
    tiles [(c, 0)] and [(c, 1)] that stays away from their left edge and
    from the lower edge of [(c, 1)] is returned for both tiles. *)
Theorem row_zero_outline_in_both (g : region) (c z : Z) :
  meets g (shared_horizontal_edge c 0 z) ->
  (forall p, g p ->
     of_int c * tile_size z < fst p /\ - (2 * tile_size z) < snd p) ->
  holds (intersection_filter c 0 z) g /\
  holds (intersection_filter c 1 z) g.
Proof.
  intros [p0 [Hg0 [Hy0 Hx0]]] Hin. pose proof (tile_size_pos z) as Hs.
  cbv zeta in Hy0, Hx0. change (of_int (0 + 1)) with 1 in Hy0.
  set (s := tile_size z) in *.
  split; apply intersection_filter_holds; fold s;
    change (of_int 0) with 0; change (of_int 1) with 1.
  - split; [|split].
    + exists p0. split; [assumption|]. unfold tile_area. cbv zeta. fold s.
      change (of_int 0) with 0. lra.
    + intros _ [p [Hg [Hx _]]]. specialize (Hin p Hg). lra.
    + intros H. now destruct H.
  - split; [|split].
    + exists p0. split; [assumption|]. unfold tile_area. cbv zeta. fold s.
      change (of_int 1) with 1. lra.
    + intros _ [p [Hg [Hx _]]]. specialize (Hin p Hg). lra.
    + intros _ [p [Hg [Hy _]]]. specialize (Hin p Hg). lra.
Qed.

Lemma row_zero_outline_in_both_witness :
  holds (intersection_filter 0 0 6) (single_point 100 (- 256)) /\
  holds (intersection_filter 0 1 6) (single_point 100 (- 256)).
Proof.
  apply (row_zero_outline_in_both (single_point 100 (- 256)) 0 6).
  - exists (100, - 256). split; [split; reflexivity|].
    unfold shared_horizontal_edge, horizontal_edge. cbv zeta.
    rewrite tile_size_6. cbn [fst snd]. change (of_int (0 + 1)) with 1.
    change (of_int 0) with 0. lra.
  - intros p [Hx Hy]. rewrite tile_size_6. change (of_int 0) with 0. lra.
Defined.

End TileMore.

(** ** More on the online statistics *)

Module StatsMoreFacts.

Import NumPy Stats StatsMore NumPyFacts PercentileFacts StatsFacts.
Local Open Scope R_scope.

Lemma nth_map_seq {A} (f : nat -> A) (d : A) (k i : nat) :
  (i < k)%nat -> nth i (map f (seq 0 k)) d = f i.
Proof.
  intros H. rewrite (nth_indep _ d (f 0%nat)) by (now rewrite length_map, length_seq).
  rewrite (map_nth f (seq 0 k) 0%nat i), seq_nth by assumption. reflexivity.
Qed.

Lemma precision_real (decimals : Z) :
  (0 <= decimals <= 3)%Z ->
  INR (Z.to_nat (10 ^ (decimals + 2)) - 1) = 100 * IZR (10 ^ decimals) - 1 /\
  1 <= IZR (10 ^ decimals).
Proof.
  intros H.
  assert (Hp : (0 < 10 ^ decimals)%Z) by (apply Z.pow_pos_nonneg; lia).
  split; [|apply IZR_le; lia].
  rewrite INR_IZR_INZ.
  replace (Z.of_nat (Z.to_nat (10 ^ (decimals + 2)) - 1))
    with (100 * 10 ^ decimals - 1)%Z.
  - now rewrite minus_IZR, mult_IZR.
  - rewrite Z.pow_add_r by lia. change (10 ^ 2)%Z with 100%Z. lia.
Qed.

(** X11: [__init__] raises [ValueError] for [decimals] outside 0 .. 3, and
    otherwise gives a count of 0, zero arrays of the given shape for the
    mean and M2, and [10 ** (decimals + 2)] probabilities, sums and keys,
    the first probability 0 and the last 100. *)
Theorem init_validates_decimals (heap : nat -> float) (dims : list nat)
    (decimals : Z) :
  ((decimals < 0 \/ 3 < decimals)%Z ->
   __init__ heap dims decimals = Raise ValueError) /\
  ((0 <= decimals <= 3)%Z ->
   exists self,
     __init__ heap dims decimals = Ok self /\
     n self = 0%Z /\ image_dimensions self = dims /\
     mean self = zeros dims /\ _M2 self = zeros dims /\
     Z.of_nat (length (_q self)) = (10 ^ (decimals + 2))%Z /\
     length (_percentiles self) = length (_q self) /\
     length (_keys self) = length (_q self) /\
     nth 0 (_q self) 0 = 0 /\
     nth (length (_q self) - 1) (_q self) 0 = 100).
Proof.
  split.
  - intros H. unfold __init__.
    destruct (Z.leb_spec 0 decimals), (Z.leb_spec decimals 3);
      try reflexivity; lia.
  - intros H. eexists. split; [now apply init_ok|].
    pose proof (precision_ge_2 decimals H) as HP.
    destruct (precision_real decimals H) as [HR HD].
    cbn [n image_dimensions mean _mean _M2 _q _percentiles _keys].
    rewrite !length_map, length_seq, linspace_length.
    repeat split; try reflexivity.
    + assert (0 < 10 ^ (decimals + 2))%Z by (apply Z.pow_pos_nonneg; lia).
      lia.
    + unfold linspace. rewrite nth_map_seq by lia. simpl. lra.
    + unfold linspace. rewrite nth_map_seq by lia. rewrite HR.
      field. lra.
Qed.

Lemma init_validates_decimals_witness :
  __init__ heap_zero [2; 2]%nat 4 = Raise ValueError /\
  exists self,
    __init__ heap_zero [2; 2]%nat 1 = Ok self /\
    n self = 0%Z /\ image_dimensions self = [2; 2]%nat /\
    mean self = zeros [2; 2]%nat /\ _M2 self = zeros [2; 2]%nat /\
    Z.of_nat (length (_q self)) = (10 ^ (1 + 2))%Z /\
    length (_percentiles self) = length (_q self) /\
    length (_keys self) = length (_q self) /\
    nth 0 (_q self) 0 = 0 /\
    nth (length (_q self) - 1) (_q self) 0 = 100.
Proof.
  split.
  - apply (proj1 (init_validates_decimals heap_zero [2; 2]%nat 4)). lia.
  - apply (proj2 (init_validates_decimals heap_zero [2; 2]%nat 1)). lia.
Defined.

(** The key of the [i]-th probability, as an integer number of units of
    [10 ** -decimals]. *)
Lemma round_grid (decimals : Z) (i : nat) :
  (0 <= decimals <= 3)%Z ->
  (Z.of_nat i < 10 ^ (decimals + 2))%Z ->
  round_to decimals
    (0 + INR i * ((100 - 0) / INR (Z.to_nat (10 ^ (decimals + 2)) - 1)))
  = IZR (if (2 * Z.of_nat i <? 10 ^ (decimals + 2) - 1)%Z
         then Z.of_nat i else Z.of_nat i + 1)
    / IZR (10 ^ decimals).
Proof.
  intros Hd Hi. destruct (precision_real decimals Hd) as [HR HD].
  rewrite HR. unfold round_to. f_equal. f_equal.
  assert (HP : (10 ^ (decimals + 2) = 100 * 10 ^ decimals)%Z).
  { rewrite Z.pow_add_r by lia. change (10 ^ 2)%Z with 100%Z. lia. }
  set (D := IZR (10 ^ decimals)) in *.
  set (I := INR i).
  assert (HI : I = IZR (Z.of_nat i)) by apply INR_IZR_INZ.
  assert (HM : 0 < 100 * D - 1) by lra.
  set (u := I / (100 * D - 1)).
  assert (Hu : u * (100 * D - 1) = I) by (unfold u; field; lra).
  assert (Hv : (0 + I * ((100 - 0) / (100 * D - 1))) * D + / 2
               = I + u + / 2) by (unfold u; field; lra).
  rewrite Hv.
  assert (HI0 : 0 <= I) by apply pos_INR.
  assert (HIM : I <= 100 * D - 1).
  { rewrite HI. unfold D. rewrite <- mult_IZR, <- minus_IZR.
    apply IZR_le. lia. }
  apply Zfloor_eq.
  destruct (Z.ltb_spec (2 * Z.of_nat i) (10 ^ (decimals + 2) - 1)) as [H|H].
  - assert (H2 : 2 * I < 100 * D - 1).
    { rewrite HI. unfold D. rewrite <- !mult_IZR, <- minus_IZR.
      apply IZR_lt. lia. }
    rewrite <- HI. nra.
  - assert (H2 : 100 * D - 1 <= 2 * I).
    { rewrite HI. unfold D. rewrite <- !mult_IZR, <- minus_IZR.
      apply IZR_le. lia. }
    rewrite plus_IZR, <- HI. nra.
Qed.

(** X12: the keys of [percentiles].  The [i]-th key is [i] units of
    [10 ** -decimals] in the lower half of the grid and [i + 1] units in
    the upper half; so the keys increase strictly, the dictionary has an
    entry for every probability of the grid, and no key is 50. *)
Theorem percentile_keys (heap : nat -> float) (dims : list nat)
    (decimals : Z) (self : OnlineStatistics) :
  (0 <= decimals <= 3)%Z ->
  __init__ heap dims decimals = Ok self ->
  (forall i : nat,
     (Z.of_nat i < 10 ^ (decimals + 2))%Z ->
     nth i (_keys self) 0
     = IZR (if (2 * Z.of_nat i <? 10 ^ (decimals + 2) - 1)%Z
            then Z.of_nat i else Z.of_nat i + 1)
       / IZR (10 ^ decimals)) /\
  (forall i j : nat,
     (i < j)%nat -> (Z.of_nat j < 10 ^ (decimals + 2))%Z ->
     nth i (_keys self) 0 < nth j (_keys self) 0) /\
  ~ In 50 (_keys self).
Proof.
  intros Hd Hinit. rewrite (init_ok heap dims decimals Hd) in Hinit.
  inversion Hinit; subst self; clear Hinit. cbn [_keys].
  destruct (precision_real decimals Hd) as [_ HD].
  assert (Hkey : forall i : nat,
            (Z.of_nat i < 10 ^ (decimals + 2))%Z ->
            nth i (map (round_to decimals)
                       (linspace 0 100 (Z.to_nat (10 ^ (decimals + 2))))) 0
            = IZR (if (2 * Z.of_nat i <? 10 ^ (decimals + 2) - 1)%Z
                   then Z.of_nat i else Z.of_nat i + 1)
              / IZR (10 ^ decimals)).
  { intros i Hi. unfold linspace. rewrite map_map.
    rewrite nth_map_seq by lia. now apply round_grid. }
  split; [exact Hkey|]. split.
  - intros i j Hij Hj. rewrite !Hkey by lia.
    apply Rmult_lt_compat_r; [apply Rinv_0_lt_compat; lra|].
    apply IZR_lt.
    destruct (Z.ltb_spec (2 * Z.of_nat i) (10 ^ (decimals + 2) - 1)),
             (Z.ltb_spec (2 * Z.of_nat j) (10 ^ (decimals + 2) - 1)); lia.
  - intros Hin. apply (In_nth _ _ 0) in Hin.
    destruct Hin as [i [Hi Hk]].
    rewrite length_map, linspace_length in Hi.
    assert (Hi' : (Z.of_nat i < 10 ^ (decimals + 2))%Z).
    { assert (0 < 10 ^ (decimals + 2))%Z by (apply Z.pow_pos_nonneg; lia).
      lia. }
    rewrite Hkey in Hk by assumption.
    assert (HP : (10 ^ (decimals + 2) = 100 * 10 ^ decimals)%Z).
    { rewrite Z.pow_add_r by lia. change (10 ^ 2)%Z with 100%Z. lia. }
    assert (Hz : IZR (if (2 * Z.of_nat i <? 10 ^ (decimals + 2) - 1)%Z
                      then Z.of_nat i else Z.of_nat i + 1)
                 = IZR (50 * 10 ^ decimals)).
    { rewrite mult_IZR.
      apply (Rmult_eq_reg_r (/ IZR (10 ^ decimals)));
        [|apply Rinv_neq_0_compat; lra].
      unfold Rdiv in Hk. rewrite Hk. field. lra. }
    apply eq_IZR in Hz.
    destruct (Z.ltb_spec (2 * Z.of_nat i) (10 ^ (decimals + 2) - 1)); lia.
Qed.

Lemma percentile_keys_witness :
  (forall i : nat,
     (Z.of_nat i < 10 ^ (0 + 2))%Z ->
     nth i (_keys (fresh_stats [1]%nat)) 0
     = IZR (if (2 * Z.of_nat i <? 10 ^ (0 + 2) - 1)%Z
            then Z.of_nat i else Z.of_nat i + 1)
       / IZR (10 ^ 0)) /\
  (forall i j : nat,
     (i < j)%nat -> (Z.of_nat j < 10 ^ (0 + 2))%Z ->
     nth i (_keys (fresh_stats [1]%nat)) 0
     < nth j (_keys (fresh_stats [1]%nat)) 0) /\
  ~ In 50 (_keys (fresh_stats [1]%nat)).
Proof.
  apply (percentile_keys heap_zero [1]%nat 0 (fresh_stats [1]%nat)).
  - lia.
  - reflexivity.
Defined.

Lemma int_of_division_by_zero (x : float) :
  int (fdiv x (Fin (IZR 0))) = Raise ValueError \/
  int (fdiv x (Fin (IZR 0))) = Raise OverflowError.
Proof.
  assert (E : Rzero (IZR 0) = true).
  { unfold Rzero. destruct (Req_dec_T (IZR 0) 0) as [_|H]; [reflexivity|].
    exfalso. apply H. reflexivity. }
  destruct x as [a|s|]; cbn [fdiv]; rewrite ?E.
  - destruct (Rzero a); simpl; auto.
  - simpl. auto.
  - simpl. auto.
Qed.

(** X13: [percentiles] cannot be read before the first [update]: with a
    count of 0 the first division gives nan or an infinity, and [int]
    raises [ValueError] or [OverflowError], whatever the memory of the
    sums holds. *)
Theorem percentiles_before_first_update (heap : nat -> float)
    (dims : list nat) (decimals : Z) (self : OnlineStatistics) :
  (0 <= decimals <= 3)%Z ->
  __init__ heap dims decimals = Ok self ->
  percentiles self = Raise ValueError \/
  percentiles self = Raise OverflowError.
Proof.
  intros Hd Hinit. rewrite (init_ok heap dims decimals Hd) in Hinit.
  inversion Hinit; subst self; clear Hinit.
  unfold percentiles. cbn [_keys _percentiles n].
  pose proof (precision_ge_2 decimals Hd) as HP.
  destruct (Z.to_nat (10 ^ (decimals + 2))) as [|P]; [lia|].
  unfold linspace. cbn [seq map percentile_items].
  destruct (int_of_division_by_zero (heap 0%nat)) as [E|E]; rewrite E; auto.
Qed.

Lemma percentiles_before_first_update_witness :
  percentiles (fresh_stats [1]%nat) = Raise ValueError \/
  percentiles (fresh_stats [1]%nat) = Raise OverflowError.
Proof.
  apply (percentiles_before_first_update heap_zero [1]%nat 0
           (fresh_stats [1]%nat)).
  - lia.
  - reflexivity.
Defined.

(** *** Variance, standard deviation, bounds *)

Lemma Rsum_squares_nonneg (c : R) (l : list R) :
  0 <= Rsum (map (fun x => (x - c) * (x - c)) l).
Proof.
  induction l as [|x l IH]; [simpl; lra|].
  change (Rsum (map (fun x => (x - c) * (x - c)) (x :: l)))
    with ((x - c) * (x - c) + Rsum (map (fun x => (x - c) * (x - c)) l)).
  pose proof (Rle_0_sqr (x - c)) as H. unfold Rsqr in H. lra.
Qed.

Lemma sample_variance_nonneg (l : list R) :
  (2 <= length l)%nat -> 0 <= sample_variance l.
Proof.
  intros H. unfold sample_variance, squared_deviations.
  assert (Hk : 1 < INR (length l)).
  { change 1 with (INR 1). apply lt_INR. lia. }
  apply Rmult_le_pos; [apply Rsum_squares_nonneg|].
  apply Rlt_le, Rinv_0_lt_compat. lra.
Qed.

Lemma fsqrt_finite (l : list R) :
  Forall (fun v => 0 <= v) l ->
  map fsqrt (map Fin l) = map Fin (map sqrt l).
Proof.
  induction 1 as [|v l Hv _ IH]; [reflexivity|].
  cbn [map]. rewrite IH. f_equal. unfold fsqrt, Rneg.
  destruct (Rlt_dec v 0); [lra|reflexivity].
Qed.

(** The run of [fresh_run] for raw images, with the variance. *)
Lemma fresh_run_raw (heap : nat -> float) (dims : list nat) (decimals : Z)
    (images : list (list R)) :
  (0 <= decimals <= 3)%Z -> size_of dims <> 0%nat -> images <> [] ->
  Forall (fun image => length image = size_of dims) images ->
  exists self0 self,
    __init__ heap dims decimals = Ok self0 /\
    update_all (map (finite_array dims) images) false self0 = (self, Ok tt) /\
    n self = Z.of_nat (length images) /\
    image_dimensions self = dims /\
    mean self
    = finite_array dims
        (map (fun i => arithmetic_mean (column i images))
             (seq 0 (size_of dims))) /\
    ((2 <= length images)%nat ->
     var self
     = finite_array dims
         (map (fun i => sample_variance (column i images))
              (seq 0 (size_of dims)))).
Proof.
  intros Hdec HN Hne Hlen.
  destruct (fresh_run heap dims decimals false _ images Hdec Hne
              (feeds_raw dims images HN Hlen)) as [self0 [ps [H0 Hrun]]].
  eexists. eexists. split; [exact H0|]. split; [exact Hrun|].
  split; [reflexivity|]. split; [reflexivity|]. split; [reflexivity|].
  intros H2. erewrite var_finite; [|cbn [n]; lia|reflexivity].
  cbn [n]. rewrite map_map. f_equal. apply map_ext. intros i.
  unfold sample_variance. now rewrite column_length, <- INR_IZR_INZ.
Qed.

(** X14: the standard deviation.  With a count below 2 every element of
    [std] is nan, as in [var]; after two or more finite arrays of the shape
    of the accumulator every variance is a finite number that is not
    negative, and [std] holds its square root. *)
Theorem std_of_finite_series :
  (forall self : OnlineStatistics,
     (n self < 2)%Z ->
     std self = full (image_dimensions self) NaN) /\
  (forall heap dims decimals (images : list (list R)),
     (0 <= decimals <= 3)%Z -> size_of dims <> 0%nat ->
     (2 <= length images)%nat ->
     Forall (fun image => length image = size_of dims) images ->
     exists self0 self vs,
       __init__ heap dims decimals = Ok self0 /\
       update_all (map (finite_array dims) images) false self0
       = (self, Ok tt) /\
       var self = finite_array dims vs /\
       Forall (fun v => 0 <= v) vs /\
       std self = finite_array dims (map sqrt vs) /\
       Forall (fun v => sqrt v * sqrt v = v) vs).
Proof.
  split.
  - intros self Hn. unfold std. rewrite var_undefined by assumption.
    unfold map_array, full. cbn [shape data]. now rewrite map_repeat.
  - intros heap dims decimals images Hdec HN H2 Hlen.
    destruct (fresh_run_raw heap dims decimals images Hdec HN)
      as [self0 [self [H0 [Hrun [Hn [Hdims [Hmean Hvar]]]]]]];
      [destruct images; [simpl in H2; lia|discriminate]|assumption|].
    specialize (Hvar H2).
    assert (Hpos : Forall (fun v => 0 <= v)
                     (map (fun i => sample_variance (column i images))
                          (seq 0 (size_of dims)))).
    { apply Forall_forall. intros v Hv. apply in_map_iff in Hv.
      destruct Hv as [i [<- _]]. apply sample_variance_nonneg.
      now rewrite column_length. }
    exists self0, self. eexists. split; [exact H0|]. split; [exact Hrun|].
    split; [exact Hvar|]. split; [exact Hpos|]. split.
    + unfold std. rewrite Hvar. unfold map_array, finite_array.
      cbn [shape data]. now rewrite fsqrt_finite.
    + apply Forall_forall. intros v Hv. apply sqrt_sqrt.
      now apply (proj1 (Forall_forall _ _) Hpos).
Qed.

Lemma std_of_finite_series_witness :
  exists self0 self vs,
    __init__ heap_zero [1]%nat 0 = Ok self0 /\
    update_all (map (finite_array [1]%nat) [[1]; [3]]) false self0
    = (self, Ok tt) /\
    var self = finite_array [1]%nat vs /\
    Forall (fun v => 0 <= v) vs /\
    std self = finite_array [1]%nat (map sqrt vs) /\
    Forall (fun v => sqrt v * sqrt v = v) vs.
Proof.
  apply (proj2 std_of_finite_series heap_zero [1]%nat 0%Z [[1]; [3]]).
  - lia.
  - discriminate.
  - simpl. lia.
  - repeat constructor.
Defined.

Lemma Rsum_permutation (l l' : list R) :
  Permutation.Permutation l l' -> Rsum l = Rsum l'.
Proof.
  induction 1 as [|x l l' _ IH|x y l|l l' l'' _ IH1 _ IH2].
  - reflexivity.
  - change (x + Rsum l = x + Rsum l'). now rewrite IH.
  - change (y + (x + Rsum l) = x + (y + Rsum l)). ring.
  - congruence.
Qed.

Lemma arithmetic_mean_permutation (l l' : list R) :
  Permutation.Permutation l l' -> arithmetic_mean l = arithmetic_mean l'.
Proof.
  intros H. unfold arithmetic_mean.
  now rewrite (Rsum_permutation _ _ H), (Permutation.Permutation_length H).
Qed.

Lemma squared_deviations_permutation (l l' : list R) :
  Permutation.Permutation l l' ->
  squared_deviations l = squared_deviations l'.
Proof.
  intros H. unfold squared_deviations.
  rewrite (arithmetic_mean_permutation _ _ H).
  apply Rsum_permutation. now apply Permutation.Permutation_map.
Qed.

Lemma Forall_permutation {A} (P : A -> Prop) (l l' : list A) :
  Permutation.Permutation l l' -> Forall P l -> Forall P l'.
Proof.
  intros H. rewrite !Forall_forall. intros HP x Hx. apply HP.
  apply (Permutation.Permutation_in x (Permutation.Permutation_sym H) Hx).
Qed.

(** X15: the order of the images does not matter (in exact arithmetic):
    two series of arrays of the shape of the accumulator that are
    permutations of each other end with the same count, mean and
    variance. *)
Theorem statistics_of_permuted_series (heap : nat -> float)
    (dims : list nat) (decimals : Z) (images images' : list (list R)) :
  (0 <= decimals <= 3)%Z -> size_of dims <> 0%nat -> images <> [] ->
  Forall (fun image => length image = size_of dims) images ->
  Permutation.Permutation images images' ->
  exists self0 self self',
    __init__ heap dims decimals = Ok self0 /\
    update_all (map (finite_array dims) images) false self0 = (self, Ok tt) /\
    update_all (map (finite_array dims) images') false self0
    = (self', Ok tt) /\
    n self = n self' /\ mean self = mean self' /\ var self = var self'.
Proof.
  intros Hdec HN Hne Hlen Hperm.
  assert (Hne' : images' <> []).
  { intros E. subst images'. apply Permutation.Permutation_sym in Hperm.
    apply Permutation.Permutation_nil in Hperm. congruence. }
  pose proof (Forall_permutation _ _ _ Hperm Hlen) as Hlen'.
  destruct (fresh_run heap dims decimals false _ images Hdec Hne
              (feeds_raw dims images HN Hlen)) as [self0 [ps [H0 Hrun]]].
  destruct (fresh_run heap dims decimals false _ images' Hdec Hne'
              (feeds_raw dims images' HN Hlen')) as [self0' [ps' [H0' Hrun']]].
  rewrite H0 in H0'. inversion H0'; subst self0'; clear H0'.
  eexists. eexists. eexists. split; [exact H0|]. split; [exact Hrun|].
  split; [exact Hrun'|].
  assert (Hcol : forall i,
            Permutation.Permutation (column i images) (column i images')).
  { intros i. unfold column. now apply Permutation.Permutation_map. }
  assert (Hk : length images = length images')
    by now apply Permutation.Permutation_length.
  assert (Em : map (fun i => arithmetic_mean (column i images))
                   (seq 0 (size_of dims))
               = map (fun i => arithmetic_mean (column i images'))
                     (seq 0 (size_of dims))).
  { apply map_ext. intros i. now apply arithmetic_mean_permutation. }
  assert (Es : map (fun i => squared_deviations (column i images))
                   (seq 0 (size_of dims))
               = map (fun i => squared_deviations (column i images'))
                     (seq 0 (size_of dims))).
  { apply map_ext. intros i. now apply squared_deviations_permutation. }
  unfold var, mean. cbn [n _mean _M2 image_dimensions].
  rewrite Em, Es, Hk. auto.
Qed.

Lemma statistics_of_permuted_series_witness :
  exists self0 self self',
    __init__ heap_zero [1]%nat 0 = Ok self0 /\
    update_all (map (finite_array [1]%nat) [[1]; [3]]) false self0
    = (self, Ok tt) /\
    update_all (map (finite_array [1]%nat) [[3]; [1]]) false self0
    = (self', Ok tt) /\
    n self = n self' /\ mean self = mean self' /\ var self = var self'.
Proof.
  apply (statistics_of_permuted_series heap_zero [1]%nat 0 [[1]; [3]]
           [[3]; [1]]).
  - lia.
  - discriminate.
  - discriminate.
  - repeat constructor.
  - apply Permutation.perm_swap.
Defined.

Lemma Rsum_repeat (v : R) (k : nat) : Rsum (repeat v k) = INR k * v.
Proof.
  induction k as [|k IH]; [simpl; ring|].
  change (Rsum (repeat v (S k))) with (v + Rsum (repeat v k)).
  rewrite IH, S_INR. ring.
Qed.

Lemma arithmetic_mean_repeat (v : R) (k : nat) :
  (1 <= k)%nat -> arithmetic_mean (repeat v k) = v.
Proof.
  intros H. unfold arithmetic_mean. rewrite Rsum_repeat, repeat_length.
  field. apply not_0_INR. lia.
Qed.

Lemma squared_deviations_repeat (v : R) (k : nat) :
  (1 <= k)%nat -> squared_deviations (repeat v k) = 0.
Proof.
  intros H. unfold squared_deviations.
  rewrite arithmetic_mean_repeat by assumption.
  rewrite map_repeat, Rsum_repeat. ring.
Qed.

Lemma column_repeat (i : nat) (x : list R) (k : nat) :
  column i (repeat x k) = repeat (nth i x 0) k.
Proof. unfold column. apply map_repeat. Qed.

(** X16: the same finite image fed [count] times, [count >= 1], gives the
    image itself as the mean and, from [count = 2] on, zero as the
    variance of every pixel. *)
Theorem statistics_of_repeated_image (heap : nat -> float)
    (dims : list nat) (decimals : Z) (image : list R) (count : nat) :
  (0 <= decimals <= 3)%Z -> size_of dims <> 0%nat -> (1 <= count)%nat ->
  length image = size_of dims ->
  exists self0 self,
    __init__ heap dims decimals = Ok self0 /\
    update_all (map (finite_array dims) (repeat image count)) false self0
    = (self, Ok tt) /\
    mean self = finite_array dims image /\
    ((2 <= count)%nat -> var self = zeros dims).
Proof.
  intros Hdec HN Hc Hlen.
  destruct (fresh_run_raw heap dims decimals (repeat image count) Hdec HN)
    as [self0 [self [H0 [Hrun [Hn [Hdims [Hmean Hvar]]]]]]].
  { destruct count; [lia|discriminate]. }
  { apply Forall_forall. intros x Hx. apply repeat_spec in Hx. now subst. }
  rewrite repeat_length in Hvar.
  exists self0, self. split; [exact H0|]. split; [exact Hrun|]. split.
  - rewrite Hmean. f_equal. rewrite <- Hlen.
    rewrite (map_nth_seq 0 image) at 2. apply map_ext. intros i.
    rewrite column_repeat. now apply arithmetic_mean_repeat.
  - intros H2. rewrite (Hvar H2). unfold zeros, full, finite_array.
    f_equal. rewrite map_map.
    rewrite (map_ext _ (fun _ => Fin 0)).
    + now rewrite map_constant, length_seq.
    + intros i. f_equal. unfold sample_variance.
      rewrite column_repeat, squared_deviations_repeat by assumption.
      unfold Rdiv. ring.
Qed.

Lemma statistics_of_repeated_image_witness :
  exists self0 self,
    __init__ heap_zero [2]%nat 0 = Ok self0 /\
    update_all (map (finite_array [2]%nat) (repeat [4; 9] 3)) false self0
    = (self, Ok tt) /\
    mean self = finite_array [2]%nat [4; 9] /\
    ((2 <= 3)%nat -> var self = zeros [2]%nat).
Proof.
  apply (statistics_of_repeated_image heap_zero [2]%nat 0 [4; 9] 3).
  - lia.
  - discriminate.
  - lia.
  - reflexivity.
Defined.

Lemma arithmetic_mean_bounds (lo hi : R) (l : list R) :
  l <> [] -> Forall (fun v => lo <= v <= hi) l ->
  lo <= arithmetic_mean l <= hi.
Proof.
  intros Hne Hl.
  assert (Hs : INR (length l) * lo <= Rsum l <= INR (length l) * hi).
  { induction Hl as [|v l Hv _ IH]; [simpl; lra|].
    change (Rsum (v :: l)) with (v + Rsum l).
    change (length (v :: l)) with (S (length l)). rewrite S_INR.
    destruct l as [|w l].
    - simpl. lra.
    - assert (Hw : w :: l <> []) by discriminate. specialize (IH Hw). lra. }
  assert (Hk : 0 < INR (length l)).
  { apply lt_0_INR. destruct l; [congruence|simpl; lia]. }
  unfold arithmetic_mean. split.
  - apply (Rmult_le_reg_l (INR (length l))); [assumption|].
    replace (INR (length l) * (Rsum l / INR (length l))) with (Rsum l)
      by (field; lra). lra.
  - apply (Rmult_le_reg_l (INR (length l))); [assumption|].
    replace (INR (length l) * (Rsum l / INR (length l))) with (Rsum l)
      by (field; lra). lra.
Qed.

(** X17: the mean stays within the range of the data: when every pixel of
    every image lies between [lo] and [hi], so does every pixel of the
    mean. *)
Theorem mean_within_range (heap : nat -> float) (dims : list nat)
    (decimals : Z) (images : list (list R)) (lo hi : R) :
  (0 <= decimals <= 3)%Z -> size_of dims <> 0%nat -> images <> [] ->
  Forall (fun image => length image = size_of dims) images ->
  Forall (fun image => Forall (fun v => lo <= v <= hi) image) images ->
  exists self0 self ms,
    __init__ heap dims decimals = Ok self0 /\
    update_all (map (finite_array dims) images) false self0 = (self, Ok tt) /\
    mean self = finite_array dims ms /\
    length ms = size_of dims /\
    Forall (fun m => lo <= m <= hi) ms.
Proof.
  intros Hdec HN Hne Hlen Hrange.
  destruct (fresh_run_raw heap dims decimals images Hdec HN Hne Hlen)
    as [self0 [self [H0 [Hrun [Hn [Hdims [Hmean _]]]]]]].
  exists self0, self. eexists. split; [exact H0|]. split; [exact Hrun|].
  split; [exact Hmean|]. split; [now rewrite length_map, length_seq|].
  apply Forall_forall. intros m Hm. apply in_map_iff in Hm.
  destruct Hm as [i [<- Hi]]. apply in_seq in Hi.
  apply arithmetic_mean_bounds.
  - intros E. apply (f_equal (@length R)) in E.
    rewrite column_length in E. destruct images; [congruence|discriminate].
  - unfold column. apply Forall_forall. intros v Hv.
    apply in_map_iff in Hv. destruct Hv as [image [<- Himg]].
    pose proof (proj1 (Forall_forall _ _) Hrange image Himg) as Hr.
    pose proof (proj1 (Forall_forall _ _) Hlen image Himg) as Hl.
    cbv beta in Hr, Hl.
    apply (proj1 (Forall_forall _ _) Hr). apply nth_In. lia.
Qed.

Lemma mean_within_range_witness :
  exists self0 self ms,
    __init__ heap_zero [1]%nat 0 = Ok self0 /\
    update_all (map (finite_array [1]%nat) [[1]; [3]]) false self0
    = (self, Ok tt) /\
    mean self = finite_array [1]%nat ms /\
    length ms = size_of [1]%nat /\
    Forall (fun m => 1 <= m <= 3) ms.
Proof.
  apply (mean_within_range heap_zero [1]%nat 0 [[1]; [3]] 1 3).
  - lia.
  - discriminate.
  - discriminate.
  - repeat constructor.
  - repeat constructor; lra.
Defined.

(** *** Values that are not finite *)

Lemma float_step_mean (c : Z) (ms : list float) :
  forall m2s xs,
    length ms = length m2s -> length ms = length xs ->
    map2 fadd ms (map (fun x => fdiv x (Fin (IZR c))) (map2 fsub xs ms))
    = map fst (map2 (float_step c) (combine ms m2s) xs).
Proof.
  induction ms as [|m ms IH]; intros [|m2 m2s] [|x xs] H1 H2;
    simpl in H1, H2; try discriminate; [reflexivity|].
  cbn [map2 map combine]. rewrite (IH m2s xs) by congruence. reflexivity.
Qed.

Lemma float_step_M2 (c : Z) (ms : list float) :
  forall m2s xs,
    length ms = length m2s -> length ms = length xs ->
    map2 fadd m2s
      (map2 fmul (map2 fsub xs ms)
         (map2 fsub xs
            (map fst (map2 (float_step c) (combine ms m2s) xs))))
    = map snd (map2 (float_step c) (combine ms m2s) xs).
Proof.
  induction ms as [|m ms IH]; intros [|m2 m2s] [|x xs] H1 H2;
    simpl in H1, H2; try discriminate; [reflexivity|].
  cbn [map2 map combine]. rewrite (IH m2s xs) by congruence. reflexivity.
Qed.

(** One [update] with an array of the shape of the mean and M2, whatever
    the values. *)
Lemma update_same_shape (image : ndarray) (log_transform : bool)
    (self : OnlineStatistics) (p : list float) (dims : list nat)
    (xs ms m2s : list float) :
  percentile image (_q self) = Ok p ->
  (if log_transform then map_array log10 image else image)
  = mk_ndarray dims xs ->
  _mean self = mk_ndarray dims ms ->
  _M2 self = mk_ndarray dims m2s ->
  length xs = size_of dims -> length ms = size_of dims ->
  length m2s = size_of dims ->
  update image log_transform self
  = (mk_stats (n self + 1) (image_dimensions self)
       (mk_ndarray dims
          (map fst (map2 (float_step (n self + 1)) (combine ms m2s) xs)))
       (mk_ndarray dims
          (map snd (map2 (float_step (n self + 1)) (combine ms m2s) xs)))
       (_q self) (map2 fadd (_percentiles self) p) (_keys self),
     Ok tt).
Proof.
  intros Hp Harr Hmean HM2 Hxs Hms Hm2s.
  assert (Hl : length (map2 (float_step (n self + 1)) (combine ms m2s) xs)
               = size_of dims).
  { rewrite map2_length; rewrite length_combine; rewrite ?Hms, ?Hm2s; lia. }
  rewrite update_eq, Hp. cbv zeta. rewrite Harr, Hmean, HM2.
  unfold sub, add, mul.
  rewrite binop_same_shape by assumption.
  unfold scalar_op. cbn [shape data].
  rewrite binop_same_shape
    by (rewrite ?length_map, ?map2_length; congruence).
  rewrite (float_step_mean _ ms m2s xs) by congruence.
  rewrite binop_same_shape by (rewrite ?length_map; congruence).
  rewrite binop_same_shape
    by (rewrite ?map2_length; rewrite ?length_map; congruence).
  rewrite binop_same_shape
    by (rewrite ?map2_length; rewrite ?map2_length;
        rewrite ?length_map; congruence).
  rewrite (float_step_M2 _ ms m2s xs) by congruence.
  reflexivity.
Qed.

Lemma nth_float_step (c : Z) (ms m2s xs : list float) (i : nat)
    (d : float * float) :
  length ms = length m2s -> length ms = length xs -> (i < length ms)%nat ->
  nth i (map2 (float_step c) (combine ms m2s) xs) d
  = float_step c (nth i ms NaN, nth i m2s NaN) (nth i xs NaN).
Proof.
  intros H1 H2 Hi.
  rewrite (nth_map2 (float_step c) (NaN, NaN) NaN d)
    by (rewrite length_combine; lia).
  now rewrite combine_nth.
Qed.

Lemma nth_map_fst {A B} (l : list (A * B)) (i : nat) (d : A) (d' : A * B) :
  (i < length l)%nat -> nth i (map fst l) d = fst (nth i l d').
Proof.
  intros Hi. rewrite (nth_indep _ d (fst d')) by (now rewrite length_map).
  apply map_nth.
Qed.

Lemma nth_map_snd {A B} (l : list (A * B)) (i : nat) (d : B) (d' : A * B) :
  (i < length l)%nat -> nth i (map snd l) d = snd (nth i l d').
Proof.
  intros Hi. rewrite (nth_indep _ d (snd d')) by (now rewrite length_map).
  apply map_nth.
Qed.

Lemma float_step_zero_pixel (c : Z) (m m2 : R) :
  (0 < c)%Z ->
  float_step c (Fin m, Fin m2) (log10 (Fin 0)) = (Inf true, NaN).
Proof.
  intros Hc.
  assert (E0 : Rzero 0 = true).
  { unfold Rzero. destruct (Req_dec_T 0 0); [reflexivity|congruence]. }
  assert (En : Rneg (IZR c) = false).
  { unfold Rneg. destruct (Rlt_dec (IZR c) 0) as [H|]; [|reflexivity].
    apply lt_IZR in H. lia. }
  unfold log10. rewrite E0. unfold float_step. cbn [fst snd].
  unfold fsub. cbn [fneg fadd fdiv]. rewrite En. reflexivity.
Qed.

Lemma float_step_nan (c : Z) (m x : float) :
  snd (float_step c (m, NaN) x) = NaN.
Proof. reflexivity. Qed.

Lemma nonempty_of_index {A} (l : list A) (i : nat) :
  (i < length l)%nat -> l <> [].
Proof. destruct l; [simpl; lia|discriminate]. Qed.

(** X18: values that are not finite.  Under the log transform a pixel of
    value 0 in an image of the shape of the accumulator turns the mean of
    that pixel into -inf and its M2 into nan; and once M2 is nan at a pixel
    it is nan after every further [update] with an array of that shape,
    and so is the variance. *)
Theorem zero_pixel_under_log_transform (dims : list nat)
    (self : OnlineStatistics) (xs ms m2s : list float) (i : nat) :
  _mean self = mk_ndarray dims ms ->
  _M2 self = mk_ndarray dims m2s ->
  length xs = size_of dims -> length ms = size_of dims ->
  length m2s = size_of dims ->
  (i < size_of dims)%nat -> (0 <= n self)%Z ->
  (forall m m2,
     nth i xs NaN = Fin 0 -> nth i ms NaN = Fin m ->
     nth i m2s NaN = Fin m2 ->
     exists self',
       update (mk_ndarray dims xs) true self = (self', Ok tt) /\
       nth i (data (_mean self')) NaN = Inf true /\
       nth i (data (_M2 self')) NaN = NaN) /\
  (forall log_transform,
     nth i m2s NaN = NaN ->
     exists self',
       update (mk_ndarray dims xs) log_transform self = (self', Ok tt) /\
       nth i (data (_M2 self')) NaN = NaN /\
       ((1 <= n self)%Z -> nth i (data (var self')) NaN = NaN)).
Proof.
  intros Hmean HM2 Hxs Hms Hm2s Hi Hn.
  assert (Hd : data (mk_ndarray dims xs) <> []).
  { cbn [data]. apply (nonempty_of_index xs i). lia. }
  destruct (percentile_nonempty _ (_q self) Hd) as [p Hp].
  split.
  - intros m m2 Hx Hm Hm2. eexists. split.
    + apply (update_same_shape _ true self p dims (map log10 xs) ms m2s);
        try assumption; [reflexivity|now rewrite length_map].
    + cbn [_mean _M2 data].
      rewrite (nth_map_fst _ i NaN (NaN, NaN)),
              (nth_map_snd _ i NaN (NaN, NaN))
        by (rewrite map2_length; rewrite length_combine, ?length_map; lia).
      rewrite nth_float_step by (rewrite ?length_map; lia).
      rewrite (nth_indep (map log10 xs) NaN (log10 NaN))
        by (rewrite length_map; lia).
      rewrite map_nth, Hx, Hm, Hm2.
      rewrite float_step_zero_pixel by lia. split; reflexivity.
  - intros log_transform Hnan. eexists. split.
    + apply (update_same_shape _ log_transform self p dims
               (if log_transform then map log10 xs else xs) ms m2s);
        try assumption; [now destruct log_transform|].
      destruct log_transform; [now rewrite length_map|assumption].
    + assert (Hl : length (if log_transform then map log10 xs else xs)
                   = size_of dims).
      { destruct log_transform; [now rewrite length_map|assumption]. }
      assert (E : nth i (map snd (map2 (float_step (n self + 1))
                                       (combine ms m2s)
                           (if log_transform then map log10 xs else xs)))
                      NaN = NaN).
      { rewrite (nth_map_snd _ i NaN (NaN, NaN))
          by (rewrite map2_length; rewrite length_combine; lia).
        rewrite nth_float_step by lia. rewrite Hnan.
        apply float_step_nan. }
      cbn [_M2 data]. split; [exact E|].
      intros H1. unfold var. cbn [n _M2 image_dimensions].
      destruct (Z.ltb_spec (n self + 1) 2); [lia|].
      unfold scalar_op. cbn [data].
      rewrite (nth_indep _ NaN (fdiv NaN (Fin (IZR (n self + 1 - 1)))))
        by (rewrite !length_map, map2_length;
            rewrite length_combine; lia).
      rewrite (map_nth (fun x => fdiv x (Fin (IZR (n self + 1 - 1))))).
      now rewrite E.
Qed.

Lemma zero_pixel_under_log_transform_witness :
  exists self',
    update (mk_ndarray [1]%nat [Fin 0]) true (fresh_stats [1]%nat)
    = (self', Ok tt) /\
    nth 0 (data (_mean self')) NaN = Inf true /\
    nth 0 (data (_M2 self')) NaN = NaN.
Proof.
  apply (proj1 (zero_pixel_under_log_transform [1]%nat (fresh_stats [1]%nat)
                  [Fin 0] [Fin 0] [Fin 0] 0
                  eq_refl eq_refl eq_refl eq_refl eq_refl
                  ltac:(simpl; lia) ltac:(simpl; lia)) 0 0);
    reflexivity.
Defined.

End StatsMoreFacts.

(** ** The jobs of the illumination statistics step *)

Module CorillaFacts.

Import NumPy Stats StatsMore Corilla NumPyFacts PercentileFacts StatsFacts
  StatsMoreFacts.
Local Open Scope R_scope.

Lemma update_all_cons (image : ndarray) (images : list ndarray)
    (log_transform : bool) (self self' : OnlineStatistics) :
  update_all (image :: images) log_transform self = (self', Ok tt) ->
  exists self1,
    update image log_transform self = (self1, Ok tt) /\
    update_all images log_transform self1 = (self', Ok tt).
Proof.
  cbn [update_all]. unfold bind.
  destruct (update image log_transform self) as [self1 [[]|e]];
    [|discriminate].
  intros H. now exists self1.
Qed.

Lemma init_fields (heap : nat -> float) (dims : list nat) (decimals : Z)
    (stats : OnlineStatistics) :
  __init__ heap dims decimals = Ok stats ->
  n stats = 0%Z /\ image_dimensions stats = dims /\
  _q stats = linspace 0 100 (Z.to_nat (10 ^ (decimals + 2))) /\
  _percentiles stats = map heap (seq 0 (Z.to_nat (10 ^ (decimals + 2)))) /\
  _keys stats = map (round_to decimals) (_q stats) /\
  _mean stats = zeros dims /\ _M2 stats = zeros dims.
Proof.
  unfold __init__. destruct (negb _); [discriminate|].
  intros H. inversion H. cbn. repeat split; reflexivity.
Qed.

Lemma std_undefined (self : OnlineStatistics) :
  (n self < 2)%Z -> std self = full (image_dimensions self) NaN.
Proof.
  intros Hn. unfold std. rewrite var_undefined by assumption.
  unfold map_array, full. cbn [shape data]. now rewrite map_repeat.
Qed.

(** X19: a batch without a file raises [IndexError], and a batch with a
    single image that [run_job] completes gives a standard deviation
    that is nan in every pixel. *)
Theorem run_job_single_image :
  (forall heap, run_job heap [] = Raise IndexError) /\
  (forall heap image c,
     run_job heap [image] = Ok c ->
     container_std c = full (shape image) NaN).
Proof.
  split; [reflexivity|].
  intros heap image c. unfold run_job.
  destruct (__init__ heap (shape image) 3) as [stats|e] eqn:Hinit;
    [|discriminate].
  destruct (update_all [image] true stats) as [stats' [[]|e]] eqn:Hup;
    [|discriminate].
  destruct (percentiles stats') as [p|e]; [|discriminate].
  intros H. inversion H; subst c; clear H. cbn [container_std].
  apply update_all_cons in Hup. destruct Hup as [self1 [Hup Hrest]].
  cbn [update_all] in Hrest. unfold ret in Hrest.
  inversion Hrest; subst self1; clear Hrest.
  destruct (update_counts _ _ _ _ Hup) as [Hn Hdims].
  destruct (init_fields _ _ _ _ Hinit) as [Hn0 [Hd0 _]].
  rewrite std_undefined by lia. congruence.
Qed.

(** A job on one constant image in memory that holds one finite value. *)
Lemma run_job_constant (h v : R) (dims : list nat) :
  size_of dims <> 0%nat ->
  exists c, run_job (fun _ => Fin h) [constant_image dims v] = Ok c.
Proof.
  intros HN. unfold run_job.
  change (shape (constant_image dims v)) with dims.
  rewrite (init_ok _ dims 3) by lia.
  set (P := Z.to_nat (10 ^ (3 + 2))).
  assert (HP : (2 <= P)%nat) by (apply precision_ge_2; lia).
  destruct (update_all_constant dims true [v] HN
              (mk_stats 0 dims (zeros dims) (zeros dims) (linspace 0 100 P)
                 (map (fun _ => Fin h) (seq 0 P))
                 (map (round_to 3) (linspace 0 100 P))) h)
    as [self [Hup [Hn [Hp Hk]]]].
  - reflexivity.
  - reflexivity.
  - intros x. cbn [_q]. now apply linspace_range.
  - cbn [_percentiles _q].
    now rewrite map_constant, length_seq, linspace_length.
  - change (map (constant_image dims) [v]) with [constant_image dims v] in Hup.
    rewrite Hup. unfold percentiles. cbn [n _q _keys length] in Hn, Hp, Hk.
    rewrite Hp, Hk, Hn.
    replace (length (linspace 0 100 P))
      with (length (map (round_to 3) (linspace 0 100 P)))
      by apply length_map.
    rewrite percentile_items_constant by lia. eauto.
Qed.

Lemma run_job_single_image_witness :
  exists c,
    run_job heap_zero [constant_image [1]%nat 5] = Ok c /\
    container_std c = full (shape (constant_image [1]%nat 5)) NaN.
Proof.
  destruct (run_job_constant 0 5 [1]%nat) as [c Hc]; [discriminate|].
  exists c. split; [exact Hc|].
  exact (proj2 run_job_single_image heap_zero _ c Hc).
Defined.

(** *** [create_batches] *)

Lemma filter_map_comm {A B} (f : B -> bool) (g : A -> B) (l : list A) :
  filter f (map g l) = map g (filter (fun a => f (g a)) l).
Proof.
  induction l as [|a l IH]; [reflexivity|].
  cbn [map filter]. destruct (f (g a)); cbn [map]; now rewrite IH.
Qed.

Lemma map_seq_shift {A} (f : nat -> A) (d k : nat) :
  forall a, map f (seq (a + d) k) = map (fun i => f (i + d)%nat) (seq a k).
Proof.
  induction k as [|k IH]; intros a; [reflexivity|].
  cbn [seq map]. f_equal. apply (IH (S a)).
Qed.

Section CreateBatchesFacts.

Variable path_join : String.string -> String.string -> String.string.
Variable filename_format : Z -> String.string.

(** The jobs that the loops append do not depend on the jobs that are
    there. *)
Lemma channel_loop_run (cycle : Cycle) (channels : list Z) :
  forall count run,
    channel_loop path_join filename_format cycle channels count run
    = (fst (channel_loop path_join filename_format cycle channels count []),
       run ++ snd (channel_loop path_join filename_format cycle channels
                     count [])).
Proof.
  induction channels as [|channel rest IH]; intros count run.
  - cbn. now rewrite app_nil_r.
  - cbn [channel_loop]. destruct (files_of cycle channel) as [|f fs].
    + apply IH.
    + cbv zeta. rewrite IH. rewrite (IH _ ([] ++ _)). cbn [fst snd].
      now rewrite app_nil_l, <- app_assoc.
Qed.

Lemma channel_loop_cons (cycle : Cycle) (channel : Z) (rest : list Z)
    (count : Z) :
  channel_loop path_join filename_format cycle (channel :: rest) count []
  = if has_files (cycle, channel)
    then (fst (channel_loop path_join filename_format cycle rest
                 (count + 1) []),
          job_of path_join filename_format cycle channel (count + 1)
          :: snd (channel_loop path_join filename_format cycle rest
                    (count + 1) []))
    else channel_loop path_join filename_format cycle rest count [].
Proof.
  cbn [channel_loop]. unfold has_files. cbn [fst snd].
  destruct (files_of cycle channel) as [|f fs]; [reflexivity|].
  cbv zeta. now rewrite channel_loop_run.
Qed.

Lemma cycle_loop_run (channels : list Z) (cycles : list Cycle) :
  forall count run,
    cycle_loop path_join filename_format cycles channels count run
    = (fst (cycle_loop path_join filename_format cycles channels count []),
       run ++ snd (cycle_loop path_join filename_format cycles channels
                     count [])).
Proof.
  induction cycles as [|cycle rest IH]; intros count run.
  - cbn. now rewrite app_nil_r.
  - cbn [cycle_loop]. rewrite channel_loop_run.
    rewrite (channel_loop_run cycle channels count []).
    cbn [fst snd app]. rewrite IH.
    rewrite (IH _ (snd _)). cbn [fst snd]. now rewrite app_assoc.
Qed.

Lemma cycle_loop_cons (channels : list Z) (cycle : Cycle)
    (rest : list Cycle) (count : Z) :
  cycle_loop path_join filename_format (cycle :: rest) channels count []
  = (fst (cycle_loop path_join filename_format rest channels
            (fst (channel_loop path_join filename_format cycle channels
                    count [])) []),
     snd (channel_loop path_join filename_format cycle channels count [])
     ++ snd (cycle_loop path_join filename_format rest channels
               (fst (channel_loop path_join filename_format cycle channels
                       count [])) [])).
Proof.
  cbn [cycle_loop].
  destruct (channel_loop path_join filename_format cycle channels count [])
    as [c js]. cbn [fst snd]. apply cycle_loop_run.
Qed.

(** The counter after a loop is the counter before it plus the number of
    jobs that the loop has appended. *)
Lemma channel_loop_count (cycle : Cycle) (channels : list Z) :
  forall count,
    fst (channel_loop path_join filename_format cycle channels count [])
    = (count
       + Z.of_nat
           (length (snd (channel_loop path_join filename_format cycle
                           channels count []))))%Z.
Proof.
  induction channels as [|channel rest IH]; intros count.
  - cbn. lia.
  - rewrite channel_loop_cons. destruct (has_files (cycle, channel)).
    + cbn [fst snd length]. rewrite IH. lia.
    + apply IH.
Qed.

Lemma channel_loop_ids (cycle : Cycle) (channels : list Z) :
  forall count,
    map job_id
        (snd (channel_loop path_join filename_format cycle channels count []))
    = map (fun i => (count + Z.of_nat i)%Z)
          (seq 1 (length (snd (channel_loop path_join filename_format cycle
                                 channels count [])))).
Proof.
  induction channels as [|channel rest IH]; intros count.
  - reflexivity.
  - rewrite channel_loop_cons. destruct (has_files (cycle, channel)).
    + cbn [fst snd length seq map job_id job_of].
      change (Z.of_nat 1) with 1%Z. apply f_equal.
      rewrite IH. rewrite (map_seq_shift _ 1 _ 1%nat).
      apply map_ext. intros i. lia.
    + apply IH.
Qed.

Lemma cycle_loop_ids (channels : list Z) (cycles : list Cycle) :
  forall count,
    map job_id
        (snd (cycle_loop path_join filename_format cycles channels count []))
    = map (fun i => (count + Z.of_nat i)%Z)
          (seq 1 (length (snd (cycle_loop path_join filename_format cycles
                                 channels count [])))).
Proof.
  induction cycles as [|cycle rest IH]; intros count.
  - reflexivity.
  - rewrite cycle_loop_cons. cbn [snd].
    rewrite map_app, length_app, seq_app, map_app.
    rewrite channel_loop_ids, IH. f_equal.
    rewrite channel_loop_count.
    rewrite (map_seq_shift (fun i => (count + Z.of_nat i)%Z) _ _ 1%nat).
    apply map_ext. intros i. lia.
Qed.

(** X20: the jobs are numbered 1, 2, 3, ... in the order of the list,
    without a gap and without a number used twice. *)
Theorem create_batches_ids (channels : list Z) (cycles : list Cycle) :
  map job_id (create_batches path_join filename_format channels cycles)
  = map Z.of_nat
      (seq 1 (length (create_batches path_join filename_format channels
                        cycles))).
Proof.
  unfold create_batches. rewrite cycle_loop_ids.
  apply map_ext. intros i. lia.
Qed.

Lemma channel_loop_pairs (cycle : Cycle) (channels : list Z) :
  forall count,
    map (fun j => (job_cycle_id j, job_channel_id j))
        (snd (channel_loop path_join filename_format cycle channels count []))
    = map (fun p => (cycle_id (fst p), snd p))
          (filter has_files (map (fun channel => (cycle, channel)) channels)).
Proof.
  induction channels as [|channel rest IH]; intros count.
  - reflexivity.
  - rewrite channel_loop_cons. cbn [map filter].
    destruct (has_files (cycle, channel)).
    + cbn [fst snd map job_of job_cycle_id job_channel_id].
      now rewrite IH.
    + apply IH.
Qed.

(** X21: there is one job for every pair of a cycle and a channel that
    has a file, and none for the others; the jobs come cycle by cycle,
    and within a cycle in the order of the channels. *)
Theorem create_batches_pairs (channels : list Z) (cycles : list Cycle) :
  map (fun j => (job_cycle_id j, job_channel_id j))
      (create_batches path_join filename_format channels cycles)
  = map (fun p => (cycle_id (fst p), snd p))
        (filter has_files (list_prod cycles channels)).
Proof.
  unfold create_batches. generalize 0%Z.
  induction cycles as [|cycle rest IH]; intros count.
  - reflexivity.
  - rewrite cycle_loop_cons. cbn [snd list_prod].
    rewrite filter_app, !map_app. now rewrite channel_loop_pairs, IH.
Qed.

Lemma channel_loop_jobs (cycle : Cycle) (channels : list Z) (j : job) :
  forall count,
    In j (snd (channel_loop path_join filename_format cycle channels
                 count [])) ->
    exists channel count',
      In channel channels /\ files_of cycle channel <> [] /\
      j = job_of path_join filename_format cycle channel count'.
Proof.
  induction channels as [|channel rest IH]; intros count Hj.
  - destruct Hj.
  - rewrite channel_loop_cons in Hj.
    destruct (has_files (cycle, channel)) eqn:E.
    + cbn [snd] in Hj. destruct Hj as [<-|Hj].
      * exists channel, (count + 1)%Z. split; [now left|]. split; auto.
        unfold has_files in E. cbn [fst snd] in E.
        destruct (files_of cycle channel); [discriminate|discriminate].
      * destruct (IH _ Hj) as [ch [c' [H1 H2]]].
        exists ch, c'. split; [now right|exact H2].
    + destruct (IH _ Hj) as [ch [c' [H1 H2]]].
      exists ch, c'. split; [now right|exact H2].
Qed.

Lemma cycle_loop_jobs (channels : list Z) (cycles : list Cycle) (j : job) :
  forall count,
    In j (snd (cycle_loop path_join filename_format cycles channels
                 count [])) ->
    exists cycle channel count',
      In cycle cycles /\ In channel channels /\
      files_of cycle channel <> [] /\
      j = job_of path_join filename_format cycle channel count'.
Proof.
  induction cycles as [|cycle rest IH]; intros count Hj.
  - destruct Hj.
  - rewrite cycle_loop_cons in Hj. cbn [snd] in Hj.
    apply in_app_or in Hj. destruct Hj as [Hj|Hj].
    + destruct (channel_loop_jobs _ _ _ _ Hj) as [ch [c' [H1 H2]]].
      exists cycle, ch, c'. split; [now left|]. split; assumption.
    + destruct (IH _ Hj) as [cy [ch [c' [H0 H1]]]].
      exists cy, ch, c'. split; [now right|exact H1].
Qed.

(** X22: what a job holds.  Every job belongs to one of the cycles and
    one of the channels; its files are the files of that cycle with that
    channel, in their order, and there is at least one, so that [run_job]
    finds [file_ids[0]]; the ids and the locations are those of the same
    files, position by position; and the single output is the statistics
    file of the channel in the directory of the cycle. *)
Theorem create_batches_job (channels : list Z) (cycles : list Cycle)
    (j : job) :
  In j (create_batches path_join filename_format channels cycles) ->
  exists cycle,
    In cycle cycles /\ In (job_channel_id j) channels /\
    job_cycle_id j = cycle_id cycle /\
    channel_image_files_ids j <> [] /\
    channel_image_files_ids j
    = map file_id (files_of cycle (job_channel_id j)) /\
    inputs j = map location (files_of cycle (job_channel_id j)) /\
    (forall f, In f (files_of cycle (job_channel_id j)) <->
               In f (channel_image_files cycle) /\
               file_channel_id f = job_channel_id j) /\
    outputs j
    = [path_join (illumstats_location cycle)
                 (filename_format (job_channel_id j))].
Proof.
  intros Hj. unfold create_batches in Hj.
  destruct (cycle_loop_jobs _ _ _ _ Hj)
    as [cycle [channel [count [Hc [Hch [Hf ->]]]]]].
  exists cycle. cbn [job_of job_channel_id job_cycle_id
                     channel_image_files_ids inputs outputs].
  split; [assumption|]. split; [assumption|]. split; [reflexivity|].
  split.
  { destruct (files_of cycle channel); [congruence|discriminate]. }
  split; [reflexivity|]. split; [reflexivity|]. split; [|reflexivity].
  intros f. unfold files_of. rewrite filter_In, Z.eqb_eq. reflexivity.
Qed.

End CreateBatchesFacts.

Lemma create_batches_job_witness :
  exists cycle,
    In cycle [cycle_one; cycle_two] /\
    In (job_channel_id first_job) [1; 2]%Z /\
    job_cycle_id first_job = cycle_id cycle /\
    channel_image_files_ids first_job <> [] /\
    channel_image_files_ids first_job
    = map file_id (files_of cycle (job_channel_id first_job)) /\
    inputs first_job
    = map location (files_of cycle (job_channel_id first_job)) /\
    (forall f, In f (files_of cycle (job_channel_id first_job)) <->
               In f (channel_image_files cycle) /\
               file_channel_id f = job_channel_id first_job) /\
    outputs first_job
    = [join_names (illumstats_location cycle)
                  (channel_name (job_channel_id first_job))].
Proof.
  apply (create_batches_job join_names channel_name [1; 2]%Z
           [cycle_one; cycle_two] first_job).
  vm_compute. left. reflexivity.
Defined.

(** *** [run_job] and the memory of the percentile sums *)

Lemma insert_Forall (P : float -> Prop) (x : float) (l : list float) :
  P x -> Forall P l -> Forall P (insert x l).
Proof.
  intros Hx. induction 1 as [|y l Hy Hl IH]; cbn [insert].
  - now constructor.
  - destruct (fle_dec x y); repeat constructor; assumption.
Qed.

Lemma sort_Forall (P : float -> Prop) (l : list float) :
  Forall P l -> Forall P (sort l).
Proof.
  induction 1 as [|x l Hx _ IH]; cbn [sort]; [constructor|].
  now apply insert_Forall.
Qed.

Lemma insert_length (x : float) (l : list float) :
  length (insert x l) = S (length l).
Proof.
  induction l as [|y l IH]; cbn [insert]; [reflexivity|].
  destruct (fle_dec x y); cbn [length]; [reflexivity|now rewrite IH].
Qed.

Lemma sort_length (l : list float) : length (sort l) = length l.
Proof.
  induction l as [|x l IH]; cbn [sort]; [reflexivity|].
  now rewrite insert_length, IH.
Qed.

Lemma nth_finite (l : list float) (i : nat) :
  Forall is_finite l -> (i < length l)%nat ->
  exists r, nth i l NaN = Fin r.
Proof.
  intros Hl Hi.
  pose proof (proj1 (Forall_forall _ _) Hl _ (nth_In l NaN Hi)) as H.
  destruct (nth i l NaN) as [r| |]; [eauto|destruct H|destruct H].
Qed.

(** A percentile of finite data is finite. *)
Lemma percentile1_finite (ap : list float) (q : R) :
  ap <> [] -> Forall is_finite ap -> 0 <= q <= 100 ->
  is_finite (percentile1 ap q).
Proof.
  intros Hne Hfin Hq. unfold percentile1.
  assert (Hn : (0 < length ap)%nat)
    by (destruct ap; [congruence|simpl; lia]).
  set (index := q / 100 * (INR (length ap) - 1)).
  assert (Hn1 : 1 <= INR (length ap))
    by (change 1 with (INR 1); apply le_INR; lia).
  assert (Hi : 0 <= index <= INR (length ap) - 1).
  { unfold index. split; [apply Rmult_le_pos; lra|].
    rewrite <- (Rmult_1_l (INR (length ap) - 1)) at 2.
    apply Rmult_le_compat_r; lra. }
  pose proof (Zfloor_bound index) as Hb.
  assert (H0 : (0 <= Zfloor index)%Z) by (apply Zfloor_lub; simpl; lra).
  assert (H1 : (Zfloor index <= Z.of_nat (length ap) - 1)%Z).
  { apply le_IZR. rewrite minus_IZR, <- INR_IZR_INZ. lra. }
  destruct (nth_finite ap (Z.to_nat (Zfloor index)) Hfin) as [a Ha];
    [lia|].
  destruct (nth_finite ap
              (Z.to_nat (Z.min (Zfloor index + 1)
                               (Z.of_nat (length ap) - 1))) Hfin)
    as [b Hb']; [lia|].
  rewrite Ha, Hb'. exact I.
Qed.

Lemma percentile_length (image : ndarray) (q : list R) (p : list float) :
  percentile image q = Ok p -> length p = length q.
Proof.
  unfold percentile. destruct (data image); [discriminate|].
  intros H. inversion H. apply length_map.
Qed.

Lemma percentile_finite (image : ndarray) (q : list R) :
  data image <> [] -> Forall is_finite (data image) ->
  (forall x, In x q -> 0 <= x <= 100) ->
  exists p, percentile image q = Ok p /\ Forall is_finite p.
Proof.
  intros Hne Hfin Hq. unfold percentile.
  destruct (data image) as [|x l] eqn:E; [congruence|].
  eexists. split; [reflexivity|].
  apply Forall_forall. intros y Hy. apply in_map_iff in Hy.
  destruct Hy as [x' [<- Hx']]. apply percentile1_finite.
  - intros E'. apply (f_equal (@length float)) in E'.
    rewrite sort_length in E'. discriminate.
  - now apply sort_Forall.
  - now apply Hq.
Qed.

Lemma map2_fadd_finite (l1 : list float) :
  forall l2, Forall is_finite l1 -> Forall is_finite l2 ->
             Forall is_finite (map2 fadd l1 l2).
Proof.
  induction l1 as [|x l1 IH]; intros [|y l2] H1 H2; cbn [map2];
    try constructor.
  - inversion H1; inversion H2; subst.
    destruct x, y; simpl in *; tauto.
  - inversion H1; inversion H2; subst. now apply IH.
Qed.

(** Finite sums stay finite along a series of finite images. *)
Lemma update_all_sums_finite (log_transform : bool)
    (images : list ndarray) :
  Forall (fun image => data image <> [] /\ Forall is_finite (data image))
         images ->
  forall self self',
    (forall x, In x (_q self) -> 0 <= x <= 100) ->
    Forall is_finite (_percentiles self) ->
    update_all images log_transform self = (self', Ok tt) ->
    Forall is_finite (_percentiles self').
Proof.
  induction 1 as [|image images [Hne Hfin] _ IH];
    intros self self' Hq Hp Hup.
  - cbn [update_all] in Hup. unfold ret in Hup. now inversion Hup; subst.
  - apply update_all_cons in Hup. destruct Hup as [self1 [Hup Hrest]].
    destruct (percentile_finite image (_q self) Hne Hfin Hq)
      as [p [Ep Hpf]].
    destruct (update_percentiles image log_transform self p Ep)
      as [E1 [E2 _]].
    rewrite Hup in E1, E2. cbn [fst] in E1, E2.
    apply (IH self1 self'); [| |exact Hrest].
    + now rewrite E2.
    + rewrite E1. now apply map2_fadd_finite.
Qed.

Lemma percentile_items_finite (count : Z) (keys : list R) :
  count <> 0%Z ->
  forall ps, Forall is_finite ps -> length ps = length keys ->
    exists items,
      percentile_items keys ps count = Ok items /\ map fst items = keys.
Proof.
  intros Hc. induction keys as [|k keys IH]; intros [|x ps] Hps Hl;
    try discriminate.
  - now exists [].
  - inversion Hps as [|? ? Hx Hps']; subst.
    destruct (IH ps Hps') as [items [E Ek]]; [simpl in Hl; lia|].
    destruct x as [r| |]; try destruct Hx.
    cbn [percentile_items fdiv].
    rewrite Rzero_false by (now apply not_0_IZR).
    cbn [int]. rewrite E. eexists. split; [reflexivity|].
    cbn [map fst]. now rewrite Ek.
Qed.

Lemma update_all_sums_length (log_transform : bool)
    (images : list ndarray) :
  forall self self',
    length (_percentiles self) = length (_q self) ->
    update_all images log_transform self = (self', Ok tt) ->
    length (_percentiles self') = length (_q self) /\
    _q self' = _q self /\ _keys self' = _keys self.
Proof.
  induction images as [|image images IH]; intros self self' Hl Hup.
  - cbn [update_all] in Hup. unfold ret in Hup. now inversion Hup; subst.
  - apply update_all_cons in Hup. destruct Hup as [self1 [Hup Hrest]].
    destruct (percentile image (_q self)) as [p|e] eqn:Ep.
    + destruct (update_percentiles image log_transform self p Ep)
        as [E1 [E2 E3]].
      rewrite Hup in E1, E2, E3. cbn [fst] in E1, E2, E3.
      destruct (IH self1 self') as [H1 [H2 H3]]; [|exact Hrest|].
      * rewrite E1, E2, map2_length; [assumption|].
        rewrite Hl. symmetry. now apply percentile_length in Ep.
      * rewrite <- E2, <- E3. auto.
    + rewrite update_eq, Ep in Hup. discriminate.
Qed.

Lemma finite_array_data (dims : list nat) (l : list R) :
  Forall is_finite (data (finite_array dims l)).
Proof.
  unfold finite_array. cbn [data]. apply Forall_forall.
  intros x Hx. apply in_map_iff in Hx. now destruct Hx as [r [<- _]].
Qed.

(** X23: [run_job] on images that are fit for it.  When the memory of the
    percentile sums holds finite numbers and the batch is a series, not
    empty, of images of one shape with positive pixels, [run_job]
    completes; the mean it stores is, pixel by pixel, the arithmetic mean
    of the logarithms to base 10; from two images on the standard
    deviation is the square root of their sample variance; and the
    percentiles are stored under the keys of the grid (three decimals),
    in the order of the grid. *)
Theorem run_job_finite_batch (heap : nat -> float) (dims : list nat)
    (images : list (list R)) :
  (forall i, is_finite (heap i)) ->
  size_of dims <> 0%nat ->
  images <> [] ->
  Forall (fun image => length image = size_of dims /\
                       Forall (fun x => 0 < x) image) images ->
  exists c,
    run_job heap (map (finite_array dims) images) = Ok c /\
    container_mean c
    = finite_array dims
        (map (fun i => arithmetic_mean (column i (map (map Rlog10) images)))
             (seq 0 (size_of dims))) /\
    ((2 <= length images)%nat ->
     container_std c
     = finite_array dims
         (map (fun i =>
                 sqrt (sample_variance
                         (column i (map (map Rlog10) images))))
              (seq 0 (size_of dims)))) /\
    map fst (container_percentiles c)
    = map (round_to 3) (linspace 0 100 (Z.to_nat (10 ^ (3 + 2)))).
Proof.
  intros Hheap HN Hne Himages.
  assert (Hdec : (0 <= 3 <= 3)%Z) by lia.
  assert (Hne' : map (map Rlog10) images <> []).
  { destruct images; [congruence|discriminate]. }
  destruct (fresh_run heap dims 3 true _ _ Hdec Hne'
              (feeds_log dims images HN Himages))
    as [self0 [ps [H0 Hrun]]].
  destruct (init_fields _ _ _ _ H0) as [Hn0 [Hd0 [Hq0 [Hp0 [Hk0 _]]]]].
  pose proof (precision_ge_2 3 Hdec) as HP.
  set (P := Z.to_nat (10 ^ (3 + 2))) in *.
  assert (Hq : forall x, In x (_q self0) -> 0 <= x <= 100).
  { intros x Hx. rewrite Hq0 in Hx. now apply (linspace_range P). }
  assert (Hfin0 : Forall is_finite (_percentiles self0)).
  { rewrite Hp0. apply Forall_forall. intros x Hx.
    apply in_map_iff in Hx. destruct Hx as [i [<- _]]. apply Hheap. }
  assert (Hdata : Forall (fun image => data image <> [] /\
                                       Forall is_finite (data image))
                         (map (finite_array dims) images)).
  { apply Forall_forall. intros image Him. apply in_map_iff in Him.
    destruct Him as [l [<- Hl]]. split; [|apply finite_array_data].
    pose proof (proj1 (Forall_forall _ _) Himages l Hl) as [Hlen _].
    unfold finite_array. cbn [data]. intros E.
    apply (f_equal (@length float)) in E. rewrite length_map in E.
    simpl in E. congruence. }
  pose proof (update_all_sums_finite true _ Hdata _ _ Hq Hfin0 Hrun)
    as Hfin.
  destruct (update_all_sums_length true _ _ _
              ltac:(rewrite Hp0, Hq0, length_map, length_seq;
                    symmetry; apply linspace_length) Hrun)
    as [Hlen _].
  cbn [_percentiles] in Hfin, Hlen.
  destruct (percentile_items_finite
              (Z.of_nat (length (map (map Rlog10) images))) (_keys self0)
              ltac:(destruct images; [congruence|simpl; lia]) ps Hfin)
    as [items [Hitems Hkeys]].
  { rewrite Hlen, Hk0. now rewrite length_map. }
  unfold run_job.
  destruct images as [|x xs]; [congruence|].
  cbn [map] in *. change (shape (finite_array dims x)) with dims.
  rewrite H0, Hrun. unfold percentiles. cbn [_keys _percentiles n].
  rewrite Hitems. eexists. split; [reflexivity|].
  cbn [container_mean container_std container_percentiles].
  split; [reflexivity|]. split.
  - intros H2. cbn [length] in H2. unfold std.
    erewrite var_finite;
      [|cbn [n length]; rewrite length_map; lia|reflexivity].
    unfold map_array, finite_array. cbn [shape data n]. f_equal.
    rewrite fsqrt_finite.
    + f_equal. rewrite !map_map. apply map_ext. intros i. f_equal.
      unfold sample_variance.
      rewrite column_length. cbn [length]. now rewrite <- INR_IZR_INZ.
    + rewrite map_map. apply Forall_forall. intros v Hv.
      apply in_map_iff in Hv. destruct Hv as [i [<- _]].
      replace (IZR (Z.of_nat (length (map Rlog10 x :: map (map Rlog10) xs)))
               - 1)
        with (INR (length (column i (map Rlog10 x :: map (map Rlog10) xs)))
              - 1)
        by (now rewrite column_length, <- INR_IZR_INZ).
      apply (sample_variance_nonneg
               (column i (map Rlog10 x :: map (map Rlog10) xs))).
      rewrite column_length.
      cbn [length] in *. rewrite length_map in *. lia.
  - rewrite Hkeys, Hk0, Hq0. reflexivity.
Qed.

Lemma run_job_finite_batch_witness :
  exists c,
    run_job heap_zero (map (finite_array [1]%nat) [[1]; [10]]) = Ok c /\
    container_mean c
    = finite_array [1]%nat
        (map (fun i =>
                arithmetic_mean (column i (map (map Rlog10) [[1]; [10]])))
             (seq 0 (size_of [1]%nat))) /\
    ((2 <= length [[1]; [10]])%nat ->
     container_std c
     = finite_array [1]%nat
         (map (fun i =>
                 sqrt (sample_variance
                         (column i (map (map Rlog10) [[1]; [10]]))))
              (seq 0 (size_of [1]%nat)))) /\
    map fst (container_percentiles c)
    = map (round_to 3) (linspace 0 100 (Z.to_nat (10 ^ (3 + 2)))).
Proof.
  apply (run_job_finite_batch heap_zero [1]%nat [[1]; [10]]).
  - intros i. exact I.
  - discriminate.
  - discriminate.
  - repeat constructor; lra.
Defined.

Lemma fadd_not_finite (x y : float) :
  ~ is_finite x -> ~ is_finite (fadd x y).
Proof.
  destruct x as [a|s|], y as [b|t|]; simpl; try tauto.
  destruct (Bool.eqb s t); simpl; tauto.
Qed.

Lemma int_not_finite (x : float) (c : R) :
  ~ is_finite x -> exists e, int (fdiv x (Fin c)) = Raise e.
Proof.
  destruct x as [a|s|]; simpl; [tauto| |]; eauto.
Qed.

Lemma percentile_items_not_finite (count : Z) (keys : list R) :
  forall ps i,
    (i < length keys)%nat -> (i < length ps)%nat ->
    ~ is_finite (nth i ps NaN) ->
    exists e, percentile_items keys ps count = Raise e.
Proof.
  induction keys as [|k keys IH]; intros [|x ps] i Hk Hp Hx;
    simpl in Hk, Hp; try lia.
  cbn [percentile_items]. destruct i as [|i].
  - cbn [nth] in Hx.
    destruct (int_not_finite x (IZR count) Hx) as [e ->]. eauto.
  - cbn [nth] in Hx.
    destruct (int (fdiv x (Fin (IZR count)))) as [v|e]; [|eauto].
    destruct (IH ps i) as [e ->]; [lia|lia|assumption|]. eauto.
Qed.

(** A sum that is not finite stays so, whatever is added to it. *)
Lemma update_all_sums_not_finite (log_transform : bool) (i : nat)
    (images : list ndarray) :
  forall self self',
    length (_percentiles self) = length (_q self) ->
    (i < length (_percentiles self))%nat ->
    ~ is_finite (nth i (_percentiles self) NaN) ->
    update_all images log_transform self = (self', Ok tt) ->
    ~ is_finite (nth i (_percentiles self') NaN).
Proof.
  induction images as [|image images IH]; intros self self' Hl Hi Hx Hup.
  - cbn [update_all] in Hup. unfold ret in Hup. now inversion Hup; subst.
  - apply update_all_cons in Hup. destruct Hup as [self1 [Hup Hrest]].
    destruct (percentile image (_q self)) as [p|e] eqn:Ep.
    + destruct (update_percentiles image log_transform self p Ep)
        as [E1 [E2 _]].
      rewrite Hup in E1, E2. cbn [fst] in E1, E2.
      pose proof (percentile_length _ _ _ Ep) as Hpl.
      apply (IH self1 self'); [| | |exact Hrest].
      * rewrite E1, E2, map2_length; [assumption|]. congruence.
      * rewrite E1, map2_length; [assumption|]. congruence.
      * rewrite E1. rewrite (nth_map2 fadd NaN NaN NaN) by congruence.
        now apply fadd_not_finite.
    + rewrite update_eq, Ep in Hup. discriminate.
Qed.

(** X24: [run_job] and memory that is not initialised.  When one of the
    100000 cells that [np.empty] hands to the percentile sums holds nan or
    an infinity, [run_job] raises an exception for every batch: no
    statistics are stored, whatever the images are. *)
Theorem run_job_memory_not_finite (heap : nat -> float)
    (images : list ndarray) (i : nat) :
  (Z.of_nat i < 100000)%Z -> ~ is_finite (heap i) ->
  exists e, run_job heap images = Raise e.
Proof.
  intros Hi Hx. unfold run_job. destruct images as [|img rest]; [eauto|].
  destruct (__init__ heap (shape img) 3) as [stats|e] eqn:H0; [|eauto].
  destruct (update_all (img :: rest) true stats) as [stats' [[]|e]] eqn:Hup;
    [|eauto].
  destruct (init_fields _ _ _ _ H0) as [_ [_ [Hq0 [Hp0 [Hk0 _]]]]].
  assert (HP : (i < Z.to_nat (10 ^ (3 + 2)))%nat).
  { change (10 ^ (3 + 2))%Z with 100000%Z. lia. }
  set (P := Z.to_nat (10 ^ (3 + 2))) in *.
  assert (Hl : length (_percentiles stats) = length (_q stats)).
  { rewrite Hp0, Hq0, length_map, length_seq. symmetry.
    apply linspace_length. }
  assert (Hlp : length (_percentiles stats) = P).
  { now rewrite Hp0, length_map, length_seq. }
  destruct (update_all_sums_length true _ _ _ Hl Hup) as [Hl' [Hq' Hk']].
  assert (Hnf : ~ is_finite (nth i (_percentiles stats') NaN)).
  { apply (update_all_sums_not_finite true i (img :: rest) stats stats' Hl);
      [lia| |exact Hup].
    rewrite Hp0. rewrite (nth_indep _ NaN (heap 0%nat))
      by (rewrite length_map, length_seq; lia).
    rewrite map_nth, seq_nth by lia. exact Hx. }
  destruct (percentile_items_not_finite (n stats') (_keys stats')
              (_percentiles stats') i) as [e He].
  - rewrite Hk', Hk0, length_map, Hq0, linspace_length. exact HP.
  - rewrite Hl', <- Hl, Hlp. exact HP.
  - exact Hnf.
  - unfold percentiles. rewrite He. eauto.
Qed.

Lemma run_job_memory_not_finite_witness :
  exists e, run_job heap_nan [constant_image [1]%nat 5] = Raise e.
Proof.
  apply (run_job_memory_not_finite heap_nan [constant_image [1]%nat 5]
           0%nat).
  - lia.
  - simpl. auto.
Defined.

End CorillaFacts.
